(** * Export normalisation pipeline of the proposal builder

    A shallow embedding of the DOM normalisers of
    [src/services/optimizedImageProcessor.ts] and
    [src/services/optimizedTextProcessor.ts], of the safe HTML renderer
    component and of the grid layout component, together with the
    properties of the specification that are stated about them. *)

From stdpp Require Import base option strings list gmap fin_maps.
Import Stdlib.Strings.Ascii.

Open Scope string_scope.

(** ** The document object model

    The live document is a store of elements addressed by their index; the
    store lists the elements in document (tree) order, and every element
    records the index of its parent element.  A [NodeList] is a list of
    such indices, so that the same element object can be reached through
    several collections, as in the browser. *)

(** One declaration of an inline style block: its value and whether it
    carries the [!important] priority.  The value is kept as the string
    that was assigned. *)
Record Declaration := mkDecl {
  decl_value : string;
  decl_important : bool;
}.

Record Element := mkElement {
  isHTMLElement : bool;                    (* [el instanceof HTMLElement] *)
  localName : string;
  classList : list string;
  parentElement : option nat;
  attributes : gmap string string;
  style : gmap string Declaration;         (* the inline style, by CSS property *)
  crossOrigin : option string;
}.

Abbreviation Dom := (list Element).

(** The resolved style the rendering engine reports for an element.  Only
    the two properties the normalisers read are kept.  An absent value is
    the empty string, which JavaScript treats as false like [undefined]. *)
Record ComputedStyle := mkComputed {
  cs_objectFit : string;
  cs_backgroundColor : string;
}.

(** [window.getComputedStyle] as one run of a normaliser sees it: the
    style the rendering engine reports for each element during the run.
    It is a capability of the engine, read only by the normalisers, and
    is taken as an input.  How the reports follow the document from one
    moment to the next is the matter of the live engine given below. *)
Record Window := mkWindow {
  getComputedStyle : nat -> ComputedStyle;
}.

(** [CSS.supports(property, value)]: whether the host parses the string
    as a value of the property.  The parser belongs to the host and is an
    input, as [getComputedStyle] is. *)
Record CSS := mkCSS {
  supports : string -> string -> bool;
}.

(** *** JavaScript values *)

(** [a || b] on strings: the empty string is the only false string. *)
Definition js_or (a b : string) : string :=
  if decide (a = "") then b else a.

Infix "|||" := js_or (at level 50, left associativity).

(** Truth value of [string | null]. *)
Definition truthy (o : option string) : bool :=
  match o with
  | Some v => bool_decide (v ≠ "")
  | None => false
  end.

(** [o + s] where [o] is [string | null]: [null] prints as ["null"]. *)
Definition js_concat (o : option string) (s : string) : string :=
  match o with
  | Some v => v +:+ s
  | None => "null" +:+ s
  end.

(** *** Element level reads and writes *)

(** [el.style.prop], also [el.style.getPropertyValue(prop)]. *)
Definition getPropertyValue (e : Element) (prop : string) : string :=
  match style e !! prop with
  | Some d => decl_value d
  | None => ""
  end.

Definition with_style (st : gmap string Declaration) (e : Element) : Element :=
  mkElement (isHTMLElement e) (localName e) (classList e) (parentElement e)
            (attributes e) st (crossOrigin e).

Definition with_attributes (a : gmap string string) (e : Element) : Element :=
  mkElement (isHTMLElement e) (localName e) (classList e) (parentElement e)
            a (style e) (crossOrigin e).

Definition with_crossOrigin (c : option string) (e : Element) : Element :=
  mkElement (isHTMLElement e) (localName e) (classList e) (parentElement e)
            (attributes e) (style e) c.

(** [el.style.setProperty(prop, value, priority)] for a string that is a
    value of the property.  The empty value removes the declaration; a
    priority other than the empty string and ["important"] makes the call
    do nothing.  The host stores the value it parsed, kept here as the
    string assigned.  The strings the normalisers assign are literals of
    the source, which are values of their properties, and strings the host
    reported itself (a computed colour, an inline value read back), with
    one exception: the dimension that [processSvgElements] builds from an
    attribute, which goes through [setStyleParsed]. *)
Definition setProperty (prop value priority : string) (e : Element) : Element :=
  if decide (value = "") then with_style (delete prop (style e)) e
  else if decide (priority = "") then
    with_style (<[prop := mkDecl value false]> (style e)) e
  else if decide (priority = "important") then
    with_style (<[prop := mkDecl value true]> (style e)) e
  else e.

(** [el.style.prop = value] is [setProperty] without a priority. *)
Definition setStyle (prop value : string) (e : Element) : Element :=
  setProperty prop value "" e.

(** [el.style.prop = value] for a string the script has built.  The host
    parses it: a string that is no value of the property is dropped and
    the declaration stays as it was. *)
Definition setStyleParsed (css : CSS) (prop value : string) (e : Element) : Element :=
  if decide (value = "") then setStyle prop value e
  else if supports css prop value then setStyle prop value e
  else e.

Definition getAttribute (e : Element) (name : string) : option string :=
  attributes e !! name.

Definition setAttribute (name value : string) (e : Element) : Element :=
  with_attributes (<[name := value]> (attributes e)) e.

(** *** Store level reads and writes *)

Definition elem_style (dom : Dom) (n : nat) (prop : string) : string :=
  match dom !! n with
  | Some e => getPropertyValue e prop
  | None => ""
  end.

Definition elem_attr (dom : Dom) (n : nat) (name : string) : option string :=
  dom !! n ≫= λ e, getAttribute e name.

Definition elem_parent (dom : Dom) (n : nat) : option nat :=
  dom !! n ≫= parentElement.

Definition elem_isHTML (dom : Dom) (n : nat) : bool :=
  match dom !! n with
  | Some e => isHTMLElement e
  | None => false
  end.

Definition style_assign (n : nat) (prop value : string) (dom : Dom) : Dom :=
  alter (setStyle prop value) n dom.

Definition style_assign_parsed (css : CSS) (n : nat) (prop value : string)
    (dom : Dom) : Dom :=
  alter (setStyleParsed css prop value) n dom.

Definition style_setProperty (n : nat) (prop value priority : string)
    (dom : Dom) : Dom :=
  alter (setProperty prop value priority) n dom.

Definition attr_assign (n : nat) (name value : string) (dom : Dom) : Dom :=
  alter (setAttribute name value) n dom.

Definition crossOrigin_assign (n : nat) (value : string) (dom : Dom) : Dom :=
  alter (with_crossOrigin (Some value)) n dom.

(** [forEach] over a collection, threading the document. *)
Definition forEach {A} (l : list A) (body : A -> Dom -> Dom) (dom : Dom) : Dom :=
  foldl (λ d x, body x d) dom l.

(** *** Selectors *)

Inductive SimpleSelector :=
  | SelUniversal                               (* [*] *)
  | SelType (name : string)                    (* [button] *)
  | SelClass (name : string)                   (* [.handle] *)
  | SelAttr (name value : string).             (* [[role='button']] *)

(** A selector list, as written between commas. *)
Abbreviation Selector := (list SimpleSelector).

Definition matches_simple (e : Element) (s : SimpleSelector) : bool :=
  match s with
  | SelUniversal => true
  | SelType t => bool_decide (localName e = t)
  | SelClass c => bool_decide (c ∈ classList e)
  | SelAttr a v => bool_decide (attributes e !! a = Some v)
  end.

Definition matches (sel : Selector) (e : Element) : bool :=
  existsb (matches_simple e) sel.

(** The chain of ancestors of [n], nearest first. *)
Fixpoint ancestors (fuel : nat) (dom : Dom) (n : nat) : list nat :=
  match fuel with
  | 0 => []
  | S k =>
      match elem_parent dom n with
      | Some p => p :: ancestors k dom p
      | None => []
      end
  end.

(** [n] is a proper descendant of [root]. *)
Definition is_descendant (dom : Dom) (root n : nat) : bool :=
  bool_decide (root ∈ ancestors (length dom) dom n).

(** The descendants of [root], in document order. *)
Definition descendants (dom : Dom) (root : nat) : list nat :=
  filter (λ n, is_descendant dom root n = true) (seq 0 (length dom)).

Definition elem_matches (dom : Dom) (sel : Selector) (n : nat) : bool :=
  match dom !! n with
  | Some e => matches sel e
  | None => false
  end.

Definition querySelectorAll (dom : Dom) (root : nat) (sel : Selector) : list nat :=
  filter (λ n, elem_matches dom sel n = true) (descendants dom root).

Definition querySelector (dom : Dom) (root : nat) (sel : Selector) : option nat :=
  head (querySelectorAll dom root sel).

(** In a document the parent of an element comes before it. *)
Definition document_order (dom : Dom) : bool :=
  forallb (λ n, match elem_parent dom n with
                | Some p => bool_decide (p < n)
                | None => true
                end) (seq 0 (length dom)).

(** ** Image processor ([optimizedImageProcessor.ts]) *)

Definition applyObjectFitStyles (img : nat) (objectFit : string) (dom : Dom) : Dom :=
  if decide (objectFit = "contain") then
    let dom := style_assign img "object-fit" "contain" dom in
    let dom := style_assign img "height" "100%" dom in
    let dom := style_assign img "width" "auto" dom in
    let dom := style_assign img "max-width" "none" dom in
    let dom := style_assign img "position" "absolute" dom in
    let dom := style_assign img "top" "0" dom in
    let dom := style_assign img "left" "50%" dom in
    style_assign img "transform" "translateX(-50%)" dom
  else if decide (objectFit = "cover") then
    let dom := style_assign img "object-fit" "cover" dom in
    let dom := style_assign img "width" "100%" dom in
    let dom := style_assign img "height" "100%" dom in
    let dom := style_assign img "position" "absolute" dom in
    let dom := style_assign img "top" "0" dom in
    style_assign img "left" "0" dom
  else if decide (objectFit = "fill") then
    let dom := style_assign img "width" "100%" dom in
    let dom := style_assign img "height" "100%" dom in
    style_assign img "object-fit" "fill" dom
  else if decide (objectFit = "none") then
    let dom := style_assign img "max-height" "100%" dom in
    let dom := style_assign img "width" "auto" dom in
    let dom := style_assign img "position" "absolute" dom in
    let dom := style_assign img "top" "50%" dom in
    let dom := style_assign img "left" "50%" dom in
    style_assign img "transform" "translate(-50%, -50%)" dom
  else if decide (objectFit = "scale-down") then
    let dom := style_assign img "max-height" "100%" dom in
    let dom := style_assign img "width" "auto" dom in
    let dom := style_assign img "max-width" "none" dom in
    let dom := style_assign img "position" "absolute" dom in
    let dom := style_assign img "top" "50%" dom in
    let dom := style_assign img "left" "50%" dom in
    style_assign img "transform" "translate(-50%, -50%)" dom
  else dom.

(** The body of the [forEach] of [processImages]. *)
Definition processImage (window : Window) (objectFitDefault : string)
    (img : nat) (dom : Dom) : Dom :=
  let dom := crossOrigin_assign img "anonymous" dom in
  let container := elem_parent dom img in
  let dom := style_assign img "display" "block" dom in
  let dom := style_assign img "visibility" "visible" dom in
  let computedStyle := getComputedStyle window img in
  let objectFit :=
    cs_objectFit computedStyle ||| elem_style dom img "object-fit"
      ||| objectFitDefault in
  let dom := applyObjectFitStyles img objectFit dom in
  match container with
  | Some c =>
      if elem_isHTML dom c then
        let dom := style_assign c "position" "relative" dom in
        let dom := style_assign c "overflow" "hidden" dom in
        style_assign c "box-sizing" "border-box" dom
      else dom
  | None => dom
  end.

(** [processImages(images, objectFitDefault = "cover")]; an omitted second
    argument is [None]. *)
Definition processImages (window : Window) (images : list nat)
    (objectFitDefault : option string) (dom : Dom) : Dom :=
  forEach images (processImage window (default "cover" objectFitDefault)) dom.

Definition polygonSelector : Selector := [SelType "polygon"].

Definition processPolygon (polygon : nat) (dom : Dom) : Dom :=
  let dom :=
    if negb (truthy (elem_attr dom polygon "fill"))
    then attr_assign polygon "fill" "#E2E8F0" dom else dom in
  let dom :=
    if negb (truthy (elem_attr dom polygon "stroke"))
    then attr_assign polygon "stroke" "#CBD5E1" dom else dom in
  if negb (truthy (elem_attr dom polygon "stroke-width"))
  then attr_assign polygon "stroke-width" "1" dom else dom.

(** The body of the [forEach] of [processSvgElements]. *)
Definition processSvgElement (css : CSS) (svg : nat) (dom : Dom) : Dom :=
  let dom :=
    if negb (truthy (elem_attr dom svg "xmlns"))
    then attr_assign svg "xmlns" "http://www.w3.org/2000/svg" dom else dom in
  let dom :=
    if decide (elem_style dom svg "width" = "")
    then style_assign_parsed css svg "width"
           (js_concat (elem_attr dom svg "width") "px") dom
    else dom in
  let dom :=
    if decide (elem_style dom svg "height" = "")
    then style_assign_parsed css svg "height"
           (js_concat (elem_attr dom svg "height") "px") dom
    else dom in
  let dom := style_assign svg "display" "block" dom in
  let dom := style_assign svg "visibility" "visible" dom in
  let polygons := querySelectorAll dom svg polygonSelector in
  forEach polygons processPolygon dom.

Definition processSvgElements (css : CSS) (svgElements : list nat) (dom : Dom)
    : Dom :=
  forEach svgElements (processSvgElement css) dom.

(** *** The readiness barrier ([preloadImages])

    The promise machinery is kept to what [preloadImages] uses: every
    promise is pending, fulfilled with [undefined] or rejected; the
    handlers installed on an image are the [resolve] functions of the
    promises built for it.  The engine later delivers [load] and [error]
    events, which call the handler installed at that time. *)

Inductive PromiseState :=
  | Pending
  | Fulfilled (value : unit)
  | Rejected (reason : string).

Inductive Handler :=
  | Foreign                  (* a handler installed by other code *)
  | Resolve (promise : nat). (* [() => resolve()] of the given promise *)

Record Image := mkImage {
  complete : bool;
  onload : option Handler;
  onerror : option Handler;
}.

Record Loader := mkLoader {
  ld_images : list Image;          (* the image objects, by reference *)
  ld_promises : list PromiseState; (* the promises created so far *)
}.

(** [new Promise<void>((resolve) => ...)] for one image: the executor runs
    at once.  The new promise is the next one of the store.  Reading
    [complete] of something that is not an object throws inside the
    executor, which rejects the promise. *)
Definition newImagePromise (img : nat) (ld : Loader) : Loader :=
  let k := length (ld_promises ld) in
  match ld_images ld !! img with
  | Some i =>
      if complete i then
        mkLoader (ld_images ld) (ld_promises ld ++ [Fulfilled ()])
      else
        mkLoader
          (<[img := mkImage (complete i) (Some (Resolve k)) (Some (Resolve k))]>
             (ld_images ld))
          (ld_promises ld ++ [Pending])
  | None => mkLoader (ld_images ld) (ld_promises ld ++ [Rejected "TypeError"])
  end.

(** [resolve()] settles a pending promise and does nothing otherwise. *)
Definition resolvePromise (k : nat) (ld : Loader) : Loader :=
  match ld_promises ld !! k with
  | Some Pending => mkLoader (ld_images ld) (<[k := Fulfilled ()]> (ld_promises ld))
  | _ => ld
  end.

(** [Promise.all]: rejected as soon as a member is, fulfilled when all
    members are. *)
Fixpoint promiseAll (ps : list PromiseState) : PromiseState :=
  match ps with
  | [] => Fulfilled ()
  | Rejected r :: _ => Rejected r
  | Fulfilled _ :: ps' => promiseAll ps'
  | Pending :: ps' =>
      match promiseAll ps' with
      | Rejected r => Rejected r
      | _ => Pending
      end
  end.

(** The call [preloadImages(images)] on a store without promises: the
    state it leaves behind.  The promise it returns follows [Promise.all]
    of the promises it created ([await] of a fulfilled promise, then the
    implicit [return]). *)
Definition preloadImages (images : list nat) (store : list Image) : Loader :=
  foldl (λ ld img, newImagePromise img ld) (mkLoader store []) images.

Definition returnedPromise (ld : Loader) : PromiseState :=
  match promiseAll (ld_promises ld) with
  | Fulfilled _ => Fulfilled ()
  | st => st
  end.

Inductive ImageEvent :=
  | LoadEvent (img : nat)
  | ErrorEvent (img : nat).

Definition event_target (ev : ImageEvent) : nat :=
  match ev with LoadEvent i => i | ErrorEvent i => i end.

Definition callHandler (h : option Handler) (ld : Loader) : Loader :=
  match h with
  | Some (Resolve k) => resolvePromise k ld
  | _ => ld
  end.

Definition deliver (ld : Loader) (ev : ImageEvent) : Loader :=
  match ev with
  | LoadEvent i => callHandler (ld_images ld !! i ≫= onload) ld
  | ErrorEvent i => callHandler (ld_images ld !! i ≫= onerror) ld
  end.

Definition deliverAll (evs : list ImageEvent) (ld : Loader) : Loader :=
  foldl deliver ld evs.

(** An image has settled once it was complete at the call or one of its
    two events was delivered. *)
Definition settled (store : list Image) (evs : list ImageEvent) (img : nat) : Prop :=
  (∃ i, store !! img = Some i ∧ complete i = true) ∨
  (∃ ev, ev ∈ evs ∧ event_target ev = img).

(** ** Text processor ([optimizedTextProcessor.ts]) *)

Definition real_background (backgroundColor : string) : bool :=
  bool_decide (backgroundColor ≠ "")
  && bool_decide (backgroundColor ≠ "rgba(0, 0, 0, 0)")
  && bool_decide (backgroundColor ≠ "transparent").

Definition processBlockBackground (window : Window) (element : nat)
    (dom : Dom) : Dom :=
  let computedStyle := getComputedStyle window element in
  let backgroundColor := cs_backgroundColor computedStyle in
  if real_background backgroundColor then
    let dom :=
      style_setProperty element "background-color" backgroundColor "important" dom in
    style_setProperty element "padding" "8px" "important" dom
  else dom.

(** One [if (contentElement.style.prop) setProperty(prop, ..., "important")]. *)
Definition reassertProperty (contentElement : nat) (prop : string) (dom : Dom) : Dom :=
  if decide (elem_style dom contentElement prop ≠ "") then
    style_setProperty contentElement prop (elem_style dom contentElement prop)
      "important" dom
  else dom.

Definition applyFontStyles (contentElement : nat) (dom : Dom) : Dom :=
  let dom := reassertProperty contentElement "font-family" dom in
  let dom := reassertProperty contentElement "font-size" dom in
  reassertProperty contentElement "font-weight" dom.

(** The body of the [forEach] over the descendants of the content element. *)
Definition inheritColor (contentElement node : nat) (dom : Dom) : Dom :=
  if elem_isHTML dom node && bool_decide (elem_style dom node "color" = "") then
    style_setProperty node "color" (elem_style dom contentElement "color")
      "important" dom
  else dom.

Definition processContentElement (window : Window) (contentElement parent : nat)
    (dom : Dom) : Dom :=
  let dom :=
    if decide (elem_style dom contentElement "color" ≠ "") then
      let textNodes := querySelectorAll dom contentElement [SelUniversal] in
      forEach textNodes (inheritColor contentElement) dom
    else dom in
  let dom := applyFontStyles contentElement dom in
  let computedStyle := getComputedStyle window parent in
  let backgroundColor := cs_backgroundColor computedStyle in
  if real_background backgroundColor then
    style_setProperty contentElement "background-color" "transparent" "important" dom
  else dom.

Definition contentSelector : Selector := [SelClass "element-content"].

(** The body of the [forEach] of [processTextElements]. *)
Definition processTextElement (window : Window) (element : nat) (dom : Dom) : Dom :=
  if negb (elem_isHTML dom element) then dom
  else
    let dom := processBlockBackground window element dom in
    match querySelector dom element contentSelector with
    | Some contentElement =>
        if elem_isHTML dom contentElement
        then processContentElement window contentElement element dom
        else dom
    | None => dom
    end.

Definition processTextElements (window : Window) (textElements : list nat)
    (dom : Dom) : Dom :=
  forEach textElements (processTextElement window) dom.

(** The body of the [forEach] of [processShapeElements]. *)
Definition processShapeElement (element : nat) (dom : Dom) : Dom :=
  if negb (elem_isHTML dom element) then dom
  else
    match querySelector dom element polygonSelector with
    | Some _ =>
        let dom := style_assign element "background-color" "transparent" dom in
        style_assign element "border" "none" dom
    | None => dom
    end.

Definition processShapeElements (shapeElements : list nat) (dom : Dom) : Dom :=
  forEach shapeElements processShapeElement dom.

(** The selector list of [hideUiControls]. *)
Definition uiControlSelector : Selector :=
  [ SelClass "resize-handle"; SelClass "scroll-control";
    SelClass "v-navigation-drawer"; SelClass "v-overlay"; SelClass "v-menu";
    SelClass "v-btn--icon"; SelType "button"; SelAttr "role" "button";
    SelClass "control-button"; SelClass "handle"; SelClass "v-slider";
    SelClass "v-input__control" ].

Definition hideUiControl (el : nat) (dom : Dom) : Dom :=
  if elem_isHTML dom el then
    let dom := style_assign el "display" "none" dom in
    let dom := style_assign el "visibility" "hidden" dom in
    style_assign el "opacity" "0" dom
  else dom.

Definition hideUiControls (pageElement : nat) (dom : Dom) : Dom :=
  let uiElements := querySelectorAll dom pageElement uiControlSelector in
  forEach uiElements hideUiControl dom.

(** ** Safe HTML renderer (the [safe-html-container] component) *)

(** The outcome of a call: normal completion or a thrown exception. *)
Inductive Completion :=
  | Returns
  | Throws (error : string).

Record SanitizeConfig := mkConfig {
  ALLOWED_TAGS : list string;
  ALLOWED_ATTR : list string;
}.

(** [DOMPurify.sanitize] belongs to a library outside the repository: it
    is an input, and it may complete with a string or throw. *)
Definition Sanitizer := string -> SanitizeConfig -> string + string.

(** The component: its [html] prop and the element its [container] ref
    points to ([None] while unmounted), of which only [innerHTML] matters. *)
Record SafeHtml := mkSafeHtml {
  props_html : string;
  container_innerHTML : option string;
}.

Definition safeHtmlConfig : SanitizeConfig :=
  mkConfig ["p"; "br"; "b"; "i"; "em"; "strong"; "u"; "span"; "div"]
           ["style"; "class"].

(** [renderSafeHtml()]: the state of the component after the call and how
    the call completed.  The function has no [try] block. *)
Definition renderSafeHtml (sanitize : Sanitizer) (c : SafeHtml)
    : SafeHtml * Completion :=
  match container_innerHTML c with
  | None => (c, Returns)
  | Some _ =>
      match sanitize (props_html c) safeHtmlConfig with
      | inl sanitizedHtml => (mkSafeHtml (props_html c) (Some sanitizedHtml), Returns)
      | inr error => (c, Throws error)
      end
  end.

(** ** The hooks of the safe HTML renderer

    The component registers [renderSafeHtml] twice: with [onMounted] and
    with [watch(() => props.html, ...)].  Vue calls the first once the
    element of the template, which has no child, is in the document and
    [container] points to it, and the second after a change of the prop
    to another string.  An exception of a hook leaves the component as
    the hook left it. *)
Definition mounted (sanitize : Sanitizer) (c : SafeHtml) : SafeHtml :=
  (renderSafeHtml sanitize (mkSafeHtml (props_html c) (Some ""))).1.

Definition html_changed (sanitize : Sanitizer) (c : SafeHtml) (html : string)
    : SafeHtml :=
  if decide (html = props_html c) then c
  else (renderSafeHtml sanitize (mkSafeHtml html (container_innerHTML c))).1.

(** The component created with [html], mounted, and given the strings of
    [updates] one after the other. *)
Definition shown (sanitize : Sanitizer) (html : string) (updates : list string)
    : SafeHtml :=
  foldl (html_changed sanitize) (mounted sanitize (mkSafeHtml html None))
        updates.

(** ** The grid layout component

    The component that follows the text processor in
    [optimizedTextProcessor.ts]: the test for HTML content, the renderer
    of sanitized HTML into a container, the items of the grid and the
    dialog that adds and edits them.  The grid itself is an object of the
    [GridStack] library, outside the repository. *)

Module GridLayout.

(** *** Regular expressions, as far as [isHtmlContent] uses them

    A pattern is a sequence of character classes, each taken once or
    repeated with [*].  Strings are sequences of 8-bit units; a character
    outside ASCII is carried by units above 127. *)

Inductive CharClass :=
  | Literal (c : ascii)                 (* [<] *)
  | Range (lo hi : ascii)               (* [[a-z]] *)
  | WhiteSpace                          (* [\s] *)
  | NonWhiteSpace                       (* [\S] *)
  | Union (a b : CharClass).            (* [[\s\S]] *)

Inductive Atom :=
  | One (cls : CharClass)
  | Star (cls : CharClass).

Record RegExp := mkRegExp {
  pattern : list Atom;
  ignoreCase : bool;                    (* the flag [i] *)
}.

(** [Canonicalize] of a pattern without the flag [u]: the upper case of a
    letter of ASCII, and the unit itself otherwise. *)
Definition canonicalize (ignoreCase : bool) (c : ascii) : ascii :=
  let n := Ascii.nat_of_ascii c in
  if ignoreCase && Nat.leb 97 n && Nat.leb n 122
  then ascii_of_nat (n - 32) else c.

(** The white space and the line terminators of ASCII. *)
Definition white_space (c : ascii) : bool :=
  let n := Ascii.nat_of_ascii c in
  (Nat.leb 9 n && Nat.leb n 13) || Nat.eqb n 32.

Fixpoint class_matches (ignoreCase : bool) (cls : CharClass) (c : ascii) : bool :=
  match cls with
  | Literal a =>
      Ascii.eqb (canonicalize ignoreCase a) (canonicalize ignoreCase c)
  | Range lo hi =>
      existsb (λ n, Ascii.eqb (canonicalize ignoreCase (ascii_of_nat n))
                      (canonicalize ignoreCase c))
        (seq (Ascii.nat_of_ascii lo)
             (S (Ascii.nat_of_ascii hi) - Ascii.nat_of_ascii lo))
  | WhiteSpace => white_space c
  | NonWhiteSpace => negb (white_space c)
  | Union a b => class_matches ignoreCase a c || class_matches ignoreCase b c
  end.

(** A match of the pattern at the start of the string. *)
Fixpoint match_here (ignoreCase : bool) (p : list Atom) (s : string) : bool :=
  match p with
  | [] => true
  | One cls :: p' =>
      match s with
      | String c s' => class_matches ignoreCase cls c && match_here ignoreCase p' s'
      | EmptyString => false
      end
  | Star cls :: p' =>
      (fix star (s : string) : bool :=
         match s with
         | String c s' =>
             (class_matches ignoreCase cls c && star s')
             || match_here ignoreCase p' s
         | EmptyString => match_here ignoreCase p' s
         end) s
  end.

(** [regexp.test(s)]: a match at some position of the string. *)
Fixpoint search (ignoreCase : bool) (p : list Atom) (s : string) : bool :=
  match_here ignoreCase p s
  || match s with
     | String _ s' => search ignoreCase p s'
     | EmptyString => false
     end.

Definition test (re : RegExp) (s : string) : bool :=
  search (ignoreCase re) (pattern re) s.

(** [/<[a-z][\s\S]*>/i] *)
Definition htmlTag : RegExp :=
  mkRegExp [ One (Literal "<"%char); One (Range "a"%char "z"%char);
             Star (Union WhiteSpace NonWhiteSpace); One (Literal ">"%char) ]
           true.

Definition isHtmlContent (content : string) : bool := test htmlTag content.

(** A letter of ASCII, of either case. *)
Definition ascii_letter (c : ascii) : bool :=
  let n := Ascii.nat_of_ascii c in
  (Nat.leb 65 n && Nat.leb n 90) || (Nat.leb 97 n && Nat.leb n 122).

(** *** Rendering sanitized HTML into the containers *)

Definition sanitizeConfig : SanitizeConfig :=
  mkConfig [ "p"; "br"; "b"; "i"; "em"; "strong"; "a"; "ul"; "ol"; "li";
             "span"; "div"; "h1"; "h2"; "h3"; "h4"; "h5"; "h6" ]
           [ "href"; "target"; "class"; "style" ].

(** An assignment [container.innerHTML = html], where the container is
    given by its position among the elements of class [html-content] of
    the document. *)
Definition Write : Type := nat * string.

(** [renderSafeHtml(content, element)]: the assignments it makes and how
    it completes; [element] is [None] for a null reference.  The function
    has no [try] block. *)
Definition renderSafeHtml (sanitize : Sanitizer) (content : string)
    (element : option nat) : list Write * Completion :=
  match element with
  | None => ([], Returns)
  | Some el =>
      match sanitize content sanitizeConfig with
      | inl sanitizedHtml => ([(el, sanitizedHtml)], Returns)
      | inr error => ([], Throws error)
      end
  end.

(** A number of JavaScript; the component stores and copies the numbers
    of an item and computes nothing with them. *)
Record GridItem := mkGridItem {
  x : Z;
  y : Z;
  w : Z;
  h : Z;
  title : string;
  content : string;
}.

(** [items.value[index]]: [None] is [undefined], the value of an empty
    slot and of a position outside the array. *)
Definition item_at (items : list (option GridItem)) (index : nat)
    : option GridItem :=
  items !! index ≫= id.

(** The callback of [watch(items, ...)] and of [onMounted], for a
    document with [htmlContainers] elements of class [html-content]:
    [htmlContainers.forEach((container, index) => ...)], which stops at
    the first exception. *)
Definition renderHtmlContents (sanitize : Sanitizer)
    (items : list (option GridItem)) (htmlContainers : nat)
    : list Write * Completion :=
  foldl (λ st index,
           match st with
           | (writes, Returns) =>
               match item_at items index with
               | Some item =>
                   if isHtmlContent (content item)
                   then
                     let '(written, outcome) :=
                       renderSafeHtml sanitize (content item) (Some index) in
                     ((writes ++ written)%list, outcome)
                   else (writes, Returns)
               | None => (writes, Returns)
               end
           | thrown => thrown
           end)
        ([], Returns) (seq 0 htmlContainers).

(** *** The items and the dialog *)

(** [Partial<GridItem>]: an absent property is [None]. *)
Record PartialGridItem := mkPartial {
  px : option Z;
  py : option Z;
  pw : option Z;
  ph : option Z;
  ptitle : option string;
  pcontent : option string;
}.

(** [{ ...item }], where the spread of [undefined] has no property. *)
Definition spread (item : option GridItem) : PartialGridItem :=
  match item with
  | Some i =>
      mkPartial (Some (x i)) (Some (y i)) (Some (w i)) (Some (h i))
                (Some (title i)) (Some (content i))
  | None => mkPartial None None None None None None
  end.

(** [{ title: "", content: "" }] *)
Definition blankItem : PartialGridItem :=
  mkPartial None None None None (Some "") (Some "").

(** [value || fallback] for [string | undefined]. *)
Definition or_else (value : option string) (fallback : string) : string :=
  match value with
  | Some v => if decide (v = "") then fallback else v
  | None => fallback
  end.

(** [array[index] = value]: an assignment past the end extends the array
    with empty slots. *)
Definition array_set {A} (index : nat) (value : A) (l : list (option A))
    : list (option A) :=
  if decide (index < length l) then <[index := Some value]> l
  else (l ++ replicate (index - length l) None ++ [Some value])%list.

(** The part of the interface of a [GridStack] object that the component
    calls; [W] is the type of the elements of its widgets. *)
Class GridStack (G W : Type) := {
  getGridItems : G -> list W;
  addWidget : GridItem -> G -> G;
  update : option W -> GridItem -> G -> G;
  removeWidget : W -> G -> G;
}.

(** [parseInt(string, 10)] of [string | null]; [None] is [NaN].  The
    white space it skips is the one of [\s]; outside ASCII its characters
    take two or three units: U+00A0, U+1680, U+2000 to U+200A, U+2028,
    U+2029, U+202F, U+205F, U+3000 and U+FEFF. *)
Definition wide_white_space (units : list nat) : bool :=
  match units with
  | [194; 160] | [225; 154; 128] | [226; 128; 168] | [226; 128; 169]
  | [226; 128; 175] | [226; 129; 159] | [227; 128; 128] | [239; 187; 191] =>
      true
  | [226; 128; n] => Nat.leb 128 n && Nat.leb n 138
  | _ => false
  end.

Fixpoint skip_white_space (s : string) : string :=
  match s with
  | String c1 s1 =>
      if white_space c1 then skip_white_space s1
      else
        match s1 with
        | String c2 s2 =>
            if wide_white_space [nat_of_ascii c1; nat_of_ascii c2]
            then skip_white_space s2
            else
              match s2 with
              | String c3 s3 =>
                  if wide_white_space
                       [nat_of_ascii c1; nat_of_ascii c2; nat_of_ascii c3]
                  then skip_white_space s3
                  else s
              | EmptyString => s
              end
        | EmptyString => s
        end
  | EmptyString => s
  end.

Definition digit (c : ascii) : option Z :=
  let n := nat_of_ascii c in
  if Nat.leb 48 n && Nat.leb n 57 then Some (Z.of_nat (n - 48)) else None.

(** The value of the longest prefix of digits, after the digits [acc]. *)
Fixpoint digits (acc : option Z) (s : string) : option Z :=
  match s with
  | String c s' =>
      match digit c with
      | Some d => digits (Some (10 * default 0 acc + d)%Z) s'
      | None => acc
      end
  | EmptyString => acc
  end.

Definition parseInt (input : option string) : option Z :=
  let s := skip_white_space (default "null" input) in
  match s with
  | String "-" s' => Z.opp <$> digits None s'
  | String "+" s' => digits None s'
  | _ => digits None s
  end.

(** An element of the list that [GridStack] passes to the handler of its
    [change] event: the [gs-id] attribute of its element and its
    position and size. *)
Record GridStackNode := mkNode {
  gs_id : option string;
  node_x : Z;
  node_y : Z;
  node_w : Z;
  node_h : Z;
}.

Section component.
Context {G W : Type} `{!GridStack G W}.

(** The reactive state of the component and its [grid]. *)
Record State := mkState {
  items : list (option GridItem);
  grid : option G;
  showAddDialog : bool;
  editingIndex : option nat;
  editingItem : PartialGridItem;
}.

Definition updateItemsPositions (gridItems : list GridStackNode) (st : State)
    : State :=
  foldl (λ st gridItem,
           match parseInt (gs_id gridItem) with
           | Some index =>
               match (if decide (0 ≤ index)%Z
                      then item_at (items st) (Z.to_nat index) else None) with
               | Some item =>
                   mkState
                     (array_set (Z.to_nat index)
                        (mkGridItem (node_x gridItem) (node_y gridItem)
                           (node_w gridItem) (node_h gridItem)
                           (title item) (content item))
                        (items st))
                     (grid st) (showAddDialog st) (editingIndex st)
                     (editingItem st)
               | None => st
               end
           | None => st
           end)
        st gridItems.

Definition addItem (st : State) : State :=
  mkState (items st) (grid st) true None blankItem.

Definition editItem (index : nat) (st : State) : State :=
  mkState (items st) (grid st) true (Some index)
          (spread (item_at (items st) index)).

(** The item [saveItem] builds from the dialog. *)
Definition newItem (st : State) : GridItem :=
  mkGridItem 0 0 6 4
    (or_else (ptitle (editingItem st)) "Untitled Block")
    (or_else (pcontent (editingItem st)) "").

Definition saveItem (st : State) : State :=
  match grid st with
  | None => st
  | Some g =>
      match editingIndex st with
      | Some index =>
          (* [{ ...items.value[index], ...newItem }] has the six
             properties of [newItem] *)
          mkState (array_set index (newItem st) (items st))
                  (Some (update (getGridItems g !! index) (newItem st) g))
                  false None blankItem
      | None =>
          mkState (items st ++ [Some (newItem st)])%list
                  (Some (addWidget (newItem st) g))
                  false None blankItem
      end
  end.

Definition removeItem (index : nat) (st : State) : State :=
  match grid st with
  | Some g =>
      match getGridItems g !! index with
      | Some element =>
          mkState (delete index (items st)) (Some (removeWidget element g))
                  (showAddDialog st) (editingIndex st) (editingItem st)
      | None => st
      end
  | None => st
  end.

(** The handlers written in the template: the button [Add Block], the
    button [Cancel] and the two fields of the dialog. *)
Definition clickAddBlock (st : State) : State :=
  mkState (items st) (grid st) true (editingIndex st) (editingItem st).

Definition clickCancel (st : State) : State :=
  mkState (items st) (grid st) false (editingIndex st) (editingItem st).

Definition inputTitle (value : string) (st : State) : State :=
  let e := editingItem st in
  mkState (items st) (grid st) (showAddDialog st) (editingIndex st)
          (mkPartial (px e) (py e) (pw e) (ph e) (Some value) (pcontent e)).

Definition inputContent (value : string) (st : State) : State :=
  let e := editingItem st in
  mkState (items st) (grid st) (showAddDialog st) (editingIndex st)
          (mkPartial (px e) (py e) (pw e) (ph e) (ptitle e) (Some value)).

End component.

Arguments State G : clear implicits.

(** The items for which the template renders an element of class
    [html-content], in the order of these elements. *)
Definition htmlItems (items : list GridItem) : list GridItem :=
  filter (λ item, isHtmlContent (content item) = true) items.

(** What the dialog shows of an item. *)
Definition text_of (item : option GridItem) : option (string * string) :=
  (λ i, (title i, content i)) <$> item.

End GridLayout.

(** ** The normalisers under a live rendering engine

    [window.getComputedStyle] is live: what it reports for an element
    depends on the document at the moment of the call, the inline styles
    the normalisers have written so far included.  An engine maps the
    document to the styles it resolves; the style sheets of the page are
    part of the engine.  The normalisers that read resolved styles are
    given here with the engine in place of the window; each returns the
    document together with the styles it was reported, in the order of
    the calls.  With an engine that reports the same styles for every
    document they are the normalisers above. *)

Definition Engine := Dom -> Window.

(** One call of [getComputedStyle]: the element and the style reported. *)
Definition Read : Type := nat * ComputedStyle.

Module Live.

(** The body of the [forEach] of [processImages]. *)
Definition processImage (engine : Engine) (objectFitDefault : string)
    (img : nat) (dom : Dom) : Dom * list Read :=
  let dom := crossOrigin_assign img "anonymous" dom in
  let container := elem_parent dom img in
  let dom := style_assign img "display" "block" dom in
  let dom := style_assign img "visibility" "visible" dom in
  let computedStyle := getComputedStyle (engine dom) img in
  let objectFit :=
    cs_objectFit computedStyle ||| elem_style dom img "object-fit"
      ||| objectFitDefault in
  let dom := applyObjectFitStyles img objectFit dom in
  let dom :=
    match container with
    | Some c =>
        if elem_isHTML dom c then
          let dom := style_assign c "position" "relative" dom in
          let dom := style_assign c "overflow" "hidden" dom in
          style_assign c "box-sizing" "border-box" dom
        else dom
    | None => dom
    end in
  (dom, [(img, computedStyle)]).

Definition processBlockBackground (engine : Engine) (element : nat)
    (dom : Dom) : Dom * list Read :=
  let computedStyle := getComputedStyle (engine dom) element in
  let backgroundColor := cs_backgroundColor computedStyle in
  let dom :=
    if real_background backgroundColor then
      let dom :=
        style_setProperty element "background-color" backgroundColor
          "important" dom in
      style_setProperty element "padding" "8px" "important" dom
    else dom in
  (dom, [(element, computedStyle)]).

Definition processContentElement (engine : Engine) (contentElement parent : nat)
    (dom : Dom) : Dom * list Read :=
  let dom :=
    if decide (elem_style dom contentElement "color" ≠ "") then
      let textNodes := querySelectorAll dom contentElement [SelUniversal] in
      forEach textNodes (inheritColor contentElement) dom
    else dom in
  let dom := applyFontStyles contentElement dom in
  let computedStyle := getComputedStyle (engine dom) parent in
  let backgroundColor := cs_backgroundColor computedStyle in
  let dom :=
    if real_background backgroundColor then
      style_setProperty contentElement "background-color" "transparent"
        "important" dom
    else dom in
  (dom, [(parent, computedStyle)]).

(** The body of the [forEach] of [processTextElements]. *)
Definition processTextElement (engine : Engine) (element : nat) (dom : Dom)
    : Dom * list Read :=
  if negb (elem_isHTML dom element) then (dom, [])
  else
    let '(dom, reads) := processBlockBackground engine element dom in
    match querySelector dom element contentSelector with
    | Some contentElement =>
        if elem_isHTML dom contentElement then
          let '(dom, reads') :=
            processContentElement engine contentElement element dom in
          (dom, (reads ++ reads')%list)
        else (dom, reads)
    | None => (dom, reads)
    end.

(** [forEach] over a collection, threading the document and collecting
    the styles reported. *)
Definition forEach {A} (l : list A) (body : A -> Dom -> Dom * list Read)
    (dom : Dom) : Dom * list Read :=
  foldl (λ st x, let '(dom, reads) := body x st.1 in (dom, (st.2 ++ reads)%list))
        (dom, []) l.

Definition processImages (engine : Engine) (images : list nat)
    (objectFitDefault : option string) (dom : Dom) : Dom * list Read :=
  forEach images (processImage engine (default "cover" objectFitDefault)) dom.

Definition processTextElements (engine : Engine) (textElements : list nat)
    (dom : Dom) : Dom * list Read :=
  forEach textElements (processTextElement engine) dom.

End Live.

(** ** Vocabulary of the statements *)

(** The style reported by a call is the one [window] holds for the
    element, as to the property the normaliser reads. *)
Definition same_objectFit (window : Window) (r : Read) : Prop :=
  cs_objectFit r.2 = cs_objectFit (getComputedStyle window r.1).

Definition same_backgroundColor (window : Window) (r : Read) : Prop :=
  cs_backgroundColor r.2 = cs_backgroundColor (getComputedStyle window r.1).

Definition decl (value : string) : Declaration := mkDecl value false.
Definition important (value : string) : Declaration := mkDecl value true.

Definition elem_decl (dom : Dom) (n : nat) (prop : string) : option Declaration :=
  dom !! n ≫= λ e, style e !! prop.

Definition elem_crossOrigin (dom : Dom) (n : nat) : option string :=
  dom !! n ≫= crossOrigin.

(** The object-fit mode [processImages] resolves for an element. *)
Definition resolvedObjectFit (window : Window) (objectFitDefault : string)
    (img : nat) (e : Element) : string :=
  cs_objectFit (getComputedStyle window img) ||| getPropertyValue e "object-fit"
    ||| objectFitDefault.

(** The properties written by the fit emulations. *)
Definition fitProperties : list string :=
  [ "object-fit"; "width"; "height"; "max-width"; "max-height"; "position";
    "top"; "left"; "transform" ].

(** The order in which the specification resolves the effective
    object-fit: the inline value if set, else the computed value, else the
    default. *)
Definition specifiedObjectFit (inline computed objectFitDefault : string) : string :=
  if decide (inline ≠ "") then inline
  else if decide (computed ≠ "") then computed
  else objectFitDefault.

(** No image of the collection is the parent of an image of the
    collection: [img] elements are void. *)
Definition images_are_leaves (dom : Dom) (images : list nat) : bool :=
  forallb (λ j, match elem_parent dom j with
                | Some c => bool_decide (c ∉ images)
                | None => true
                end) images.

(** The attributes [processSvgElements] supplies to a polygon. *)
Definition polygonDefaults : list (string * string) :=
  [("fill", "#E2E8F0"); ("stroke", "#CBD5E1"); ("stroke-width", "1")].

(** Before the call no handler of an image resolves a promise of the call. *)
Definition foreign (h : option Handler) : bool :=
  match h with
  | Some (Resolve _) => false
  | _ => true
  end.

Definition fresh_store (store : list Image) : bool :=
  forallb (λ i, foreign (onload i) && foreign (onerror i)) store.

(** The collection holds image objects of the store. *)
Definition image_collection (store : list Image) (images : list nat) : bool :=
  forallb (λ img, bool_decide (img < length store)) images.

(** *** What the normalisers leave of an element *)

(** The place of an element in the tree and its kind. *)
Definition skeleton (e : Element) : bool * string * list string * option nat :=
  (isHTMLElement e, localName e, classList e, parentElement e).

(** Everything of an element but its inline style and its [crossOrigin]
    property. *)
Definition markup (e : Element)
    : bool * string * list string * option nat * gmap string string :=
  (skeleton e, attributes e).

(** An element without its inline style. *)
Definition unstyled (e : Element) : Element := with_style ∅ e.


(** ** Example documents *)

(** A [div] holding one [img]. *)
Definition ex_div : Element := mkElement true "div" [] None ∅ ∅ None.

Definition ex_img (inline : gmap string Declaration) : Element :=
  mkElement true "img" [] (Some 0) ∅ inline None.

Definition ex_page (inline : gmap string Declaration) : Dom :=
  [ex_div; ex_img inline].

(** A rendering engine that resolves the same style for every element. *)
Definition ex_window (objectFit backgroundColor : string) : Window :=
  mkWindow (λ _, mkComputed objectFit backgroundColor).

(** An [svg] root without dimensions holding a polygon whose [fill]
    attribute is present and empty. *)
Definition ex_svg : Element := mkElement false "svg" [] None ∅ ∅ None.

Definition ex_polygon (attrs : gmap string string) : Element :=
  mkElement false "polygon" [] (Some 0) attrs ∅ None.

Definition ex_drawing (attrs : gmap string string) : Dom :=
  [ex_svg; ex_polygon attrs].

(** An [svg] root with the given [width] attribute and no inline
    dimensions. *)
Definition ex_sized_svg (width : string) : Element :=
  mkElement false "svg" [] None {["width" := width]} ∅ None.

(** A host that takes as a value the pixel lengths written with digits and
    nothing else. *)
Fixpoint pixel_length (seen : bool) (value : string) : bool :=
  match value with
  | EmptyString => false
  | String c rest =>
      if seen && String.eqb value "px" then true
      else Nat.leb 48 (Ascii.nat_of_ascii c) && Nat.leb (Ascii.nat_of_ascii c) 57
           && pixel_length true rest
  end.

Definition ex_css : CSS := mkCSS (λ _ value, pixel_length false value).

(** A page holding a [button] and an SVG element of class [handle]. *)
Definition ex_controls : Dom :=
  [ mkElement true "div" ["page"] None ∅ ∅ None;
    mkElement true "button" [] (Some 0) ∅ ∅ None;
    mkElement false "g" ["handle"] (Some 0) ∅ ∅ None ].

(** The scenario of the specification: a text block, its content element
    with an inline colour, and a grandchild without colour. *)
Definition ex_text : Dom :=
  [ mkElement true "div" ["text-element"] None ∅ ∅ None;
    mkElement true "div" ["element-content"] (Some 0) ∅
      {["color" := decl "rgb(10,10,10)"]} None;
    mkElement true "span" [] (Some 1) ∅ ∅ None ].

(** A complete image, one that loads later and one that fails later. *)
Definition ex_store : list Image :=
  [ mkImage true None None; mkImage false (Some Foreign) None;
    mkImage false None None ].

(** An engine without style sheets: the resolved value of a property is
    the inline value, or the initial value of the property. *)
Definition ex_inline_engine : Engine :=
  λ dom, mkWindow (λ n,
    mkComputed (elem_style dom n "object-fit" ||| "fill")
               (elem_style dom n "background-color" ||| "rgba(0, 0, 0, 0)")).

(** An engine for the style sheet
    [img { object-fit: cover }
     img[style*=absolute] { object-fit: contain !important }]. *)
Definition ex_reacting_engine : Engine :=
  λ dom, mkWindow (λ n,
    mkComputed (if decide (elem_style dom n "position" = "absolute")
                then "contain" else "cover")
               "rgba(0, 0, 0, 0)").

(** A sanitizer that fails. *)
Definition ex_failing_sanitizer : Sanitizer := λ _ _, inr "sanitize failed".

(** Two incomplete images with handlers of other code. *)
Definition ex_busy_store : list Image :=
  [ mkImage false (Some Foreign) (Some Foreign); mkImage true (Some Foreign) None ].

(** A grid that keeps its widgets in a list. *)
#[global] Instance ex_grid : GridLayout.GridStack (list GridLayout.GridItem) nat := {
  getGridItems g := seq 0 (length g);
  addWidget item g := (g ++ [item])%list;
  update element item g :=
    match element with Some k => <[k := item]> g | None => g end;
  removeWidget k g := delete k g;
}.

(** A sanitizer that finds nothing to remove. *)
Definition ex_passing_sanitizer : Sanitizer := λ html _, inl html.

Definition ex_items : list GridLayout.GridItem :=
  [ GridLayout.mkGridItem 0 0 6 4 "Notes" "plain text";
    GridLayout.mkGridItem 6 0 6 4 "Intro" "<p>Hello</p>";
    GridLayout.mkGridItem 0 4 6 4 "Terms" "<b>Terms</b>" ].

Definition ex_state : GridLayout.State (list GridLayout.GridItem) :=
  GridLayout.mkState (Some <$> ex_items) (Some ex_items) false None
    GridLayout.blankItem.

(** ** Views used by the proofs *)

(** *** Patches and frames *)

(** Several writes to the inline style of one element amount to one
    patch: the declarations of the patch override those of the element. *)
Definition patchStyle (p : gmap string Declaration) (e : Element) : Element :=
  with_style (p ∪ style e) e.

(** What selectors and tree walks can see of an element; no normaliser
    changes it.  The only attribute a selector of this code reads is
    [role]. *)
Definition frame (e : Element) : bool * string * list string * option nat * option string :=
  (isHTMLElement e, localName e, classList e, parentElement e,
   attributes e !! "role").

Definition frames (dom : Dom) : list _ := frame <$> dom.

Definition keeps_frame (f : Element -> Element) : Prop :=
  ∀ e, frame (f e) = frame e.

(** An update that leaves the declaration of a property alone. *)
Definition keeps_decl (prop : string) (f : Element → Element) : Prop :=
  ∀ e, style (f e) !! prop = style e !! prop.

Definition static_simple (s : SimpleSelector) : bool :=
  match s with
  | SelAttr a _ => bool_decide (a = "role")
  | _ => true
  end.

Definition static_selector (sel : Selector) : bool := forallb static_simple sel.

(** Two updates of an element that can be done in either order. *)
Definition commuting (f g : Element → Element) : Prop :=
  ∀ e, f (g e) = g (f e).

Definition no_nested_images (dom : Dom) (images : list nat) : Prop :=
  ∀ i j, i ∈ images → j ∈ images → elem_parent dom j ≠ Some i.

(** *** Plans

    A run of a normaliser amounts to a list of updates, each of one
    element. *)
Abbreviation Plan := (list (nat * (Element → Element))).

Definition applyPlan (plan : Plan) (dom : Dom) : Dom :=
  foldl (λ d nf, alter nf.2 nf.1 d) dom plan.

(** What a plan does to the element [q]. *)
Definition planAt (plan : Plan) (q : nat) (e : Element) : Element :=
  foldl (λ e nf, if decide (nf.1 = q) then nf.2 e else e) e plan.

Definition uniformPlan (f : Element → Element) (l : list nat) : Plan :=
  (λ n, (n, f)) <$> l.

(** An update that, on the elements of [D], is a patch after at most one
    use of [t], and that stays in [D]. *)
Definition patching (t : Element → Element) (ok : gmap string Declaration → Prop)
    (D : Element → Prop) (f : Element → Element) : Prop :=
  ∃ p (b : bool), ok p ∧
    ∀ x, D x → f x = patchStyle p (if b then t x else x) ∧ D (f x).

(** *** The normalisers on one element *)

(** The inline declarations the five emulations write. *)
Definition fitPatch (objectFit : string) : gmap string Declaration :=
  if decide (objectFit = "contain") then
    list_to_map
      [ ("transform", decl "translateX(-50%)"); ("left", decl "50%");
        ("top", decl "0"); ("position", decl "absolute");
        ("max-width", decl "none"); ("width", decl "auto");
        ("height", decl "100%"); ("object-fit", decl "contain") ]
  else if decide (objectFit = "cover") then
    list_to_map
      [ ("left", decl "0"); ("top", decl "0"); ("position", decl "absolute");
        ("height", decl "100%"); ("width", decl "100%");
        ("object-fit", decl "cover") ]
  else if decide (objectFit = "fill") then
    list_to_map
      [ ("object-fit", decl "fill"); ("height", decl "100%");
        ("width", decl "100%") ]
  else if decide (objectFit = "none") then
    list_to_map
      [ ("transform", decl "translate(-50%, -50%)"); ("left", decl "50%");
        ("top", decl "50%"); ("position", decl "absolute");
        ("width", decl "auto"); ("max-height", decl "100%") ]
  else if decide (objectFit = "scale-down") then
    list_to_map
      [ ("transform", decl "translate(-50%, -50%)"); ("left", decl "50%");
        ("top", decl "50%"); ("position", decl "absolute");
        ("max-width", decl "none"); ("width", decl "auto");
        ("max-height", decl "100%") ]
  else ∅.

(** What [processImage] does to the image itself and to its container. *)
Definition imageElement (window : Window) (objectFitDefault : string)
    (img : nat) (e : Element) : Element :=
  patchStyle
    (fitPatch (resolvedObjectFit window objectFitDefault img e)
       ∪ list_to_map [("visibility", decl "visible"); ("display", decl "block")])
    (with_crossOrigin (Some "anonymous") e).

Definition containerPatch : gmap string Declaration :=
  list_to_map [ ("box-sizing", decl "border-box"); ("overflow", decl "hidden");
                ("position", decl "relative") ].

(** What [processImage] does, read on the document it starts from. *)
Definition imagePlan (window : Window) (objectFitDefault : string) (dom : Dom)
    (img : nat) : Plan :=
  (img, imageElement window objectFitDefault img)
  :: match elem_parent dom img with
     | Some c => if elem_isHTML dom c then [(c, patchStyle containerPatch)] else []
     | None => []
     end.

(** The value [processSvgElements] leaves in an attribute it defaults. *)
Definition defaulted (value : string) (o : option string) : option string :=
  if truthy o then o else Some value.

(** [processSvgElements] on the root and on a polygon. *)
Definition defaultAttribute (name value : string) (e : Element) : Element :=
  if negb (truthy (getAttribute e name)) then setAttribute name value e else e.

Definition polygonElement (e : Element) : Element :=
  defaultAttribute "stroke-width" "1"
    (defaultAttribute "stroke" "#CBD5E1" (defaultAttribute "fill" "#E2E8F0" e)).

Definition inlineDimension (css : CSS) (prop : string) (e : Element) : Element :=
  if decide (getPropertyValue e prop = "")
  then setStyleParsed css prop (js_concat (getAttribute e prop) "px") e else e.

Definition svgElement (css : CSS) (e : Element) : Element :=
  patchStyle (list_to_map [("visibility", decl "visible"); ("display", decl "block")])
    (inlineDimension css "height"
       (inlineDimension css "width"
          (defaultAttribute "xmlns" "http://www.w3.org/2000/svg" e))).

Definition svgPlan (css : CSS) (dom : Dom) (svg : nat) : Plan :=
  (svg, svgElement css)
  :: uniformPlan polygonElement (querySelectorAll dom svg polygonSelector).

(** [hideUiControls] on one element. *)
Definition hidePatch : gmap string Declaration :=
  list_to_map [ ("opacity", decl "0"); ("visibility", decl "hidden");
                ("display", decl "none") ].

Definition hideElement (e : Element) : Element :=
  if isHTMLElement e then patchStyle hidePatch e else e.

(** [processShapeElements] on a shape container. *)
Definition shapePatch : gmap string Declaration :=
  list_to_map [("border", decl "none"); ("background-color", decl "transparent")].

Definition shapePlan (dom : Dom) (element : nat) : Plan :=
  if elem_isHTML dom element then
    match querySelector dom element polygonSelector with
    | Some _ => [(element, patchStyle shapePatch)]
    | None => []
    end
  else [].

(** [processTextElements] on the block, on a descendant of the content
    element and on the content element. *)
Definition blockPatch (backgroundColor : string) : gmap string Declaration :=
  list_to_map [ ("padding", important "8px");
                ("background-color", important backgroundColor) ].

Definition blockElement (window : Window) (element : nat) (e : Element) : Element :=
  let backgroundColor := cs_backgroundColor (getComputedStyle window element) in
  if real_background backgroundColor then patchStyle (blockPatch backgroundColor) e
  else e.

Definition inheritElement (color : string) (e : Element) : Element :=
  if isHTMLElement e && bool_decide (getPropertyValue e "color" = "")
  then setProperty "color" color "important" e else e.

Definition reassertElement (prop : string) (e : Element) : Element :=
  if decide (getPropertyValue e prop ≠ "")
  then setProperty prop (getPropertyValue e prop) "important" e else e.

Definition fontElement (e : Element) : Element :=
  reassertElement "font-weight"
    (reassertElement "font-size" (reassertElement "font-family" e)).

Definition transparentElement (window : Window) (parent : nat) (e : Element) : Element :=
  if real_background (cs_backgroundColor (getComputedStyle window parent))
  then patchStyle {["background-color" := important "transparent"]} e else e.

(** What [processContentElement] does, given the inline colour [color]
    of the content element. *)
Definition contentPlan (window : Window) (dom : Dom) (contentElement parent : nat)
    (color : string) : Plan :=
  (if decide (color ≠ "")
   then uniformPlan (inheritElement color)
          (querySelectorAll dom contentElement [SelUniversal])
   else [])
  ++ [(contentElement, fontElement);
      (contentElement, transparentElement window parent)].

(** What [processTextElement] does, read on the document it starts from. *)
Definition textPlan (window : Window) (dom : Dom) (element : nat) : Plan :=
  if elem_isHTML dom element then
    (element, blockElement window element)
    :: match querySelector dom element contentSelector with
       | Some contentElement =>
           if elem_isHTML dom contentElement
           then contentPlan window dom contentElement element
                  (elem_style dom contentElement "color")
           else []
       | None => []
       end
  else [].

(** *** Conditional writes *)

(** The conditional writes of the normalisers have one of two shapes: the
    declaration of one property is recomputed from itself, from the
    attributes and from the kind of the element; or one attribute is
    recomputed from itself. *)
Definition styleUpdate (prop : string)
    (u : bool → gmap string string → option Declaration → option Declaration)
    (e : Element) : Element :=
  with_style (partial_alter (u (isHTMLElement e) (attributes e)) prop (style e)) e.

Definition attrUpdate (name : string) (u : option string → option string)
    (e : Element) : Element :=
  with_attributes (partial_alter u name (attributes e)) e.

Definition value_of (d : option Declaration) : string :=
  match d with
  | Some d => decl_value d
  | None => ""
  end.

(** The declaration [setProperty] leaves for a value and a flag. *)
Definition declared (value : string) (flag : bool) : option Declaration :=
  if decide (value = "") then None else Some (mkDecl value flag).

Definition dimensionUpdate (css : CSS) (prop : string) (_ : bool)
    (attrs : gmap string string) (d : option Declaration) : option Declaration :=
  if decide (value_of d = "") then
    if supports css prop (js_concat (attrs !! prop) "px")
    then declared (js_concat (attrs !! prop) "px") false else d
  else d.

Definition reassertUpdate (_ : bool) (_ : gmap string string)
    (d : option Declaration) : option Declaration :=
  if decide (value_of d ≠ "") then declared (value_of d) true else d.

Definition inheritUpdate (color : string) (isHTML : bool) (_ : gmap string string)
    (d : option Declaration) : option Declaration :=
  if isHTML && bool_decide (value_of d = "") then declared color true else d.

(** *** The steps of [processTextElements] *)

(** The run of [processTextElements] as steps: an update of one element,
    or the propagation of the colour of a content element, which reads
    the colour when it starts. *)
Inductive TextStep :=
  | StepUpdate (n : nat) (f : Element → Element)
  | StepColor (contentElement : nat) (nodes : list nat).

Definition runStep (s : TextStep) (dom : Dom) : Dom :=
  match s with
  | StepUpdate n f => alter f n dom
  | StepColor c nodes =>
      if decide (elem_style dom c "color" ≠ "")
      then applyPlan (uniformPlan (inheritElement (elem_style dom c "color")) nodes) dom
      else dom
  end.

Definition runSteps (steps : list TextStep) (dom : Dom) : Dom :=
  foldl (λ d s, runStep s d) dom steps.

Definition textSteps (window : Window) (dom : Dom) (element : nat) : list TextStep :=
  if elem_isHTML dom element then
    StepUpdate element (blockElement window element)
    :: match querySelector dom element contentSelector with
       | Some c =>
           if elem_isHTML dom c
           then [ StepColor c (querySelectorAll dom c [SelUniversal]);
                  StepUpdate c fontElement;
                  StepUpdate c (transparentElement window element) ]
           else []
       | None => []
       end
  else [].

Definition is_color (s : TextStep) : bool :=
  match s with StepColor _ _ => true | StepUpdate _ _ => false end.

Definition colorSteps (steps : list TextStep) : list TextStep :=
  filter (λ s, is_color s = true) steps.

Definition restSteps (steps : list TextStep) : list TextStep :=
  filter (λ s, is_color s = false) steps.

(** An update that does not see the colour and does not touch it. *)
Definition colorless (f : Element → Element) : Prop :=
  keeps_frame f ∧ keeps_decl "color" f ∧ ∀ color, commuting f (inheritElement color).

(** A patch without font declarations. *)
Definition fontless (p : gmap string Declaration) : Prop :=
  p !! "font-family" = None ∧ p !! "font-size" = None ∧ p !! "font-weight" = None.

(** The steps of a run on the document [dom]. *)
Definition text_step (window : Window) (dom : Dom) (s : TextStep) : Prop :=
  match s with
  | StepUpdate _ f =>
      (∃ el, f = blockElement window el) ∨ f = fontElement
      ∨ (∃ el, f = transparentElement window el)
  | StepColor c nodes => nodes = querySelectorAll dom c [SelUniversal]
  end.

Definition stepPlan (steps : list TextStep) : Plan :=
  steps ≫= λ s, match s with StepUpdate n f => [(n, f)] | StepColor _ _ => [] end.

(** The content elements of the propagations of a run. *)
Definition stepContents (steps : list TextStep) : list nat :=
  steps ≫= λ s, match s with StepUpdate _ _ => [] | StepColor c _ => [c] end.

(** An element with an inline colour; a content element whose colour, if
    it has one, has reached all its descendants. *)
Definition colored (dom : Dom) (n : nat) : Prop := elem_style dom n "color" ≠ "".

Definition closed (dom0 dom : Dom) (c : nat) : Prop :=
  colored dom c →
  ∀ n, n ∈ descendants dom0 c → elem_isHTML dom0 n = true → colored dom n.

(** *** The updates of [processTextElements], element by element *)

(** What a step does to the element [q] of the document [dom]. *)
Definition stepAt (s : TextStep) (dom : Dom) (q : nat) : Element → Element :=
  match s with
  | StepUpdate n f => if decide (n = q) then f else id
  | StepColor c nodes =>
      if decide (colored dom c ∧ q ∈ nodes)
      then inheritElement (elem_style dom c "color") else id
  end.

(** The text elements of a collection that [processTextElements] does not
    skip, and the content element of one. *)
Definition textBlock (dom : Dom) (textElements : list nat) (el : nat) : Prop :=
  el ∈ textElements ∧ elem_isHTML dom el = true.

Definition textContent (dom : Dom) (textElements : list nat) (el c : nat) : Prop :=
  textBlock dom textElements el
  ∧ querySelector dom el contentSelector = Some c ∧ elem_isHTML dom c = true.

(** The updates a run on the document [dom] can make to the element [q]. *)
Inductive textUpdate (window : Window) (dom : Dom) (textElements : list nat)
    (q : nat) : (Element → Element) → Prop :=
  | update_block :
      textBlock dom textElements q →
      textUpdate window dom textElements q (blockElement window q)
  | update_font el :
      textContent dom textElements el q →
      textUpdate window dom textElements q fontElement
  | update_transparent el :
      textContent dom textElements el q →
      textUpdate window dom textElements q (transparentElement window el)
  | update_inherit el c color :
      textContent dom textElements el c →
      q ∈ querySelectorAll dom c [SelUniversal] → color ≠ "" →
      textUpdate window dom textElements q (inheritElement color)
  | update_none : textUpdate window dom textElements q id.

(** *** The states of the readiness barrier *)

(** The state right after the call. *)
Record created (images : list nat) (store : list Image) (ld : Loader) : Prop := {
  created_length : length (ld_promises ld) = length images;
  created_store : length (ld_images ld) = length store;
  created_images :
    ∀ i im im0, ld_images ld !! i = Some im → store !! i = Some im0 →
      complete im = complete im0;
  created_handlers :
    ∀ i im k, ld_images ld !! i = Some im →
      onload im = Some (Resolve k) ∨ onerror im = Some (Resolve k) →
      images !! k = Some i;
  created_promises :
    ∀ k p, ld_promises ld !! k = Some p →
      p = Pending ∨
      (p = Fulfilled () ∧
       ∃ img im0, images !! k = Some img ∧ store !! img = Some im0
                  ∧ complete im0 = true);
}.

(** The state after some events were delivered. *)
Record running (images : list nat) (store : list Image)
    (evs : list ImageEvent) (ld : Loader) : Prop := {
  running_length : length (ld_promises ld) = length images;
  running_handlers :
    ∀ i im k, ld_images ld !! i = Some im →
      onload im = Some (Resolve k) ∨ onerror im = Some (Resolve k) →
      images !! k = Some i;
  running_promises :
    ∀ k p, ld_promises ld !! k = Some p →
      p = Pending ∨
      (p = Fulfilled () ∧ ∃ img, images !! k = Some img ∧ settled store evs img);
}.

(** *** Progress of the readiness barrier *)

(** The promise at position [k] is pending and both handlers of the image
    [img] resolve it. *)
Definition waiting (ld : Loader) (k img : nat) : Prop :=
  ld_promises ld !! k = Some Pending
  ∧ ∃ im, ld_images ld !! img = Some im
          ∧ onload im = Some (Resolve k) ∧ onerror im = Some (Resolve k).

(** Every promise of the call is fulfilled, or waits for an image that has
    not settled. *)
Definition live (images : list nat) (store : list Image)
    (evs : list ImageEvent) (ld : Loader) : Prop :=
  length (ld_promises ld) = length images
  ∧ ∀ k img, images !! k = Some img →
      ld_promises ld !! k = Some (Fulfilled ())
      ∨ (waiting ld k img ∧ ¬ settled store evs img).

(** No handler resolves the promise at position [k], which is pending. *)
Definition stuck (k : nat) (ld : Loader) : Prop :=
  ld_promises ld !! k = Some Pending
  ∧ ∀ i im, ld_images ld !! i = Some im →
      onload im ≠ Some (Resolve k) ∧ onerror im ≠ Some (Resolve k).

(** * Properties *)

(** ** Elements *)

Lemma patchStyle_patchStyle p q e :
  patchStyle p (patchStyle q e) = patchStyle (p ∪ q) e.
Proof.
  unfold patchStyle, with_style; simpl. by rewrite (assoc_L (∪)).
Qed.

Lemma patchStyle_idemp p e : patchStyle p (patchStyle p e) = patchStyle p e.
Proof. by rewrite patchStyle_patchStyle, (idemp_L (∪)). Qed.

Lemma patchStyle_empty e : patchStyle ∅ e = e.
Proof.
  unfold patchStyle, with_style. rewrite (left_id_L ∅ (∪)). by destruct e.
Qed.

Lemma setProperty_plain prop value e :
  value ≠ "" → setProperty prop value "" e = patchStyle {[prop := decl value]} e.
Proof.
  intros Hv. unfold setProperty, patchStyle.
  rewrite decide_False by done. rewrite decide_True by done.
  by rewrite insert_union_singleton_l.
Qed.

Lemma setStyle_patch prop value e :
  value ≠ "" → setStyle prop value e = patchStyle {[prop := decl value]} e.
Proof. apply setProperty_plain. Qed.

Lemma setProperty_important prop value e :
  value ≠ "" →
  setProperty prop value "important" e = patchStyle {[prop := important value]} e.
Proof.
  intros Hv. unfold setProperty, patchStyle.
  rewrite decide_False by done. rewrite decide_False by done.
  rewrite decide_True by done. by rewrite insert_union_singleton_l.
Qed.

Lemma getPropertyValue_patchStyle p e prop :
  getPropertyValue (patchStyle p e) prop =
    match p !! prop with
    | Some d => decl_value d
    | None => getPropertyValue e prop
    end.
Proof.
  unfold getPropertyValue, patchStyle; simpl. rewrite lookup_union.
  destruct (p !! prop), (style e !! prop); done.
Qed.

Lemma keeps_frame_patchStyle p : keeps_frame (patchStyle p).
Proof. by intros e. Qed.

Lemma keeps_frame_setProperty prop value priority :
  keeps_frame (setProperty prop value priority).
Proof. intros e. unfold setProperty. by repeat case_decide. Qed.

Lemma keeps_frame_setStyle prop value : keeps_frame (setStyle prop value).
Proof. apply keeps_frame_setProperty. Qed.

Lemma keeps_frame_crossOrigin c : keeps_frame (with_crossOrigin c).
Proof. by intros e. Qed.

Lemma keeps_frame_setAttribute name value :
  name ≠ "role" → keeps_frame (setAttribute name value).
Proof.
  intros Hn e. unfold frame, setAttribute; simpl. by rewrite lookup_insert_ne.
Qed.

Lemma matches_frame sel e e' :
  static_selector sel = true → frame e = frame e' → matches sel e = matches sel e'.
Proof.
  unfold frame. intros Hsel [= Hh Hn Hc Hp Hr]. unfold matches.
  induction sel as [|s sel IH]; [done|]. simpl in *.
  apply andb_prop in Hsel as [Hs Hsel]. rewrite (IH Hsel). f_equal.
  destruct s as [| | |a v]; simpl; [done|by rewrite Hn|by rewrite Hc|].
  apply bool_decide_eq_true in Hs as ->. by rewrite Hr.
Qed.

(** ** The store *)

Lemma alter_None (f : Element → Element) n (dom : Dom) :
  dom !! n = None → alter f n dom = dom.
Proof.
  intros Hn. apply list_eq. intros i. rewrite list_lookup_alter.
  case_decide; [subst; by rewrite Hn|done].
Qed.

Lemma alter_Some (f : Element → Element) n (dom : Dom) e :
  dom !! n = Some e → alter f n dom !! n = Some (f e).
Proof. intros Hn. by rewrite list_lookup_alter_eq, Hn. Qed.

Lemma alter_same (f g : Element → Element) n (dom : Dom) :
  (∀ e, dom !! n = Some e → f e = g e) → alter f n dom = alter g n dom.
Proof. intros H. by apply list_alter_ext. Qed.

Lemma frames_alter f n (dom : Dom) :
  keeps_frame f → frames (alter f n dom) = frames dom.
Proof.
  intros Hf. apply list_eq. intros i. unfold frames.
  rewrite !list_lookup_fmap, list_lookup_alter.
  case_decide; [subst|done]. destruct (dom !! i); simpl; [|done].
  by rewrite Hf.
Qed.

Lemma frames_lookup (d d' : Dom) n :
  frames d = frames d' → frame <$> d !! n = frame <$> d' !! n.
Proof. intros H. unfold frames in H. by rewrite <- !list_lookup_fmap, H. Qed.

Lemma frames_length (d d' : Dom) : frames d = frames d' → length d = length d'.
Proof.
  intros H. unfold frames in H.
  by rewrite <- (length_fmap frame d), H, length_fmap.
Qed.

Lemma frames_parent (d d' : Dom) n :
  frames d = frames d' → elem_parent d n = elem_parent d' n.
Proof.
  intros H. apply (frames_lookup _ _ n) in H. unfold elem_parent.
  destruct (d !! n), (d' !! n); simplify_eq/=; [|done].
  unfold frame in H. by simplify_eq.
Qed.

Lemma frames_isHTML (d d' : Dom) n :
  frames d = frames d' → elem_isHTML d n = elem_isHTML d' n.
Proof.
  intros H. apply (frames_lookup _ _ n) in H. unfold elem_isHTML.
  destruct (d !! n), (d' !! n); simplify_eq/=; [|done].
  unfold frame in H. by simplify_eq.
Qed.

Lemma frames_ancestors (d d' : Dom) fuel n :
  frames d = frames d' → ancestors fuel d n = ancestors fuel d' n.
Proof.
  intros H. revert n. induction fuel as [|k IH]; intros n; [done|]. simpl.
  rewrite (frames_parent d d' n H). destruct (elem_parent d' n); [|done].
  by rewrite IH.
Qed.

Lemma frames_descendants (d d' : Dom) root :
  frames d = frames d' → descendants d root = descendants d' root.
Proof.
  intros H. unfold descendants, is_descendant.
  rewrite (frames_length d d' H).
  apply list_filter_iff. intros n.
  by rewrite (frames_ancestors d d' _ n H).
Qed.

Lemma frames_matches (d d' : Dom) sel n :
  static_selector sel = true → frames d = frames d' →
  elem_matches d sel n = elem_matches d' sel n.
Proof.
  intros Hsel H. apply (frames_lookup _ _ n) in H. unfold elem_matches.
  destruct (d !! n) as [e|], (d' !! n) as [e'|]; simpl in H; [|done..].
  apply (inj Some) in H. by apply matches_frame.
Qed.

Lemma frames_querySelectorAll (d d' : Dom) root sel :
  static_selector sel = true → frames d = frames d' →
  querySelectorAll d root sel = querySelectorAll d' root sel.
Proof.
  intros Hsel H. unfold querySelectorAll.
  rewrite (frames_descendants d d' root H).
  apply list_filter_iff. intros n. by rewrite (frames_matches d d' sel n Hsel H).
Qed.

Lemma frames_querySelector (d d' : Dom) root sel :
  static_selector sel = true → frames d = frames d' →
  querySelector d root sel = querySelector d' root sel.
Proof.
  intros Hsel H. unfold querySelector. by rewrite (frames_querySelectorAll d d').
Qed.

Lemma alter_patch_patch p q n (dom : Dom) :
  alter (patchStyle p) n (alter (patchStyle q) n dom)
  = alter (patchStyle (p ∪ q)) n dom.
Proof.
  rewrite list_alter_alter_eq. apply alter_same. intros e _. simpl.
  apply patchStyle_patchStyle.
Qed.

Lemma style_assign_patch n prop value (dom : Dom) :
  value ≠ "" →
  style_assign n prop value dom = alter (patchStyle {[prop := decl value]}) n dom.
Proof.
  intros Hv. unfold style_assign. apply alter_same. intros e _.
  by apply setStyle_patch.
Qed.

Lemma style_setProperty_patch n prop value (dom : Dom) :
  value ≠ "" →
  style_setProperty n prop value "important" dom
  = alter (patchStyle {[prop := important value]}) n dom.
Proof.
  intros Hv. unfold style_setProperty. apply alter_same. intros e _.
  by apply setProperty_important.
Qed.

Lemma elem_style_alter_eq f n (dom : Dom) e prop :
  dom !! n = Some e → elem_style (alter f n dom) n prop = getPropertyValue (f e) prop.
Proof. intros He. unfold elem_style. by rewrite (alter_Some f n dom e He). Qed.

Lemma elem_style_alter_ne f n m (dom : Dom) prop :
  n ≠ m → elem_style (alter f n dom) m prop = elem_style dom m prop.
Proof. intros Hne. unfold elem_style. by rewrite list_lookup_alter_ne. Qed.

Lemma elem_parent_alter f n m (dom : Dom) :
  keeps_frame f → elem_parent (alter f n dom) m = elem_parent dom m.
Proof. intros Hf. apply frames_parent. by apply frames_alter. Qed.

Lemma elem_isHTML_alter f n m (dom : Dom) :
  keeps_frame f → elem_isHTML (alter f n dom) m = elem_isHTML dom m.
Proof. intros Hf. apply frames_isHTML. by apply frames_alter. Qed.

(** ** [processImages] *)

Ltac closed_map := reflexivity.

Lemma applyObjectFitStyles_patch img objectFit (dom : Dom) :
  applyObjectFitStyles img objectFit dom
  = alter (patchStyle (fitPatch objectFit)) img dom.
Proof.
  unfold applyObjectFitStyles, fitPatch.
  repeat case_decide;
    try (rewrite !style_assign_patch by done; rewrite !alter_patch_patch;
         f_equal; f_equal; closed_map).
  symmetry. apply list_alter_id, patchStyle_empty.
Qed.

Lemma fitPatch_objectFit objectFit :
  fitPatch objectFit !! "object-fit" = None
  ∨ fitPatch objectFit !! "object-fit" = Some (decl objectFit).
Proof.
  unfold fitPatch. repeat case_decide; subst; (by left) || (by right).
Qed.

(** The mode resolved for an element is not changed by processing it. *)
Lemma resolvedObjectFit_imageElement window d img e :
  resolvedObjectFit window d img (imageElement window d img e)
  = resolvedObjectFit window d img e.
Proof.
  unfold imageElement.
  set (m := resolvedObjectFit window d img e).
  unfold resolvedObjectFit at 1. rewrite getPropertyValue_patchStyle.
  rewrite lookup_union.
  destruct (fitPatch_objectFit m) as [-> | ->]; simpl.
  - done.
  - unfold m, resolvedObjectFit, js_or. by repeat case_decide.
Qed.

Lemma resolvedObjectFit_container window d img e :
  resolvedObjectFit window d img (patchStyle containerPatch e)
  = resolvedObjectFit window d img e.
Proof. unfold resolvedObjectFit. by rewrite getPropertyValue_patchStyle. Qed.

Lemma imageElement_idemp window d img e :
  imageElement window d img (imageElement window d img e)
  = imageElement window d img e.
Proof.
  unfold imageElement at 1. rewrite resolvedObjectFit_imageElement.
  unfold imageElement.
  change (with_crossOrigin ?c (patchStyle ?p (with_crossOrigin ?c' ?x)))
    with (patchStyle p (with_crossOrigin c x)).
  apply patchStyle_idemp.
Qed.

Lemma keeps_frame_imageElement window d img :
  keeps_frame (imageElement window d img).
Proof. by intros e. Qed.

Lemma processImage_self window d img (dom : Dom) :
  let dom2 :=
    style_assign img "visibility" "visible"
      (style_assign img "display" "block"
         (crossOrigin_assign img "anonymous" dom)) in
  applyObjectFitStyles img
    (cs_objectFit (getComputedStyle window img)
       ||| elem_style dom2 img "object-fit" ||| d) dom2
  = alter (imageElement window d img) img dom.
Proof.
  cbv zeta. unfold crossOrigin_assign.
  rewrite !style_assign_patch by done. rewrite applyObjectFitStyles_patch.
  rewrite !alter_patch_patch, !list_alter_alter_eq.
  destruct (dom !! img) as [e|] eqn:He.
  - rewrite (elem_style_alter_eq _ _ _ e) by done. simpl.
    rewrite getPropertyValue_patchStyle.
    apply alter_same. intros e' He'. simplify_eq. simpl.
    unfold imageElement, resolvedObjectFit. rewrite <- (assoc_L (∪)).
    f_equal.
  - by rewrite !(alter_None _ img dom He).
Qed.

Lemma containerPatch_unions :
  {["box-sizing" := decl "border-box"]} ∪ {["overflow" := decl "hidden"]}
    ∪ {["position" := decl "relative"]} = containerPatch.
Proof. closed_map. Qed.

Lemma processImage_local window d img (dom : Dom) :
  processImage window d img dom =
    let dom1 := alter (imageElement window d img) img dom in
    match elem_parent dom img with
    | Some c =>
        if elem_isHTML dom c then alter (patchStyle containerPatch) c dom1
        else dom1
    | None => dom1
    end.
Proof.
  unfold processImage. cbv zeta. rewrite processImage_self.
  unfold crossOrigin_assign.
  rewrite elem_parent_alter by apply keeps_frame_crossOrigin.
  destruct (elem_parent dom img) as [c|]; [|done].
  rewrite elem_isHTML_alter by apply keeps_frame_imageElement.
  destruct (elem_isHTML dom c); [|done].
  rewrite !style_assign_patch by done. rewrite !alter_patch_patch.
  by rewrite containerPatch_unions.
Qed.

Lemma processImage_frames window d img (dom : Dom) :
  frames (processImage window d img dom) = frames dom.
Proof.
  rewrite processImage_local. cbv zeta.
  destruct (elem_parent dom img) as [c|]; [destruct (elem_isHTML dom c)|];
    rewrite ?(frames_alter (patchStyle containerPatch))
      by apply keeps_frame_patchStyle;
    by apply frames_alter, keeps_frame_imageElement.
Qed.

Lemma forEach_cons {A} (x : A) l body (dom : Dom) :
  forEach (x :: l) body dom = forEach l body (body x dom).
Proof. done. Qed.

Lemma processImage_lookup_other window d img q (dom : Dom) :
  q ≠ img → elem_parent dom img ≠ Some q →
  processImage window d img dom !! q = dom !! q.
Proof.
  intros Hq Hp. rewrite processImage_local. cbv zeta.
  destruct (elem_parent dom img) as [c|]; [destruct (elem_isHTML dom c)|];
    rewrite ?(list_lookup_alter_ne (patchStyle containerPatch)) by congruence;
    by rewrite list_lookup_alter_ne.
Qed.

Lemma processImage_lookup_self window d img e (dom : Dom) :
  dom !! img = Some e → elem_parent dom img ≠ Some img →
  processImage window d img dom !! img = Some (imageElement window d img e).
Proof.
  intros He Hp. rewrite processImage_local. cbv zeta.
  destruct (elem_parent dom img) as [c|]; [destruct (elem_isHTML dom c)|];
    rewrite ?(list_lookup_alter_ne (patchStyle containerPatch)) by congruence;
    by apply alter_Some.
Qed.

Lemma processImage_lookup_container window d img c e (dom : Dom) :
  c ≠ img → elem_parent dom img = Some c → dom !! c = Some e →
  isHTMLElement e = true →
  processImage window d img dom !! c = Some (patchStyle containerPatch e).
Proof.
  intros Hc Hp He Hh. rewrite processImage_local. cbv zeta. rewrite Hp.
  unfold elem_isHTML. rewrite He, Hh.
  apply alter_Some. by rewrite list_lookup_alter_ne.
Qed.

Lemma no_nested_images_frames (d d' : Dom) images :
  frames d = frames d' → no_nested_images d images → no_nested_images d' images.
Proof.
  intros H Hl i j Hi Hj. rewrite <- (frames_parent d d' j H). by apply Hl.
Qed.

Lemma no_nested_images_skip (dom : Dom) img j images :
  no_nested_images dom (img :: j :: images) →
  no_nested_images dom (img :: images).
Proof.
  intros Hl i k Hi Hk. apply Hl.
  - apply elem_of_cons in Hi as [->|Hi]; [left|by do 2 right].
  - apply elem_of_cons in Hk as [->|Hk]; [left|by do 2 right].
Qed.

(** The final state of a processed image, whatever the order and the
    repetitions in the collection. *)
Lemma processImages_lookup_image window images d img e (dom : Dom) :
  no_nested_images dom (img :: images) →
  dom !! img = Some e →
  forEach images (processImage window d) dom !! img =
    Some (if decide (img ∈ images) then imageElement window d img e else e).
Proof.
  revert dom e. induction images as [|j images IH]; intros dom e Hl He.
  { rewrite decide_False by apply not_elem_of_nil. done. }
  assert (no_nested_images (processImage window d j dom) (img :: images)) as Hl'.
  { apply (no_nested_images_frames dom); [by rewrite processImage_frames|].
    by apply (no_nested_images_skip dom img j). }
  rewrite forEach_cons. destruct (decide (j = img)) as [->|Hj].
  - rewrite (IH _ (imageElement window d img e)); [|done|].
    + rewrite (decide_True (P := img ∈ img :: images)) by left.
      case_decide; [|done]. by rewrite imageElement_idemp.
    + apply processImage_lookup_self; [done|]. apply Hl; left.
  - rewrite (IH _ e); [|done|].
    + f_equal. apply decide_ext. rewrite elem_of_cons. intuition congruence.
    + rewrite processImage_lookup_other; [done|done|].
      apply Hl; [left|by right;left].
Qed.

(** The final state of the container of the processed images. *)
Lemma processImages_lookup_container window images d c e (dom : Dom) :
  c ∉ images → dom !! c = Some e → isHTMLElement e = true →
  forEach images (processImage window d) dom !! c =
    Some (if decide (Exists (λ j, elem_parent dom j = Some c) images)
          then patchStyle containerPatch e else e).
Proof.
  revert dom e. induction images as [|j images IH]; intros dom e Hc He Hh.
  { rewrite decide_False; [done|]. by intros ?%Exists_nil. }
  apply not_elem_of_cons in Hc as [Hcj Hc].
  rewrite forEach_cons.
  assert (∀ k, elem_parent (processImage window d j dom) k = elem_parent dom k)
    as Hpar by (intros k; apply frames_parent, processImage_frames).
  assert (Exists (λ k, elem_parent (processImage window d j dom) k = Some c) images
          ↔ Exists (λ k, elem_parent dom k = Some c) images) as Hex.
  { rewrite !Exists_exists. by setoid_rewrite Hpar. }
  destruct (decide (elem_parent dom j = Some c)) as [Hp|Hp].
  - rewrite (IH _ (patchStyle containerPatch e)); [|done| |done].
    + rewrite (decide_True (P := Exists _ (j :: images))) by (by left).
      case_decide; [|done]. by rewrite patchStyle_idemp.
    + by apply processImage_lookup_container.
  - rewrite (IH _ e); [|done| |done].
    + f_equal. apply decide_ext. rewrite Hex, Exists_cons. tauto.
    + by rewrite processImage_lookup_other.
Qed.

Lemma images_are_leaves_spec (dom : Dom) images :
  images_are_leaves dom images = true → no_nested_images dom images.
Proof.
  unfold images_are_leaves. rewrite forallb_forall.
  intros H i j Hi Hj Hp. apply list_elem_of_In in Hj.
  specialize (H j Hj). rewrite Hp in H.
  by apply bool_decide_eq_true in H.
Qed.

Lemma no_nested_images_cons (dom : Dom) img images :
  img ∈ images → no_nested_images dom images →
  no_nested_images dom (img :: images).
Proof.
  intros Him Hl i j Hi Hj. apply Hl.
  - by apply elem_of_cons in Hi as [->|Hi].
  - by apply elem_of_cons in Hj as [->|Hj].
Qed.

(** The inline style of a processed image: the declarations of the
    emulation of its resolved mode, [display] and [visibility], and what it
    had before for the rest. *)
Lemma processImages_image window images objectFitDefault (dom : Dom) img e :
  img ∈ images → dom !! img = Some e → images_are_leaves dom images = true →
  processImages window images objectFitDefault dom !! img
  = Some (imageElement window (default "cover" objectFitDefault) img e).
Proof.
  intros Him He Hl%images_are_leaves_spec. unfold processImages.
  rewrite (processImages_lookup_image _ _ _ _ e);
    [by rewrite decide_True|by apply no_nested_images_cons|done].
Qed.

Lemma processImages_style window images objectFitDefault (dom : Dom) img e prop :
  img ∈ images → dom !! img = Some e → images_are_leaves dom images = true →
  elem_style (processImages window images objectFitDefault dom) img prop
  = match (fitPatch (resolvedObjectFit window (default "cover" objectFitDefault) img e)
           ∪ list_to_map [("visibility", decl "visible"); ("display", decl "block")])
          !! prop with
    | Some d => decl_value d
    | None => elem_style dom img prop
    end.
Proof.
  intros Him He Hl. unfold elem_style.
  rewrite (processImages_image _ _ _ _ _ e), He by done.
  unfold imageElement. by rewrite getPropertyValue_patchStyle.
Qed.

Lemma processImages_container window images objectFitDefault (dom : Dom)
    img c e prop :
  img ∈ images → images_are_leaves dom images = true →
  elem_parent dom img = Some c → dom !! c = Some e → isHTMLElement e = true →
  elem_style (processImages window images objectFitDefault dom) c prop
  = match containerPatch !! prop with
    | Some d => decl_value d
    | None => elem_style dom c prop
    end.
Proof.
  intros Him Hl%images_are_leaves_spec Hp He Hh. unfold elem_style, processImages.
  rewrite (processImages_lookup_container _ _ _ _ e), He; [| |done..].
  - rewrite decide_True by (apply Exists_exists; eauto).
    by rewrite getPropertyValue_patchStyle.
  - intros Hc. by apply (Hl c img).
Qed.

Ltac fit_lookup :=
  repeat match goal with
  | |- context [ @lookup string Declaration _ _ ?k ?m ] =>
      let r := eval vm_compute in (@lookup string Declaration _ _ k m) in
      replace (@lookup string Declaration _ _ k m) with r
        by (vm_compute; reflexivity)
  end.

(** C3. An image whose resolved object-fit is one of [cover], [contain],
    [fill], [none] and [scale-down] ends, after [processImages], with the
    inline declarations of that mode: [cover] gives object-fit cover, width
    and height 100%, position absolute, top 0 and left 0; [contain] gives
    object-fit contain, height 100%, width auto, max-width none, position
    absolute, top 0, left 50% and the transform translateX(-50%); [fill]
    gives object-fit fill, width and height 100% and leaves position, top,
    left and transform as they were; [none] gives max-height 100%, width
    auto, position absolute, top and left 50% and the transform
    translate(-50%, -50%); [scale-down] gives the same as [none] and
    max-width none. *)
Theorem processImages_fit_modes window images objectFitDefault (dom : Dom) img e :
  img ∈ images → dom !! img = Some e → images_are_leaves dom images = true →
  let objectFit :=
    resolvedObjectFit window (default "cover" objectFitDefault) img e in
  let before := elem_style dom img in
  let after := elem_style (processImages window images objectFitDefault dom) img in
  (objectFit = "cover" →
     after "object-fit" = "cover" ∧ after "width" = "100%" ∧
     after "height" = "100%" ∧ after "position" = "absolute" ∧
     after "top" = "0" ∧ after "left" = "0") ∧
  (objectFit = "contain" →
     after "object-fit" = "contain" ∧ after "height" = "100%" ∧
     after "width" = "auto" ∧ after "max-width" = "none" ∧
     after "position" = "absolute" ∧ after "top" = "0" ∧
     after "left" = "50%" ∧ after "transform" = "translateX(-50%)") ∧
  (objectFit = "fill" →
     after "object-fit" = "fill" ∧ after "width" = "100%" ∧
     after "height" = "100%" ∧ after "position" = before "position" ∧
     after "top" = before "top" ∧ after "left" = before "left" ∧
     after "transform" = before "transform") ∧
  (objectFit = "none" →
     after "max-height" = "100%" ∧ after "width" = "auto" ∧
     after "position" = "absolute" ∧ after "top" = "50%" ∧
     after "left" = "50%" ∧ after "transform" = "translate(-50%, -50%)") ∧
  (objectFit = "scale-down" →
     after "max-height" = "100%" ∧ after "width" = "auto" ∧
     after "max-width" = "none" ∧ after "position" = "absolute" ∧
     after "top" = "50%" ∧ after "left" = "50%" ∧
     after "transform" = "translate(-50%, -50%)").
Proof.
  intros Him He Hl objectFit before after. subst before after.
  split_and?; intros Hm; split_and?;
    rewrite (processImages_style _ _ _ _ _ e) by done;
    fold objectFit; rewrite Hm; fit_lookup;
    (reflexivity || (unfold elem_style; by rewrite He)).
Qed.

Lemma processImages_fit_modes_witness :
  let after :=
    elem_style (processImages (ex_window "cover" "") [1] None (ex_page ∅)) 1 in
  after "object-fit" = "cover" ∧ after "width" = "100%" ∧
  after "height" = "100%" ∧ after "position" = "absolute" ∧
  after "top" = "0" ∧ after "left" = "0".
Proof.
  refine (proj1 (processImages_fit_modes (ex_window "cover" "") [1] None
                   (ex_page ∅) 1 (ex_img ∅) _ _ _) _).
  - constructor.
  - reflexivity.
  - reflexivity.
  - reflexivity.
Defined.

Lemma processImages_decl window images objectFitDefault (dom : Dom) img e prop :
  img ∈ images → dom !! img = Some e → images_are_leaves dom images = true →
  elem_decl (processImages window images objectFitDefault dom) img prop
  = (fitPatch (resolvedObjectFit window (default "cover" objectFitDefault) img e)
       ∪ list_to_map [("visibility", decl "visible"); ("display", decl "block")])
      !! prop ∪ elem_decl dom img prop.
Proof.
  intros Him He Hl. unfold elem_decl.
  rewrite (processImages_image _ _ _ _ _ e), He by done. simpl.
  by rewrite lookup_union.
Qed.

Lemma fitPatch_unknown objectFit :
  objectFit ∉ ["cover"; "contain"; "fill"; "none"; "scale-down"] →
  fitPatch objectFit = ∅.
Proof.
  rewrite !not_elem_of_cons. intros (? & ? & ? & ? & ? & _).
  unfold fitPatch. by rewrite !decide_False.
Qed.

(** C10. An image whose resolved object-fit is none of [cover], [contain],
    [fill], [none] and [scale-down] still gets cross-origin anonymous,
    display block and visibility visible, and its parent container is
    styled, but no emulation is written: its inline declarations of
    object-fit, width, height, max-width, max-height, position, top, left
    and transform are what they were. *)
Theorem processImages_unknown_mode window images objectFitDefault (dom : Dom)
    img e :
  img ∈ images → dom !! img = Some e → images_are_leaves dom images = true →
  resolvedObjectFit window (default "cover" objectFitDefault) img e
    ∉ ["cover"; "contain"; "fill"; "none"; "scale-down"] →
  let final := processImages window images objectFitDefault dom in
  elem_crossOrigin final img = Some "anonymous" ∧
  elem_style final img "display" = "block" ∧
  elem_style final img "visibility" = "visible" ∧
  (∀ c ec, elem_parent dom img = Some c → dom !! c = Some ec →
           isHTMLElement ec = true →
     elem_style final c "position" = "relative" ∧
     elem_style final c "overflow" = "hidden" ∧
     elem_style final c "box-sizing" = "border-box") ∧
  (∀ prop, prop ∈ fitProperties →
     elem_decl final img prop = elem_decl dom img prop).
Proof.
  intros Him He Hl Hm final. subst final. split_and?.
  - unfold elem_crossOrigin. by rewrite (processImages_image _ _ _ _ _ e).
  - rewrite (processImages_style _ _ _ _ _ e) by done.
    by rewrite (fitPatch_unknown _ Hm).
  - rewrite (processImages_style _ _ _ _ _ e) by done.
    by rewrite (fitPatch_unknown _ Hm).
  - intros c ec Hp Hc Hh.
    split_and?; by rewrite (processImages_container _ _ _ _ img c ec).
  - intros prop Hprop. rewrite (processImages_decl _ _ _ _ _ e) by done.
    rewrite (fitPatch_unknown _ Hm).
    unfold fitProperties in Hprop.
    repeat (apply elem_of_cons in Hprop as [->|Hprop];
            [by destruct (elem_decl dom img _)|]).
    by apply elem_of_nil in Hprop.
Qed.

Lemma processImages_unknown_mode_witness :
  let dom := ex_page {["object-fit" := decl "revert"; "width" := decl "40px"]} in
  let final := processImages (ex_window "" "") [1] None dom in
  elem_crossOrigin final 1 = Some "anonymous" ∧
  elem_style final 1 "display" = "block" ∧
  elem_style final 1 "visibility" = "visible" ∧
  elem_style final 0 "position" = "relative" ∧
  elem_decl final 1 "width" = Some (decl "40px") ∧
  elem_decl final 1 "position" = None.
Proof.
  intros dom final. subst final.
  destruct (processImages_unknown_mode (ex_window "" "") [1] None dom 1
              (ex_img {["object-fit" := decl "revert"; "width" := decl "40px"]}))
    as (Hc & Hd & Hv & Hp & Hf).
  - constructor.
  - reflexivity.
  - reflexivity.
  - change (resolvedObjectFit _ _ _ _) with "revert".
    rewrite !not_elem_of_cons. split_and?; (discriminate || apply not_elem_of_nil).
  - split_and?; [exact Hc|exact Hd|exact Hv| | |].
    + exact (proj1 (Hp 0 ex_div eq_refl eq_refl eq_refl)).
    + rewrite (Hf "width"); [reflexivity|]. do 1 constructor. constructor.
    + rewrite (Hf "position"); [reflexivity|]. do 5 constructor. constructor.
Defined.

Lemma applyObjectFitStyles_style img objectFit (dom : Dom) e prop :
  dom !! img = Some e →
  elem_style (applyObjectFitStyles img objectFit dom) img prop
  = match fitPatch objectFit !! prop with
    | Some d => decl_value d
    | None => elem_style dom img prop
    end.
Proof.
  intros He. rewrite applyObjectFitStyles_patch.
  rewrite (elem_style_alter_eq _ _ _ e) by done.
  rewrite getPropertyValue_patchStyle. unfold elem_style. by rewrite He.
Qed.

(** C1, as the code has it.  For every image processed by [processImages]
    the object-fit mode that selects the fit emulation is the resolved
    computed value if it is not empty, otherwise the inline style value if
    it is not empty, otherwise the [objectFitDefault] argument, which
    defaults to cover: the declarations the image ends with are those of
    the emulation of that mode. *)
Theorem processImages_resolution window images objectFitDefault (dom : Dom)
    img e :
  img ∈ images → dom !! img = Some e → images_are_leaves dom images = true →
  let computed := cs_objectFit (getComputedStyle window img) in
  let inline := getPropertyValue e "object-fit" in
  let objectFit :=
    if decide (computed ≠ "") then computed
    else if decide (inline ≠ "") then inline
    else default "cover" objectFitDefault in
  ∀ prop, prop ∈ fitProperties →
    elem_style (processImages window images objectFitDefault dom) img prop
    = elem_style (applyObjectFitStyles img objectFit dom) img prop.
Proof.
  intros Him He Hl computed inline objectFit prop Hprop.
  rewrite (processImages_style _ _ _ _ _ e) by done.
  rewrite (applyObjectFitStyles_style _ _ _ e) by done.
  assert (resolvedObjectFit window (default "cover" objectFitDefault) img e
          = objectFit) as ->.
  { unfold resolvedObjectFit, objectFit, js_or. fold computed inline.
    by repeat case_decide. }
  rewrite lookup_union.
  unfold fitProperties in Hprop.
  repeat (apply elem_of_cons in Hprop as [->|Hprop];
          [by destruct (fitPatch objectFit !! _)|]).
  by apply elem_of_nil in Hprop.
Qed.

Lemma processImages_resolution_witness :
  let dom := ex_page {["object-fit" := decl "cover"]} in
  elem_style (processImages (ex_window "contain" "") [1] None dom) 1 "left"
  = elem_style (applyObjectFitStyles 1 "contain" dom) 1 "left".
Proof.
  intros dom.
  apply (processImages_resolution (ex_window "contain" "") [1] None dom 1
           (ex_img {["object-fit" := decl "cover"]})).
  - constructor.
  - reflexivity.
  - reflexivity.
  - do 7 constructor. constructor.
Defined.

(** C1, as the specification words it, fails: an image with the inline
    object-fit cover and the computed object-fit contain is given the
    emulation of contain, not that of the inline value. *)
Lemma processImages_resolution_inline_first_fails :
  let dom := ex_page {["object-fit" := decl "cover"]} in
  let window := ex_window "contain" "" in
  ¬ (∀ prop, prop ∈ fitProperties →
       elem_style (processImages window [1] None dom) 1 prop
       = elem_style
           (applyObjectFitStyles 1
              (specifiedObjectFit (elem_style dom 1 "object-fit")
                 (cs_objectFit (getComputedStyle window 1)) "cover") dom)
           1 prop).
Proof.
  intros dom window H. specialize (H "left").
  assert ("left" ∈ fitProperties) as Hin by (do 7 constructor; constructor).
  specialize (H Hin). vm_compute in H. discriminate H.
Qed.

(** ** Plans *)

Lemma applyPlan_cons n f plan (dom : Dom) :
  applyPlan ((n, f) :: plan) dom = applyPlan plan (alter f n dom).
Proof. done. Qed.

Lemma applyPlan_app plan1 plan2 (dom : Dom) :
  applyPlan (plan1 ++ plan2) dom = applyPlan plan2 (applyPlan plan1 dom).
Proof. unfold applyPlan. by rewrite foldl_app. Qed.

Lemma applyPlan_lookup plan (dom : Dom) q :
  applyPlan plan dom !! q = planAt plan q <$> dom !! q.
Proof.
  revert dom. induction plan as [|[n f] plan IH]; intros dom.
  { simpl. by destruct (dom !! q). }
  rewrite applyPlan_cons, IH, list_lookup_alter. unfold planAt at 2. simpl.
  fold (planAt plan q).
  case_decide; [subst|done]. by destruct (dom !! q).
Qed.

Lemma applyPlan_frames plan (dom : Dom) :
  Forall (λ nf, keeps_frame nf.2) plan → frames (applyPlan plan dom) = frames dom.
Proof.
  revert dom. induction plan as [|[n f] plan IH]; intros dom Hk; [done|].
  apply Forall_cons in Hk as [Hf Hk].
  rewrite applyPlan_cons, IH by done. by apply frames_alter.
Qed.

Lemma planAt_uniform f l q e :
  (∀ x, f (f x) = f x) →
  planAt (uniformPlan f l) q e = if decide (q ∈ l) then f e else e.
Proof.
  intros Hf. revert e. induction l as [|n l IH]; intros e.
  { by rewrite decide_False by apply not_elem_of_nil. }
  unfold uniformPlan, planAt in *. rewrite fmap_cons. simpl. rewrite IH.
  destruct (decide (n = q)) as [->|Hn].
  - rewrite (decide_True (P := q ∈ q :: l)) by left.
    case_decide; [by rewrite Hf|done].
  - apply decide_ext. rewrite elem_of_cons. intuition congruence.
Qed.

Lemma uniformPlan_keeps f l :
  keeps_frame f → Forall (λ nf : nat * (Element → Element), keeps_frame nf.2) (uniformPlan f l).
Proof. intros Hf. unfold uniformPlan. apply Forall_fmap, Forall_true. by intros n. Qed.

(** A loop whose body is, on every document with the frames of the
    initial one, the application of a plan read from the frames. *)
Lemma forEach_plan {A} (l : list A) (body : A → Dom → Dom) (planOf : A → Plan)
    (dom : Dom) :
  (∀ x, Forall (λ nf, keeps_frame nf.2) (planOf x)) →
  (∀ x d, x ∈ l → frames d = frames dom → body x d = applyPlan (planOf x) d) →
  forEach l body dom = applyPlan (l ≫= planOf) dom.
Proof.
  intros Hk. revert dom. induction l as [|x l IH]; intros dom Hbody; [done|].
  rewrite forEach_cons, bind_cons, applyPlan_app.
  rewrite (Hbody x dom) by (done || left).
  apply IH. intros y d Hy Hd. apply Hbody; [by right|].
  rewrite Hd. by apply applyPlan_frames.
Qed.

(** ** [processSvgElements] *)

Lemma alter_fix (f : Element → Element) n (dom : Dom) :
  (∀ e, dom !! n = Some e → f e = e) → alter f n dom = dom.
Proof.
  intros Hf. apply list_eq. intros i. rewrite list_lookup_alter.
  case_decide; [subst|done]. destruct (dom !! i) as [e|] eqn:He; [|done].
  simpl. by rewrite Hf.
Qed.

Lemma elem_attr_Some (dom : Dom) n e name :
  dom !! n = Some e → elem_attr dom n name = getAttribute e name.
Proof. intros He. unfold elem_attr. by rewrite He. Qed.

Lemma elem_style_Some (dom : Dom) n e prop :
  dom !! n = Some e → elem_style dom n prop = getPropertyValue e prop.
Proof. intros He. unfold elem_style. by rewrite He. Qed.

Lemma defaultAttribute_local n name value (dom : Dom) :
  (if negb (truthy (elem_attr dom n name)) then attr_assign n name value dom else dom)
  = alter (defaultAttribute name value) n dom.
Proof.
  destruct (dom !! n) as [e|] eqn:He.
  - rewrite (elem_attr_Some dom n e) by done.
    destruct (negb (truthy (getAttribute e name))) eqn:Ht.
    + apply alter_same. intros e' ?. simplify_eq. unfold defaultAttribute.
      by rewrite Ht.
    + symmetry. apply alter_fix. intros e' ?. simplify_eq.
      unfold defaultAttribute. by rewrite Ht.
  - unfold attr_assign. rewrite !alter_None by done. by destruct (negb _).
Qed.

Lemma inlineDimension_local css n prop (dom : Dom) :
  (if decide (elem_style dom n prop = "")
   then style_assign_parsed css n prop (js_concat (elem_attr dom n prop) "px") dom
   else dom)
  = alter (inlineDimension css prop) n dom.
Proof.
  destruct (dom !! n) as [e|] eqn:He.
  - rewrite (elem_attr_Some dom n e), (elem_style_Some dom n e) by done.
    case_decide as Hs.
    + apply alter_same. intros e' ?. simplify_eq. unfold inlineDimension.
      by rewrite decide_True.
    + symmetry. apply alter_fix. intros e' ?. simplify_eq.
      unfold inlineDimension. by rewrite decide_False.
  - unfold style_assign_parsed. rewrite !alter_None by done. by case_decide.
Qed.

Lemma processPolygon_local polygon (dom : Dom) :
  processPolygon polygon dom = alter polygonElement polygon dom.
Proof.
  unfold processPolygon. cbv zeta.
  rewrite !defaultAttribute_local, !list_alter_alter_eq. done.
Qed.

Lemma keeps_frame_defaultAttribute name value :
  name ≠ "role" → keeps_frame (defaultAttribute name value).
Proof.
  intros Hn e. unfold defaultAttribute. destruct (negb _); [|done].
  by apply keeps_frame_setAttribute.
Qed.

Lemma keeps_frame_polygonElement : keeps_frame polygonElement.
Proof.
  intros e. unfold polygonElement.
  rewrite (keeps_frame_defaultAttribute "stroke-width") by done.
  rewrite (keeps_frame_defaultAttribute "stroke") by done.
  by rewrite (keeps_frame_defaultAttribute "fill").
Qed.

Lemma keeps_frame_inlineDimension css prop : keeps_frame (inlineDimension css prop).
Proof.
  intros e. unfold inlineDimension, setStyleParsed. case_decide; [|done].
  repeat case_match; try done; apply keeps_frame_setStyle.
Qed.

Lemma keeps_frame_svgElement css : keeps_frame (svgElement css).
Proof.
  intros e. unfold svgElement.
  rewrite keeps_frame_patchStyle, !keeps_frame_inlineDimension.
  by rewrite (keeps_frame_defaultAttribute "xmlns").
Qed.

Lemma forEach_uniform (l : list nat) body f (dom : Dom) :
  (∀ x d, body x d = alter f x d) →
  forEach l body dom = applyPlan (uniformPlan f l) dom.
Proof.
  intros Hbody. revert dom. induction l as [|x l IH]; intros dom; [done|].
  rewrite forEach_cons, Hbody, IH. done.
Qed.

Lemma svgPlan_keeps css (dom : Dom) svg :
  Forall (λ nf : nat * (Element → Element), keeps_frame nf.2) (svgPlan css dom svg).
Proof.
  apply Forall_cons. split; [apply keeps_frame_svgElement|].
  apply uniformPlan_keeps, keeps_frame_polygonElement.
Qed.

Lemma processSvgElement_plan css svg (dom : Dom) :
  processSvgElement css svg dom = applyPlan (svgPlan css dom svg) dom.
Proof.
  unfold processSvgElement. cbv zeta.
  rewrite defaultAttribute_local, !inlineDimension_local.
  rewrite !style_assign_patch by done.
  rewrite alter_patch_patch, !list_alter_alter_eq.
  unfold svgPlan. rewrite applyPlan_cons.
  rewrite (forEach_uniform _ _ polygonElement) by apply processPolygon_local.
  rewrite (frames_querySelectorAll _ dom); [done|done|].
  apply frames_alter. apply keeps_frame_svgElement.
Qed.

Lemma processSvgElements_plan css svgElements (dom : Dom) :
  processSvgElements css svgElements dom
  = applyPlan (svgElements ≫= svgPlan css dom) dom.
Proof.
  unfold processSvgElements. apply forEach_plan.
  - intros svg. apply svgPlan_keeps.
  - intros svg d _ Hd. rewrite processSvgElement_plan. unfold svgPlan.
    by rewrite (frames_querySelectorAll d dom).
Qed.

Lemma defaulted_idemp value o : defaulted value (defaulted value o) = defaulted value o.
Proof.
  unfold defaulted. destruct (truthy o) eqn:Ho; [by rewrite Ho|].
  destruct (truthy (Some value)); done.
Qed.

Lemma getAttribute_defaultAttribute name value e a :
  getAttribute (defaultAttribute name value e) a
  = if decide (name = a) then defaulted value (getAttribute e a)
    else getAttribute e a.
Proof.
  unfold defaultAttribute, defaulted, getAttribute.
  case_decide as Hn; [subst a|].
  - destruct (truthy (attributes e !! name)); simpl; [done|].
    by rewrite lookup_insert_eq.
  - destruct (negb _); simpl; [|done]. by rewrite lookup_insert_ne.
Qed.

Lemma getAttribute_polygonElement e a v :
  (a, v) ∈ polygonDefaults →
  getAttribute (polygonElement e) a = defaulted v (getAttribute e a).
Proof.
  unfold polygonDefaults, polygonElement. intros Hin.
  rewrite !getAttribute_defaultAttribute.
  repeat (apply elem_of_cons in Hin as [[= -> ->]|Hin]; [done|]).
  by apply elem_of_nil in Hin.
Qed.

Lemma getAttribute_setProperty prop value priority e a :
  getAttribute (setProperty prop value priority e) a = getAttribute e a.
Proof. unfold setProperty. by repeat case_decide. Qed.

Lemma getAttribute_inlineDimension css prop e a :
  getAttribute (inlineDimension css prop e) a = getAttribute e a.
Proof.
  unfold inlineDimension, setStyleParsed. case_decide; [|done].
  repeat case_match; try done; apply getAttribute_setProperty.
Qed.

Lemma getAttribute_svgElement css e a :
  a ≠ "xmlns" → getAttribute (svgElement css e) a = getAttribute e a.
Proof.
  intros Ha. unfold svgElement.
  change (getAttribute (patchStyle ?p ?x) a) with (getAttribute x a).
  rewrite !getAttribute_inlineDimension, getAttribute_defaultAttribute.
  by rewrite decide_False.
Qed.

Lemma svgPlan_steps css (dom : Dom) svgElements :
  Forall (λ nf : nat * (Element → Element),
            nf.2 = svgElement css ∨ nf.2 = polygonElement)
    (svgElements ≫= svgPlan css dom).
Proof.
  apply Forall_forall. intros [n f] Hin.
  apply list_elem_of_bind in Hin as (svg & Hin & _).
  apply elem_of_cons in Hin as [[= -> ->]|Hin]; [by left|].
  unfold uniformPlan in Hin. apply list_elem_of_fmap in Hin as (p & [= -> ->] & _).
  by right.
Qed.

(** An attribute defaulted on polygons is, after any part of a run,
    either what it was or its defaulted value, and it is the latter as
    soon as the element was treated as a polygon. *)
Lemma planAt_defaulted css plan q a v :
  Forall (λ nf : nat * (Element → Element),
            nf.2 = svgElement css ∨ nf.2 = polygonElement) plan →
  (a, v) ∈ polygonDefaults →
  ∀ e,
    (getAttribute (planAt plan q e) a = getAttribute e a
     ∨ getAttribute (planAt plan q e) a = defaulted v (getAttribute e a))
    ∧ (Exists (λ nf, nf.1 = q ∧ nf.2 = polygonElement) plan →
       getAttribute (planAt plan q e) a = defaulted v (getAttribute e a)).
Proof.
  intros Hsteps Hav. assert (a ≠ "xmlns") as Hx.
  { unfold polygonDefaults in Hav.
    repeat (apply elem_of_cons in Hav as [[= -> ->]|Hav]; [done|]).
    by apply elem_of_nil in Hav. }
  induction plan as [|[n f] plan IH]; intros e.
  { split; [by left|]. by intros ?%Exists_nil. }
  apply Forall_cons in Hsteps as [Hf Hsteps]. specialize (IH Hsteps).
  change (planAt ((n, f) :: plan) q e)
    with (planAt plan q (if decide (n = q) then f e else e)).
  simpl in Hf. destruct (decide (n = q)) as [->|Hn].
  - destruct Hf as [-> | ->].
    + destruct (IH (svgElement css e)) as [IH1 IH2].
      rewrite (getAttribute_svgElement css e a Hx) in IH1, IH2.
      split; [done|]. intros [[_ Hp]|Hex]%Exists_cons; [|by apply IH2].
      simpl in Hp. exfalso.
      assert (getAttribute (svgElement css ex_svg) "xmlns"
              = getAttribute (polygonElement ex_svg) "xmlns") as Hne
        by (by rewrite Hp).
      unfold svgElement in Hne.
      change (getAttribute (patchStyle ?p ?y) ?a) with (getAttribute y a) in Hne.
      rewrite !getAttribute_inlineDimension in Hne.
      vm_compute in Hne. discriminate Hne.
    + destruct (IH (polygonElement e)) as [IH1 IH2].
      rewrite (getAttribute_polygonElement e a v Hav), defaulted_idemp in IH1, IH2.
      split; [right; by destruct IH1|]. intros _. by destruct IH1.
  - destruct (IH e) as [IH1 IH2]. split; [done|].
    intros [[Hq _]|Hex]%Exists_cons; [done|by apply IH2].
Qed.

(** C8, as the code has it.  Every polygon descendant of a processed SVG
    ends with fill #E2E8F0, stroke #CBD5E1 and stroke-width 1 where the
    attribute was missing or empty, and keeps every value of these three
    attributes that was not empty. *)
Theorem processSvgElements_polygon_defaults css svgElements (dom : Dom) svg
    polygon :
  svg ∈ svgElements → polygon ∈ querySelectorAll dom svg polygonSelector →
  ∀ name value, (name, value) ∈ polygonDefaults →
    let before := elem_attr dom polygon name in
    let after :=
      elem_attr (processSvgElements css svgElements dom) polygon name in
    (before = None ∨ before = Some "" → after = Some value) ∧
    (∀ existing, before = Some existing → existing ≠ "" → after = Some existing).
Proof.
  intros Hsvg Hpoly name value Hnv before after.
  assert (after = defaulted value before) as ->.
  { subst after before. unfold elem_attr. rewrite processSvgElements_plan.
    rewrite applyPlan_lookup. destruct (dom !! polygon) as [e|] eqn:He; simpl.
    - apply (planAt_defaulted css _ polygon name value
               (svgPlan_steps css dom svgElements) Hnv e).
      apply Exists_exists. exists (polygon, polygonElement). split; [|done].
      apply list_elem_of_bind. exists svg. split; [|done].
      unfold svgPlan. right. unfold uniformPlan. apply list_elem_of_fmap.
      by exists polygon.
    - unfold querySelectorAll in Hpoly.
      apply list_elem_of_filter in Hpoly as [Hm _].
      unfold elem_matches in Hm. by rewrite He in Hm. }
  unfold defaulted. split.
  - by intros [-> | ->].
  - intros existing -> Hne. simpl. by rewrite bool_decide_eq_true_2.
Qed.

Lemma processSvgElements_polygon_defaults_witness :
  let final :=
    processSvgElements ex_css [0] (ex_drawing {["stroke" := "#000000"]}) in
  elem_attr final 1 "fill" = Some "#E2E8F0" ∧
  elem_attr final 1 "stroke" = Some "#000000" ∧
  elem_attr final 1 "stroke-width" = Some "1".
Proof.
  intros final. subst final.
  pose proof (processSvgElements_polygon_defaults ex_css [0]
                (ex_drawing {["stroke" := "#000000"]}) 0 1) as H.
  assert (0 ∈ [0]) as H0 by constructor.
  assert (1 ∈ querySelectorAll (ex_drawing {["stroke" := "#000000"]}) 0
                polygonSelector) as H1 by (vm_compute; constructor).
  specialize (H H0 H1).
  destruct (H "fill" "#E2E8F0" ltac:(constructor)) as [Hfill _].
  destruct (H "stroke" "#CBD5E1" ltac:(do 1 constructor; constructor))
    as [_ Hstroke].
  destruct (H "stroke-width" "1" ltac:(do 2 constructor; constructor))
    as [Hwidth _].
  split_and?.
  - apply Hfill. by left.
  - apply Hstroke; [reflexivity|discriminate].
  - apply Hwidth. by left.
Defined.

(** C8, as the specification words it, fails for an attribute that is
    present with the empty value: a polygon with [fill=""] does not keep
    its value. *)
Lemma processSvgElements_polygon_empty_fill_replaced :
  let dom := ex_drawing {["fill" := ""]} in
  ¬ (∀ existing, elem_attr dom 1 "fill" = Some existing →
       elem_attr (processSvgElements ex_css [0] dom) 1 "fill" = Some existing).
Proof.
  intros dom H. specialize (H "" eq_refl). vm_compute in H. discriminate H.
Qed.

(** ** [hideUiControls] *)

Lemma elem_isHTML_Some (dom : Dom) n e :
  dom !! n = Some e → elem_isHTML dom n = isHTMLElement e.
Proof. intros He. unfold elem_isHTML. by rewrite He. Qed.

Lemma hidePatch_unions :
  {["opacity" := decl "0"]} ∪ {["visibility" := decl "hidden"]}
    ∪ {["display" := decl "none"]} = hidePatch.
Proof. closed_map. Qed.

Lemma hideUiControl_local el (dom : Dom) :
  hideUiControl el dom = alter hideElement el dom.
Proof.
  unfold hideUiControl. destruct (dom !! el) as [e|] eqn:He.
  - rewrite (elem_isHTML_Some dom el e He).
    destruct (isHTMLElement e) eqn:Hh.
    + rewrite !style_assign_patch by done.
      rewrite !alter_patch_patch, hidePatch_unions.
      apply alter_same. intros e' ?. simplify_eq. unfold hideElement.
      by rewrite Hh.
    + symmetry. apply alter_fix. intros e' ?. simplify_eq. unfold hideElement.
      by rewrite Hh.
  - unfold elem_isHTML. rewrite He. by rewrite alter_None.
Qed.

Lemma hideElement_idemp e : hideElement (hideElement e) = hideElement e.
Proof.
  unfold hideElement. destruct (isHTMLElement e) eqn:Hh; simpl; rewrite Hh; [|done].
  apply patchStyle_idemp.
Qed.

Lemma keeps_frame_hideElement : keeps_frame hideElement.
Proof. intros e. unfold hideElement. by destruct (isHTMLElement e). Qed.

Lemma hideUiControls_plan pageElement (dom : Dom) :
  hideUiControls pageElement dom
  = applyPlan (uniformPlan hideElement
                 (querySelectorAll dom pageElement uiControlSelector)) dom.
Proof.
  unfold hideUiControls. apply forEach_uniform. apply hideUiControl_local.
Qed.

Lemma hideUiControls_lookup pageElement (dom : Dom) q :
  hideUiControls pageElement dom !! q
  = (λ e, if decide (q ∈ querySelectorAll dom pageElement uiControlSelector)
          then hideElement e else e) <$> dom !! q.
Proof.
  rewrite hideUiControls_plan, applyPlan_lookup.
  destruct (dom !! q) as [e|]; [|done]. simpl.
  by rewrite planAt_uniform by apply hideElement_idemp.
Qed.

(** C9, as the code has it.  After [hideUiControls] every [HTMLElement]
    within the scope that matches the selector list has display none,
    visibility hidden and opacity 0 at once; a matching element that is
    not an [HTMLElement] is left as it was. *)
Theorem hideUiControls_hides pageElement (dom : Dom) el :
  el ∈ querySelectorAll dom pageElement uiControlSelector →
  let final := hideUiControls pageElement dom in
  (elem_isHTML dom el = true →
     elem_style final el "display" = "none" ∧
     elem_style final el "visibility" = "hidden" ∧
     elem_style final el "opacity" = "0") ∧
  (elem_isHTML dom el = false → final !! el = dom !! el).
Proof.
  intros Hel final. subst final. unfold elem_style, elem_isHTML.
  rewrite hideUiControls_lookup.
  destruct (dom !! el) as [e|]; simpl; [|done].
  rewrite decide_True by done. unfold hideElement.
  split; intros ->; [|done].
  rewrite !getPropertyValue_patchStyle. done.
Qed.

Lemma hideUiControls_hides_witness :
  let final := hideUiControls 0 ex_controls in
  elem_style final 1 "display" = "none" ∧
  elem_style final 1 "visibility" = "hidden" ∧
  elem_style final 1 "opacity" = "0".
Proof.
  intros final. subst final.
  refine (proj1 (hideUiControls_hides 0 ex_controls 1 _) _).
  - vm_compute. constructor.
  - reflexivity.
Defined.

(** C9, as the specification words it, fails for a matching element that
    is not an [HTMLElement]: an SVG element of class [handle] keeps its
    display. *)
Lemma hideUiControls_skips_svg_handle :
  let final := hideUiControls 0 ex_controls in
  2 ∈ querySelectorAll ex_controls 0 uiControlSelector ∧
  ¬ (elem_style final 2 "display" = "none" ∧
     elem_style final 2 "visibility" = "hidden" ∧
     elem_style final 2 "opacity" = "0").
Proof.
  split.
  - vm_compute. do 1 constructor. constructor.
  - vm_compute. intros [H _]. discriminate H.
Qed.

(** ** [renderSafeHtml] *)

(** C7, as the code has it.  [renderSafeHtml] returns without any effect
    when the container is absent; otherwise it replaces the content of the
    container by the sanitized HTML when the sanitizer returns, and lets an
    exception of the sanitizer reach its caller, for it has no handler.
    Whenever it does not complete normally the component, and so the
    previous content of the container, is unchanged. *)
Theorem renderSafeHtml_outcomes (sanitize : Sanitizer) (c : SafeHtml) :
  let after := (renderSafeHtml sanitize c).1 in
  let outcome := (renderSafeHtml sanitize c).2 in
  (container_innerHTML c = None → after = c ∧ outcome = Returns) ∧
  (∀ previous sanitizedHtml,
     container_innerHTML c = Some previous →
     sanitize (props_html c) safeHtmlConfig = inl sanitizedHtml →
     container_innerHTML after = Some sanitizedHtml ∧ outcome = Returns) ∧
  (∀ previous error,
     container_innerHTML c = Some previous →
     sanitize (props_html c) safeHtmlConfig = inr error →
     outcome = Throws error) ∧
  (outcome ≠ Returns → after = c).
Proof.
  unfold renderSafeHtml.
  destruct (container_innerHTML c) as [previous|] eqn:Hc;
    [destruct (sanitize (props_html c) safeHtmlConfig) as [html|error] eqn:Hs|];
    simpl; split_and?; try done; intros; by simplify_eq.
Qed.

(** C7, as the specification words it, fails: when the sanitizer throws,
    the call throws to its caller. *)
Lemma renderSafeHtml_throws :
  ¬ (∀ (sanitize : Sanitizer) (c : SafeHtml),
       (renderSafeHtml sanitize c).2 = Returns).
Proof.
  intros H.
  specialize (H ex_failing_sanitizer (mkSafeHtml "<p>text</p>" (Some "before"))).
  discriminate H.
Qed.

(** ** [preloadImages] *)

Lemma preloadImages_snoc images img store :
  preloadImages (images ++ [img]) store
  = newImagePromise img (preloadImages images store).
Proof. unfold preloadImages. by rewrite foldl_app. Qed.

Lemma promiseAll_Fulfilled ps value :
  promiseAll ps = Fulfilled value → Forall (λ p, p = Fulfilled ()) ps.
Proof.
  induction ps as [|p ps IH]; intros H; [done|]. simpl in H.
  destruct p as [| [] |r]; [|constructor; auto|done].
  by destruct (promiseAll ps).
Qed.

Lemma promiseAll_not_Rejected ps reason :
  Forall (λ p, p = Pending ∨ p = Fulfilled ()) ps → promiseAll ps ≠ Rejected reason.
Proof.
  induction ps as [|p ps IH]; intros H; [done|].
  apply Forall_cons in H as [[-> | ->] H]; simpl; [|by apply IH].
  specialize (IH H). by destruct (promiseAll ps).
Qed.

Lemma foreign_not_Resolve h k : foreign h = true → h ≠ Some (Resolve k).
Proof. by intros H ->. Qed.

Lemma created_nil store : fresh_store store = true → created [] store (mkLoader store []).
Proof.
  intros Hfresh. split; simpl; [done|done| |intros ??? ? Hh|done].
  - intros i im im0 -> ?. by simplify_eq.
  - unfold fresh_store in Hfresh. rewrite forallb_forall in Hfresh.
    assert (In im store) as Hin
      by (apply list_elem_of_In, list_elem_of_lookup; eauto).
    apply Hfresh, andb_prop in Hin as [H1 H2].
    destruct Hh as [Hh|Hh]; exfalso.
    + by apply (foreign_not_Resolve (onload im) k).
    + by apply (foreign_not_Resolve (onerror im) k).
Qed.

Lemma created_snoc images img store ld :
  img < length store → created images store ld →
  created (images ++ [img]) store (newImagePromise img ld).
Proof.
  intros Himg [Hlen Hstore Himgs Hhand Hprom].
  assert (is_Some (ld_images ld !! img)) as [im Him]
    by (apply lookup_lt_is_Some; by rewrite Hstore).
  assert (is_Some (store !! img)) as [im0 Him0]
    by (by apply lookup_lt_is_Some).
  assert (∀ k i : nat,
            images !! k = Some i → (images ++ [img])%list !! k = Some i)
    as Hweak
    by (intros k i Hk; by apply lookup_app_l_Some).
  assert ((images ++ [img])%list !! length (ld_promises ld) = Some img) as Hnew.
  { rewrite Hlen. rewrite lookup_app_r by done. by rewrite Nat.sub_diag. }
  unfold newImagePromise. rewrite Him. destruct (complete im) eqn:Hc.
  - split; simpl.
    + rewrite !length_app. simpl. lia.
    + done.
    + done.
    + intros i x k Hi Hh. eauto.
    + intros k p Hk. apply lookup_app_Some in Hk as [Hk|[Hge Hk]].
      * destruct (Hprom k p Hk) as [->|(-> & i & x & ? & ? & ?)]; [by left|].
        right. split; [done|]. exists i, x. eauto.
      * apply list_lookup_singleton_Some in Hk as [Hk <-].
        right. split; [done|]. exists img, im0. split_and?; [|done|].
        -- by replace k with (length (ld_promises ld)) by lia.
        -- by rewrite <- (Himgs img im im0).
  - split; simpl.
    + rewrite !length_app. simpl. lia.
    + by rewrite length_insert.
    + intros i x x0 Hi Hx0. apply list_lookup_insert_Some in Hi
        as [(-> & <- & _)|[Hne Hi]]; simpl; [|by eapply Himgs].
      by rewrite <- (Himgs _ _ _ Him Hx0).
    + intros i x k Hi Hh. apply list_lookup_insert_Some in Hi
        as [(-> & <- & _)|[Hne Hi]]; simpl in *; [|by eauto].
      by destruct Hh as [[= <-]|[= <-]].
    + intros k p Hk. apply lookup_app_Some in Hk as [Hk|[Hge Hk]].
      * destruct (Hprom k p Hk) as [->|(-> & i & x & ? & ? & ?)]; [by left|].
        right. split; [done|]. exists i, x. eauto.
      * apply list_lookup_singleton_Some in Hk as [Hk <-]. by left.
Qed.

Lemma preloadImages_created images store :
  fresh_store store = true → image_collection store images = true →
  created images store (preloadImages images store).
Proof.
  intros Hfresh. induction images as [|img images IH] using rev_ind; intros Hcoll.
  { by apply created_nil. }
  unfold image_collection in Hcoll. rewrite forallb_app in Hcoll.
  apply andb_prop in Hcoll as [Hcoll Himg]. simpl in Himg.
  rewrite andb_true_r in Himg. apply bool_decide_eq_true in Himg.
  rewrite preloadImages_snoc. apply created_snoc; [done|]. by apply IH.
Qed.

Lemma created_running images store ld :
  created images store ld → running images store [] ld.
Proof.
  intros [Hlen _ _ Hhand Hprom]. split; [done|done|].
  intros k p Hk. destruct (Hprom k p Hk) as [->|(-> & img & im0 & ? & ? & ?)];
    [by left|]. right. split; [done|]. exists img. split; [done|].
  left. eauto.
Qed.

Lemma settled_mono store evs ev img :
  settled store evs img → settled store (evs ++ [ev]) img.
Proof.
  intros [H|(ev' & Hin & Ht)]; [by left|]. right. exists ev'.
  split; [|done]. apply elem_of_app. by left.
Qed.

Lemma running_mono images store evs ev ld :
  running images store evs ld → running images store (evs ++ [ev]) ld.
Proof.
  intros [Hlen Hhand Hprom]. split; [done|done|].
  intros k p Hk. destruct (Hprom k p Hk) as [->|(-> & img & ? & ?)]; [by left|].
  right. split; [done|]. exists img. split; [done|]. by apply settled_mono.
Qed.

Lemma running_resolve images store evs ev ld im k :
  running images store evs ld →
  ld_images ld !! event_target ev = Some im →
  onload im = Some (Resolve k) ∨ onerror im = Some (Resolve k) →
  running images store (evs ++ [ev]) (resolvePromise k ld).
Proof.
  intros Hrun Him Hh. pose proof (running_mono _ _ _ ev _ Hrun) as [Hlen Hhand Hprom].
  unfold resolvePromise.
  destruct (ld_promises ld !! k) as [[| |]|] eqn:Hk; try by split.
  split; simpl; [by rewrite length_insert|done|].
  intros k' p Hk'. apply list_lookup_insert_Some in Hk' as [(-> & <- & _)|[Hne Hk']];
    [|by apply Hprom].
  right. split; [done|]. exists (event_target ev). split; [by eapply Hhand|].
  right. exists ev. split; [|done]. apply elem_of_app. right. constructor.
Qed.

Lemma running_deliver images store evs ev ld :
  running images store evs ld →
  running images store (evs ++ [ev]) (deliver ld ev).
Proof.
  intros Hrun. unfold deliver, callHandler.
  destruct ev as [i|i];
    (destruct (ld_images ld !! i) as [im|] eqn:Him; simpl;
     [|by apply running_mono]).
  - destruct (onload im) as [[|k]|] eqn:Hh; try by apply running_mono.
    apply (running_resolve _ _ _ (LoadEvent i) _ im); auto.
  - destruct (onerror im) as [[|k]|] eqn:Hh; try by apply running_mono.
    apply (running_resolve _ _ _ (ErrorEvent i) _ im); auto.
Qed.

Lemma running_deliverAll images store evs ld :
  running images store [] ld → running images store evs (deliverAll evs ld).
Proof.
  intros Hrun. induction evs as [|ev evs IH] using rev_ind; [done|].
  unfold deliverAll. rewrite foldl_app. simpl. by apply running_deliver.
Qed.

(** C2.  For every collection of images, the promise returned by
    [preloadImages] is fulfilled only when every image of the collection
    has settled, by being complete at the call or by a [load] or an
    [error] event delivered since; it is fulfilled with no value; and it
    is never rejected, whatever events are delivered. *)
Theorem preloadImages_barrier images store evs :
  fresh_store store = true → image_collection store images = true →
  let promise := returnedPromise (deliverAll evs (preloadImages images store)) in
  (∀ reason, promise ≠ Rejected reason) ∧
  (∀ value, promise = Fulfilled value →
     value = () ∧ ∀ img, img ∈ images → settled store evs img).
Proof.
  intros Hfresh Hcoll promise.
  pose proof (running_deliverAll images store evs _
                (created_running _ _ _ (preloadImages_created _ _ Hfresh Hcoll)))
    as [Hlen _ Hprom].
  subst promise. unfold returnedPromise.
  set (ld := deliverAll evs (preloadImages images store)) in *. split.
  - intros reason.
    assert (promiseAll (ld_promises ld) ≠ Rejected reason) as Hnr.
    { apply promiseAll_not_Rejected, Forall_lookup. intros k p Hk.
      destruct (Hprom k p Hk) as [->|[-> _]]; auto. }
    by destruct (promiseAll (ld_promises ld)).
  - intros value Hv. split; [by destruct value|].
    intros img Himg. destruct (promiseAll (ld_promises ld)) as [|u|] eqn:Hall;
      try done.
    apply promiseAll_Fulfilled in Hall. rewrite Forall_lookup in Hall.
    apply list_elem_of_lookup in Himg as [k Hk].
    assert (is_Some (ld_promises ld !! k)) as [p Hp].
    { apply lookup_lt_is_Some. rewrite Hlen. by eapply lookup_lt_Some. }
    specialize (Hall k p Hp). subst p.
    destruct (Hprom k _ Hp) as [|(_ & img' & Hk' & Hs)]; [done|].
    by simplify_eq.
Qed.

Lemma preloadImages_barrier_witness :
  returnedPromise
    (deliverAll [LoadEvent 1; ErrorEvent 2] (preloadImages [0; 1; 2] ex_store))
  = Fulfilled () ∧
  ∀ img, img ∈ [0; 1; 2] → settled ex_store [LoadEvent 1; ErrorEvent 2] img.
Proof.
  split; [reflexivity|].
  pose proof (preloadImages_barrier [0; 1; 2] ex_store
                [LoadEvent 1; ErrorEvent 2] eq_refl eq_refl) as [_ H].
  apply (H ()). reflexivity.
Defined.

(** ** [processTextElements] *)

Lemma real_background_nonempty backgroundColor :
  real_background backgroundColor = true → backgroundColor ≠ "".
Proof.
  unfold real_background. intros H.
  apply andb_prop in H as [H _]. apply andb_prop in H as [H _].
  by apply bool_decide_eq_true in H.
Qed.

Lemma blockPatch_unions backgroundColor :
  {["padding" := important "8px"]}
    ∪ {["background-color" := important backgroundColor]}
  = blockPatch backgroundColor.
Proof.
  unfold blockPatch. simpl. rewrite insert_union_singleton_l.
  by rewrite insert_empty.
Qed.

Lemma processBlockBackground_local window element (dom : Dom) :
  processBlockBackground window element dom
  = alter (blockElement window element) element dom.
Proof.
  unfold processBlockBackground, blockElement. cbv zeta.
  destruct (real_background _) eqn:Hbg.
  - rewrite !style_setProperty_patch by (done || by apply real_background_nonempty).
    by rewrite alter_patch_patch, blockPatch_unions.
  - symmetry. by apply list_alter_id.
Qed.

Lemma reassertProperty_local contentElement prop (dom : Dom) :
  reassertProperty contentElement prop dom
  = alter (reassertElement prop) contentElement dom.
Proof.
  unfold reassertProperty. destruct (dom !! contentElement) as [e|] eqn:He.
  - rewrite (elem_style_Some dom contentElement e _ He). case_decide as Hv.
    + apply alter_same. intros e' ?. simplify_eq. unfold reassertElement.
      by rewrite decide_True.
    + symmetry. apply alter_fix. intros e' ?. simplify_eq.
      unfold reassertElement. by case_decide.
  - unfold style_setProperty. rewrite !alter_None by done. by case_decide.
Qed.

Lemma applyFontStyles_local contentElement (dom : Dom) :
  applyFontStyles contentElement dom = alter fontElement contentElement dom.
Proof.
  unfold applyFontStyles. cbv zeta.
  by rewrite !reassertProperty_local, !list_alter_alter_eq.
Qed.

Lemma inheritColor_local contentElement node (dom : Dom) :
  inheritColor contentElement node dom
  = alter (inheritElement (elem_style dom contentElement "color")) node dom.
Proof.
  unfold inheritColor. destruct (dom !! node) as [e|] eqn:He.
  - rewrite (elem_isHTML_Some dom node e He), (elem_style_Some dom node e _ He).
    destruct (isHTMLElement e && bool_decide (getPropertyValue e "color" = ""))
      eqn:Hc.
    + apply alter_same. intros e' ?. simplify_eq. unfold inheritElement.
      by rewrite Hc.
    + symmetry. apply alter_fix. intros e' ?. simplify_eq.
      unfold inheritElement. by rewrite Hc.
  - unfold style_setProperty. rewrite !alter_None by done. by destruct (_ && _).
Qed.

Lemma getPropertyValue_setProperty prop value priority e prop' :
  priority = "" ∨ priority = "important" →
  getPropertyValue (setProperty prop value priority e) prop'
  = if decide (prop = prop') then value else getPropertyValue e prop'.
Proof.
  intros Hp. unfold setProperty, getPropertyValue.
  repeat case_decide; subst; simpl;
    rewrite ?lookup_delete_eq, ?lookup_insert_eq, ?lookup_delete_ne,
      ?lookup_insert_ne by done; try done.
  by destruct Hp.
Qed.

(** A colour that is set is never changed by the propagation. *)
Lemma inheritElement_color color e :
  getPropertyValue e "color" ≠ "" → inheritElement color e = e.
Proof.
  intros Hc. unfold inheritElement.
  rewrite (bool_decide_eq_false_2 _ Hc). by rewrite andb_false_r.
Qed.

Lemma inheritElement_idemp color e :
  color ≠ "" →
  inheritElement color (inheritElement color e) = inheritElement color e.
Proof.
  intros Hne.
  destruct (isHTMLElement e && bool_decide (getPropertyValue e "color" = ""))
    eqn:Hc.
  - assert (inheritElement color e = setProperty "color" color "important" e)
      as -> by (unfold inheritElement; by rewrite Hc).
    apply inheritElement_color.
    rewrite getPropertyValue_setProperty by auto. by rewrite decide_True.
  - assert (inheritElement color e = e) as ->
      by (unfold inheritElement; by rewrite Hc).
    unfold inheritElement; by rewrite Hc.
Qed.

Lemma elem_style_nonempty (dom : Dom) n prop :
  elem_style dom n prop ≠ "" → is_Some (dom !! n).
Proof. unfold elem_style. destruct (dom !! n); [eauto|done]. Qed.

Lemma elem_style_inherit color' n c (dom : Dom) :
  elem_style dom c "color" ≠ "" →
  elem_style (alter (inheritElement color') n dom) c "color"
  = elem_style dom c "color".
Proof.
  intros Hc. destruct (decide (n = c)) as [->|Hn];
    [|by apply elem_style_alter_ne].
  destruct (elem_style_nonempty _ _ _ Hc) as [e He].
  rewrite (elem_style_alter_eq _ _ _ e _ He), (elem_style_Some _ _ e _ He).
  rewrite inheritElement_color; [done|]. by rewrite <- (elem_style_Some dom c e _ He).
Qed.

Lemma inheritColor_loop contentElement nodes (dom : Dom) :
  elem_style dom contentElement "color" ≠ "" →
  forEach nodes (inheritColor contentElement) dom
  = applyPlan (uniformPlan (inheritElement (elem_style dom contentElement "color"))
                 nodes) dom.
Proof.
  revert dom. induction nodes as [|n nodes IH]; intros dom Hc; [done|].
  rewrite forEach_cons, inheritColor_local.
  rewrite IH by (by rewrite elem_style_inherit).
  by rewrite elem_style_inherit.
Qed.

Lemma transparent_local window contentElement parent (dom : Dom) :
  (if real_background (cs_backgroundColor (getComputedStyle window parent))
   then style_setProperty contentElement "background-color" "transparent"
          "important" dom
   else dom)
  = alter (transparentElement window parent) contentElement dom.
Proof.
  unfold transparentElement. destruct (real_background _).
  - by rewrite style_setProperty_patch.
  - symmetry. by apply list_alter_id.
Qed.

Lemma processContentElement_plan window contentElement parent (dom : Dom) :
  processContentElement window contentElement parent dom
  = applyPlan (contentPlan window dom contentElement parent
                 (elem_style dom contentElement "color")) dom.
Proof.
  unfold processContentElement, contentPlan. cbv zeta.
  rewrite transparent_local, applyFontStyles_local, applyPlan_app.
  simpl. do 2 f_equal. case_decide; [|done]. by apply inheritColor_loop.
Qed.

Lemma keeps_frame_blockElement window element :
  keeps_frame (blockElement window element).
Proof. intros e. unfold blockElement. cbv zeta. by destruct (real_background _). Qed.

Lemma getPropertyValue_blockElement window element e prop :
  prop ≠ "background-color" → prop ≠ "padding" →
  getPropertyValue (blockElement window element e) prop = getPropertyValue e prop.
Proof.
  intros H1 H2. unfold blockElement. cbv zeta. destruct (real_background _); [|done].
  rewrite getPropertyValue_patchStyle. unfold blockPatch. simpl.
  by rewrite !lookup_insert_ne.
Qed.

Lemma processTextElement_plan window element (dom : Dom) :
  processTextElement window element dom = applyPlan (textPlan window dom element) dom.
Proof.
  unfold processTextElement, textPlan.
  destruct (elem_isHTML dom element); [|done]. simpl.
  rewrite processBlockBackground_local.
  set (dom' := alter (blockElement window element) element dom).
  assert (frames dom' = frames dom) as Hfr
    by apply frames_alter, keeps_frame_blockElement.
  rewrite (frames_querySelector dom' dom) by done.
  destruct (querySelector dom element contentSelector) as [c|]; [|done].
  rewrite (frames_isHTML dom' dom) by done.
  destruct (elem_isHTML dom c); [|done].
  rewrite processContentElement_plan.
  assert (elem_style dom' c "color" = elem_style dom c "color") as ->.
  { unfold dom', elem_style. rewrite list_lookup_alter.
    case_decide; [subst|done]. destruct (dom !! c); [|done]. simpl.
    by apply getPropertyValue_blockElement. }
  unfold contentPlan. by rewrite (frames_querySelectorAll dom' dom).
Qed.

(** *** Document order *)

Lemma elem_parent_lt (dom : Dom) n p :
  elem_parent dom n = Some p → n < length dom.
Proof.
  unfold elem_parent. intros H. apply lookup_lt_is_Some.
  destruct (dom !! n); [eauto|done].
Qed.

Lemma document_order_parent (dom : Dom) n p :
  document_order dom = true → elem_parent dom n = Some p → p < n.
Proof.
  unfold document_order. rewrite forallb_forall. intros Hord Hp.
  specialize (Hord n). rewrite Hp in Hord.
  apply elem_parent_lt in Hp.
  assert (In n (seq 0 (length dom))) as Hin by (apply in_seq; lia).
  by apply Hord, bool_decide_eq_true in Hin.
Qed.

Lemma ancestors_lt (dom : Dom) fuel n a :
  document_order dom = true → a ∈ ancestors fuel dom n → a < n.
Proof.
  intros Hord. revert n. induction fuel as [|k IH]; intros n Ha; simpl in Ha.
  { by apply elem_of_nil in Ha. }
  destruct (elem_parent dom n) as [p|] eqn:Hp; [|by apply elem_of_nil in Ha].
  pose proof (document_order_parent dom n p Hord Hp).
  apply elem_of_cons in Ha as [->|Ha]; [done|].
  apply IH in Ha. lia.
Qed.

Lemma descendants_spec (dom : Dom) root n :
  n ∈ descendants dom root ↔
  root ∈ ancestors (length dom) dom n ∧ n < length dom.
Proof.
  unfold descendants, is_descendant. rewrite list_elem_of_filter.
  rewrite bool_decide_eq_true, elem_of_seq. intuition lia.
Qed.

Lemma descendants_lt (dom : Dom) root n :
  document_order dom = true → n ∈ descendants dom root → root < n.
Proof.
  intros Hord [Ha _]%descendants_spec. by apply (ancestors_lt dom (length dom) n root).
Qed.

Lemma querySelectorAll_descendants (dom : Dom) root sel n :
  n ∈ querySelectorAll dom root sel → n ∈ descendants dom root.
Proof. unfold querySelectorAll. by intros [_ ?]%list_elem_of_filter. Qed.

Lemma querySelector_elem_of (dom : Dom) root sel c :
  querySelector dom root sel = Some c → c ∈ querySelectorAll dom root sel.
Proof.
  unfold querySelector. destruct (querySelectorAll dom root sel); [done|].
  intros [= ->]. left.
Qed.

Lemma querySelectorAll_universal (dom : Dom) root n :
  n ∈ descendants dom root → n ∈ querySelectorAll dom root [SelUniversal].
Proof.
  intros Hn. unfold querySelectorAll. apply list_elem_of_filter. split; [|done].
  apply descendants_spec in Hn as [_ Hn]. apply lookup_lt_is_Some in Hn as [e He].
  unfold elem_matches. by rewrite He.
Qed.

(** *** What the steps leave alone *)

Lemma planAt_app plan1 plan2 q e :
  planAt (plan1 ++ plan2) q e = planAt plan2 q (planAt plan1 q e).
Proof. unfold planAt. by rewrite foldl_app. Qed.

Lemma planAt_cons n f plan q e :
  planAt ((n, f) :: plan) q e = planAt plan q (if decide (n = q) then f e else e).
Proof. done. Qed.

Lemma planAt_keeps_decl plan q prop e :
  Forall (λ nf : nat * (Element → Element), nf.1 = q → keeps_decl prop nf.2) plan →
  style (planAt plan q e) !! prop = style e !! prop.
Proof.
  revert e. induction plan as [|[n f] plan IH]; intros e Hk; [done|].
  apply Forall_cons in Hk as [Hf Hk]. rewrite planAt_cons, IH by done.
  case_decide; [|done]. by apply Hf.
Qed.

Lemma style_setProperty_ne prop value priority e prop' :
  prop ≠ prop' → style (setProperty prop value priority e) !! prop' = style e !! prop'.
Proof.
  intros Hne. unfold setProperty.
  repeat case_decide; simpl; by rewrite ?lookup_delete_ne, ?lookup_insert_ne.
Qed.

Lemma keeps_decl_inheritElement color prop :
  prop ≠ "color" → keeps_decl prop (inheritElement color).
Proof.
  intros Hne e. unfold inheritElement. destruct (_ && _); [|done].
  by apply style_setProperty_ne.
Qed.

Lemma keeps_decl_reassertElement prop' prop :
  prop ≠ prop' → keeps_decl prop (reassertElement prop').
Proof.
  intros Hne e. unfold reassertElement. case_decide; [|done].
  by apply style_setProperty_ne.
Qed.

Lemma keeps_decl_fontElement prop :
  prop ≠ "font-family" → prop ≠ "font-size" → prop ≠ "font-weight" →
  keeps_decl prop fontElement.
Proof.
  intros H1 H2 H3 e. unfold fontElement.
  by rewrite !keeps_decl_reassertElement.
Qed.

Lemma keeps_decl_blockElement window element prop :
  prop ≠ "background-color" → prop ≠ "padding" →
  keeps_decl prop (blockElement window element).
Proof.
  intros H1 H2 e. unfold blockElement. cbv zeta. destruct (real_background _); [|done].
  unfold patchStyle, blockPatch. simpl. rewrite lookup_union.
  rewrite !lookup_insert_ne by congruence. rewrite lookup_empty.
  by destruct (style e !! prop).
Qed.

Lemma keeps_decl_transparentElement window parent prop :
  prop ≠ "background-color" → keeps_decl prop (transparentElement window parent).
Proof.
  intros H1 e. unfold transparentElement. destruct (real_background _); [|done].
  unfold patchStyle. simpl. rewrite lookup_union.
  rewrite lookup_singleton_ne by congruence.
  by destruct (style e !! prop).
Qed.

Lemma elem_decl_applyPlan plan (dom : Dom) q prop :
  elem_decl (applyPlan plan dom) q prop
  = dom !! q ≫= λ e, style (planAt plan q e) !! prop.
Proof.
  unfold elem_decl. rewrite applyPlan_lookup. by destruct (dom !! q).
Qed.

Lemma style_blockPatch backgroundColor e :
  style (patchStyle (blockPatch backgroundColor) e) !! "background-color"
    = Some (important backgroundColor)
  ∧ style (patchStyle (blockPatch backgroundColor) e) !! "padding"
    = Some (important "8px").
Proof.
  unfold patchStyle, blockPatch. simpl. rewrite !lookup_union.
  rewrite lookup_insert_eq, lookup_insert_ne, lookup_insert_eq by done.
  split; by destruct (style e !! _).
Qed.

Lemma style_transparentPatch e :
  style (patchStyle {["background-color" := important "transparent"]} e)
    !! "background-color" = Some (important "transparent").
Proof.
  unfold patchStyle. simpl. rewrite lookup_union, lookup_singleton_eq.
  by destruct (style e !! _).
Qed.

(** C5.  A text block whose computed background is a real colour, with a
    content sub-element that carries an inline colour and a descendant of
    it without inline colour: after [processTextElements] the block has
    that background and the padding 8px inline, the content sub-element
    has the background transparent and the descendant has the colour of
    the content sub-element, each with the important priority.  The
    scenario of the specification has the background rgb(200,200,200) and
    the colour rgb(10,10,10). *)
Theorem processTextElements_scenario window (dom : Dom) block content child
    backgroundColor color :
  document_order dom = true →
  elem_isHTML dom block = true →
  cs_backgroundColor (getComputedStyle window block) = backgroundColor →
  real_background backgroundColor = true →
  querySelector dom block contentSelector = Some content →
  elem_isHTML dom content = true →
  elem_style dom content "color" = color → color ≠ "" →
  child ∈ descendants dom content →
  elem_isHTML dom child = true → elem_style dom child "color" = "" →
  let final := processTextElements window [block] dom in
  elem_decl final block "background-color" = Some (important backgroundColor) ∧
  elem_decl final block "padding" = Some (important "8px") ∧
  elem_decl final content "background-color" = Some (important "transparent") ∧
  elem_decl final child "color" = Some (important color).
Proof.
  intros Hord Hblock Hbg Hreal Hq Hcontent Hcolor Hne Hchild Hhtml Hnone final.
  assert (block < content) as Hlt.
  { by apply (descendants_lt dom), (querySelectorAll_descendants _ _ contentSelector),
      querySelector_elem_of. }
  subst final. unfold processTextElements. rewrite forEach_cons.
  change (forEach [] ?b ?d) with d. rewrite processTextElement_plan.
  unfold textPlan. rewrite Hblock, Hq, Hcontent, Hcolor.
  unfold contentPlan. rewrite decide_True by done.
  set (nodes := querySelectorAll dom content [SelUniversal]).
  assert (∀ e, blockElement window block e
               = patchStyle (blockPatch backgroundColor) e) as Hbe.
  { intros e. unfold blockElement. cbv zeta. by rewrite Hbg, Hreal. }
  assert (∀ e, transparentElement window block e
               = patchStyle {["background-color" := important "transparent"]} e)
    as Hte.
  { intros e. unfold transparentElement. by rewrite Hbg, Hreal. }
  rewrite !elem_decl_applyPlan. split_and?.
  - unfold elem_isHTML in Hblock. destruct (dom !! block) as [e|]; [|done].
    change (Some e ≫= ?f) with (f e). cbv beta.
    rewrite planAt_cons, decide_True by done.
    rewrite planAt_keeps_decl; [rewrite Hbe; apply style_blockPatch|].
    apply Forall_app. split.
    + apply Forall_fmap, Forall_true. intros n _.
      by apply keeps_decl_inheritElement.
    + repeat apply Forall_cons_2; try apply Forall_nil_2; simpl; intros; lia.
  - unfold elem_isHTML in Hblock. destruct (dom !! block) as [e|]; [|done].
    change (Some e ≫= ?f) with (f e). cbv beta.
    rewrite planAt_cons, decide_True by done.
    rewrite planAt_keeps_decl; [rewrite Hbe; apply style_blockPatch|].
    apply Forall_app. split.
    + apply Forall_fmap, Forall_true. intros n _.
      by apply keeps_decl_inheritElement.
    + repeat apply Forall_cons_2; try apply Forall_nil_2; simpl; intros; lia.
  - unfold elem_isHTML in Hcontent. destruct (dom !! content) as [e|]; [|done].
    change (Some e ≫= ?f) with (f e). cbv beta.
    rewrite planAt_cons, planAt_app.
    rewrite !planAt_cons, !decide_True by done.
    change (planAt [] ?q ?x) with x. rewrite Hte. apply style_transparentPatch.
  - unfold elem_isHTML in Hhtml. unfold elem_style in Hnone.
    destruct (dom !! child) as [e|]; [|done].
    change (Some e ≫= ?f) with (f e). cbv beta.
    rewrite planAt_cons, planAt_app.
    rewrite planAt_keeps_decl.
    2:{ repeat apply Forall_cons_2; try apply Forall_nil_2; simpl; intros _.
        - by apply keeps_decl_fontElement.
        - by apply keeps_decl_transparentElement. }
    rewrite planAt_uniform by (intros; by apply inheritElement_idemp).
    rewrite decide_True by (by apply querySelectorAll_universal).
    set (e' := if decide (block = child) then blockElement window block e else e).
    assert (isHTMLElement e' = true ∧ getPropertyValue e' "color" = "") as [Hh Hc].
    { unfold e'. case_decide; [|done]. split; [by rewrite Hbe|].
      by rewrite getPropertyValue_blockElement. }
    unfold inheritElement. rewrite Hh, Hc. simpl.
    unfold setProperty. rewrite decide_False by done. simpl.
    by rewrite lookup_insert_eq.
Qed.

Lemma processTextElements_scenario_witness :
  let final := processTextElements (ex_window "" "rgb(200,200,200)") [0] ex_text in
  elem_decl final 0 "background-color" = Some (important "rgb(200,200,200)") ∧
  elem_decl final 0 "padding" = Some (important "8px") ∧
  elem_decl final 1 "background-color" = Some (important "transparent") ∧
  elem_decl final 2 "color" = Some (important "rgb(10,10,10)").
Proof.
  apply (processTextElements_scenario (ex_window "" "rgb(200,200,200)") ex_text
           0 1 2 "rgb(200,200,200)" "rgb(10,10,10)").
  - reflexivity.
  - reflexivity.
  - reflexivity.
  - reflexivity.
  - reflexivity.
  - reflexivity.
  - reflexivity.
  - discriminate.
  - vm_compute. constructor.
  - reflexivity.
  - reflexivity.
Defined.

(** ** Running a normaliser twice *)

Lemma alter_commute f g n m (dom : Dom) :
  commuting f g → alter f n (alter g m dom) = alter g m (alter f n dom).
Proof.
  intros Hc. destruct (decide (n = m)) as [->|Hne];
    [|by apply list_alter_alter_ne].
  rewrite !list_alter_alter_eq. apply alter_same. intros e _. apply Hc.
Qed.

Lemma applyPlan_alter_commute plan f n (dom : Dom) :
  Forall (λ nf : nat * (Element → Element), commuting f nf.2) plan →
  applyPlan plan (alter f n dom) = alter f n (applyPlan plan dom).
Proof.
  revert dom. induction plan as [|[m g] plan IH]; intros dom Hc; [done|].
  apply Forall_cons in Hc as [Hg Hc]. rewrite !applyPlan_cons.
  rewrite <- IH by done. f_equal. symmetry. by apply alter_commute.
Qed.

(** A plan of idempotent updates that commute with one another gives
    the same document when it is applied a second time. *)
Lemma applyPlan_idemp plan (dom : Dom) :
  Forall (λ nf : nat * (Element → Element), ∀ e, nf.2 (nf.2 e) = nf.2 e) plan →
  (∀ nf nf' : nat * (Element → Element),
     nf ∈ plan → nf' ∈ plan → commuting nf.2 nf'.2) →
  applyPlan plan (applyPlan plan dom) = applyPlan plan dom.
Proof.
  revert dom. induction plan as [|[n f] plan IH]; intros dom Hid Hc; [done|].
  apply Forall_cons in Hid as [Hf Hid]. simpl in Hf.
  rewrite !applyPlan_cons.
  rewrite <- (applyPlan_alter_commute plan f n).
  2:{ apply Forall_forall. intros nf Hnf. apply (Hc (n, f) nf); [left|by right]. }
  rewrite list_alter_alter_eq.
  rewrite (alter_same (f ∘ f) f) by (intros e _; apply Hf).
  apply IH; [done|]. intros nf nf' ? ?. apply Hc; by right.
Qed.

Lemma uniformPlan_idemp f l (dom : Dom) :
  (∀ e, f (f e) = f e) →
  applyPlan (uniformPlan f l) (applyPlan (uniformPlan f l) dom)
  = applyPlan (uniformPlan f l) dom.
Proof.
  intros Hf. apply applyPlan_idemp.
  - unfold uniformPlan. apply Forall_fmap, Forall_true. intros n e. apply Hf.
  - unfold uniformPlan. intros nf nf' (n & -> & _)%list_elem_of_fmap
      (n' & -> & _)%list_elem_of_fmap. by intros e.
Qed.

Lemma hideUiControls_idemp pageElement (dom : Dom) :
  hideUiControls pageElement (hideUiControls pageElement dom)
  = hideUiControls pageElement dom.
Proof.
  rewrite (hideUiControls_plan pageElement (hideUiControls pageElement dom)).
  rewrite (frames_querySelectorAll _ dom); [|done|].
  - rewrite hideUiControls_plan. apply uniformPlan_idemp, hideElement_idemp.
  - rewrite hideUiControls_plan.
    apply applyPlan_frames, uniformPlan_keeps, keeps_frame_hideElement.
Qed.

Lemma shapePatch_unions :
  {["border" := decl "none"]} ∪ {["background-color" := decl "transparent"]}
  = shapePatch.
Proof. closed_map. Qed.

Lemma processShapeElement_plan element (dom : Dom) :
  processShapeElement element dom = applyPlan (shapePlan dom element) dom.
Proof.
  unfold processShapeElement, shapePlan.
  destruct (elem_isHTML dom element); [|done]. simpl.
  destruct (querySelector dom element polygonSelector); [|done].
  rewrite !style_assign_patch by done.
  by rewrite alter_patch_patch, shapePatch_unions.
Qed.

Lemma shapePlan_steps (dom : Dom) element :
  Forall (λ nf : nat * (Element → Element), nf.2 = patchStyle shapePatch)
    (shapePlan dom element).
Proof.
  unfold shapePlan. destruct (elem_isHTML dom element); [|done].
  destruct (querySelector dom element polygonSelector); [|done].
  by repeat constructor.
Qed.

Lemma shapePlan_frames (d d' : Dom) element :
  frames d = frames d' → shapePlan d element = shapePlan d' element.
Proof.
  intros H. unfold shapePlan.
  by rewrite (frames_isHTML d d'), (frames_querySelector d d').
Qed.

Lemma processShapeElements_plan shapeElements (dom : Dom) :
  processShapeElements shapeElements dom
  = applyPlan (shapeElements ≫= shapePlan dom) dom.
Proof.
  unfold processShapeElements. apply forEach_plan.
  - intros el. eapply Forall_impl; [apply shapePlan_steps|].
    intros nf ->. apply keeps_frame_patchStyle.
  - intros el d _ Hd. rewrite processShapeElement_plan.
    by rewrite (shapePlan_frames d dom).
Qed.

Lemma bind_Forall {A B} (P : B → Prop) (f : A → list B) (l : list A) :
  (∀ x, Forall P (f x)) → Forall P (l ≫= f).
Proof.
  intros H. apply Forall_forall. intros y (x & Hy & _)%list_elem_of_bind.
  specialize (H x). rewrite Forall_forall in H. by apply H.
Qed.

Lemma processShapeElements_idemp shapeElements (dom : Dom) :
  processShapeElements shapeElements (processShapeElements shapeElements dom)
  = processShapeElements shapeElements dom.
Proof.
  assert (Forall (λ nf : nat * (Element → Element), nf.2 = patchStyle shapePatch)
            (shapeElements ≫= shapePlan dom)) as Hsteps
    by apply bind_Forall, shapePlan_steps.
  rewrite (processShapeElements_plan _ (processShapeElements shapeElements dom)).
  assert (frames (processShapeElements shapeElements dom) = frames dom) as Hfr.
  { rewrite processShapeElements_plan. apply applyPlan_frames.
    eapply Forall_impl; [exact Hsteps|]. intros nf ->. apply keeps_frame_patchStyle. }
  assert (shapeElements ≫= shapePlan (processShapeElements shapeElements dom)
          = shapeElements ≫= shapePlan dom) as ->.
  { clear Hsteps. induction shapeElements as [|x l IH]; [done|].
    rewrite !bind_cons. f_equal; [by apply shapePlan_frames|].
    apply list_bind_ext; [|done]. intros y. by apply shapePlan_frames. }
  rewrite processShapeElements_plan. rewrite Forall_forall in Hsteps.
  apply applyPlan_idemp.
  - apply Forall_forall. intros nf ->%Hsteps e. apply patchStyle_idemp.
  - intros nf nf' ->%Hsteps ->%Hsteps. by intros e.
Qed.

(** *** Updates that commute *)

Lemma with_style_id e : with_style (style e) e = e.
Proof. by destruct e. Qed.

Lemma with_attributes_id e : with_attributes (attributes e) e = e.
Proof. by destruct e. Qed.

Lemma commuting_sym f g : commuting f g → commuting g f.
Proof. intros H e. by rewrite H. Qed.

Lemma commuting_ext f f' g :
  (∀ e, f e = f' e) → commuting f' g → commuting f g.
Proof. intros Hf H e. by rewrite !Hf, H. Qed.

Lemma commuting_compose f g h :
  commuting f g → commuting f h → commuting f (g ∘ h).
Proof. intros Hg Hh e. simpl. by rewrite Hg, Hh. Qed.

Lemma idemp_compose (f g : Element → Element) :
  (∀ e, f (f e) = f e) → (∀ e, g (g e) = g e) → commuting f g →
  ∀ e, (f ∘ g) ((f ∘ g) e) = (f ∘ g) e.
Proof. intros Hf Hg Hc e. simpl. by rewrite <- (Hc (g e)), Hf, Hg. Qed.

Lemma styleUpdate_styleUpdate prop u prop' u' :
  prop ≠ prop' → commuting (styleUpdate prop u) (styleUpdate prop' u').
Proof.
  intros Hne e. unfold styleUpdate, with_style. simpl.
  by rewrite partial_alter_partial_alter_ne.
Qed.

Lemma partial_alter_union (f : option Declaration → option Declaration) prop
    (p s : gmap string Declaration) :
  p !! prop = None → partial_alter f prop (p ∪ s) = p ∪ partial_alter f prop s.
Proof.
  intros Hp. apply map_eq. intros k.
  rewrite lookup_partial_alter, !lookup_union, lookup_partial_alter.
  case_decide; [subst k|done]. rewrite Hp. by rewrite !(left_id_L None (∪)).
Qed.

Lemma styleUpdate_patchStyle prop u p :
  p !! prop = None → commuting (styleUpdate prop u) (patchStyle p).
Proof.
  intros Hp e. unfold styleUpdate, patchStyle, with_style. simpl.
  by rewrite partial_alter_union.
Qed.

Lemma styleUpdate_attrUpdate prop u name u' :
  (∀ h attrs d, u h (partial_alter u' name attrs) d = u h attrs d) →
  commuting (styleUpdate prop u) (attrUpdate name u').
Proof.
  intros Hu e. unfold styleUpdate, attrUpdate, with_style, with_attributes. simpl.
  f_equal. apply partial_alter_ext. intros d _. apply Hu.
Qed.

Lemma attrUpdate_attrUpdate name u name' u' :
  name ≠ name' → commuting (attrUpdate name u) (attrUpdate name' u').
Proof.
  intros Hne e. unfold attrUpdate, with_attributes. simpl.
  by rewrite partial_alter_partial_alter_ne.
Qed.

Lemma styleUpdate_idemp prop u :
  (∀ h attrs d, u h attrs (u h attrs d) = u h attrs d) →
  ∀ e, styleUpdate prop u (styleUpdate prop u e) = styleUpdate prop u e.
Proof.
  intros Hu e. unfold styleUpdate, with_style. simpl.
  rewrite partial_alter_partial_alter_eq. f_equal.
  apply partial_alter_ext. intros d _. simpl. apply Hu.
Qed.

Lemma attrUpdate_idemp name u :
  (∀ o, u (u o) = u o) →
  ∀ e, attrUpdate name u (attrUpdate name u e) = attrUpdate name u e.
Proof.
  intros Hu e. unfold attrUpdate, with_attributes. simpl.
  rewrite partial_alter_partial_alter_eq. f_equal.
  apply partial_alter_ext. intros d _. simpl. apply Hu.
Qed.

(** The conditional writes in these shapes. *)

Lemma setProperty_declared prop value (flag : bool) e :
  setProperty prop value (if flag then "important" else "") e
  = with_style (partial_alter (λ _, declared value flag) prop (style e)) e.
Proof.
  unfold setProperty, declared. destruct (decide (value = "")) as [Hv|Hv].
  - reflexivity.
  - by destruct flag.
Qed.

Lemma defaultAttribute_attrUpdate name value e :
  defaultAttribute name value e = attrUpdate name (defaulted value) e.
Proof.
  unfold defaultAttribute, attrUpdate, getAttribute, defaulted.
  destruct (truthy (attributes e !! name)) eqn:Ht; simpl.
  - rewrite partial_alter_id by (by rewrite Ht). by rewrite with_attributes_id.
  - unfold setAttribute. f_equal. apply partial_alter_ext. intros o <-.
    by rewrite Ht.
Qed.

Lemma getPropertyValue_value_of e prop :
  getPropertyValue e prop = value_of (style e !! prop).
Proof. done. Qed.

Lemma inlineDimension_styleUpdate css prop e :
  inlineDimension css prop e = styleUpdate prop (dimensionUpdate css prop) e.
Proof.
  unfold inlineDimension, styleUpdate, dimensionUpdate, setStyleParsed.
  rewrite getPropertyValue_value_of.
  rewrite (decide_False (P := js_concat _ "px" = ""))
    by (by destruct (getAttribute e prop) as [[|a v]|]).
  case_decide as Hv.
  - unfold getAttribute.
    destruct (supports css prop (js_concat (attributes e !! prop) "px")) eqn:Hs.
    + unfold setStyle. rewrite (setProperty_declared _ _ false).
      f_equal. apply partial_alter_ext. intros d <-. by rewrite decide_True.
    + rewrite partial_alter_id by (by rewrite decide_True).
      by rewrite with_style_id.
  - rewrite partial_alter_id by (by rewrite decide_False).
    by rewrite with_style_id.
Qed.

Lemma reassertElement_styleUpdate prop e :
  reassertElement prop e = styleUpdate prop reassertUpdate e.
Proof.
  unfold reassertElement, styleUpdate, reassertUpdate.
  rewrite getPropertyValue_value_of. case_decide as Hv.
  - rewrite (setProperty_declared _ _ true).
    f_equal. apply partial_alter_ext. intros d <-. by rewrite decide_True.
  - rewrite partial_alter_id; [by rewrite with_style_id|]. by case_decide.
Qed.

Lemma inheritElement_styleUpdate color e :
  inheritElement color e = styleUpdate "color" (inheritUpdate color) e.
Proof.
  unfold inheritElement, styleUpdate, inheritUpdate.
  rewrite getPropertyValue_value_of.
  destruct (isHTMLElement e && bool_decide (value_of (style e !! "color") = ""))
    eqn:Hc.
  - rewrite (setProperty_declared _ _ true).
    f_equal. apply partial_alter_ext. intros d <-. by rewrite Hc.
  - rewrite partial_alter_id by (by rewrite Hc). by rewrite with_style_id.
Qed.

(** *** [processSvgElements] twice *)

Lemma js_concat_px o : js_concat o "px" ≠ "".
Proof. destruct o as [[|a v]|]; done. Qed.

Lemma dimensionUpdate_idemp css prop h attrs d :
  dimensionUpdate css prop h attrs (dimensionUpdate css prop h attrs d)
  = dimensionUpdate css prop h attrs d.
Proof.
  pose proof (js_concat_px (attrs !! prop)) as Hpx.
  unfold dimensionUpdate, declared.
  rewrite (decide_False (P := js_concat (attrs !! prop) "px" = "")) by done.
  destruct (decide (value_of d = "")) as [Hd|Hd]; simpl.
  - destruct (supports css prop _); simpl.
    + by rewrite (decide_False (P := js_concat (attrs !! prop) "px" = "")).
    + by rewrite decide_True.
  - by rewrite decide_False.
Qed.

Lemma dimensionUpdate_attrs css prop name u h attrs d :
  name ≠ prop →
  dimensionUpdate css prop h (partial_alter u name attrs) d
  = dimensionUpdate css prop h attrs d.
Proof.
  intros Hne. unfold dimensionUpdate. by rewrite lookup_partial_alter_ne.
Qed.

Section svg_updates.
Variable css : CSS.
Let V := patchStyle
           (list_to_map [("visibility", decl "visible"); ("display", decl "block")]).
Let Dh := styleUpdate "height" (dimensionUpdate css "height").
Let Dw := styleUpdate "width" (dimensionUpdate css "width").
Let Ax := attrUpdate "xmlns" (defaulted "http://www.w3.org/2000/svg").
Let Af := attrUpdate "fill" (defaulted "#E2E8F0").
Let As := attrUpdate "stroke" (defaulted "#CBD5E1").
Let Aw := attrUpdate "stroke-width" (defaulted "1").

Lemma svgElement_updates e : svgElement css e = (V ∘ (Dh ∘ (Dw ∘ Ax))) e.
Proof.
  unfold svgElement. simpl.
  by rewrite !inlineDimension_styleUpdate, defaultAttribute_attrUpdate.
Qed.

Lemma polygonElement_updates e : polygonElement e = (Aw ∘ (As ∘ Af)) e.
Proof. unfold polygonElement. simpl. by rewrite !defaultAttribute_attrUpdate. Qed.

Local Lemma V_idemp e : V (V e) = V e.
Proof. apply patchStyle_idemp. Qed.
Local Lemma Dh_idemp e : Dh (Dh e) = Dh e.
Proof. apply styleUpdate_idemp, dimensionUpdate_idemp. Qed.
Local Lemma Dw_idemp e : Dw (Dw e) = Dw e.
Proof. apply styleUpdate_idemp, dimensionUpdate_idemp. Qed.
Local Lemma Ax_idemp e : Ax (Ax e) = Ax e.
Proof. apply attrUpdate_idemp, defaulted_idemp. Qed.
Local Lemma Af_idemp e : Af (Af e) = Af e.
Proof. apply attrUpdate_idemp, defaulted_idemp. Qed.
Local Lemma As_idemp e : As (As e) = As e.
Proof. apply attrUpdate_idemp, defaulted_idemp. Qed.
Local Lemma Aw_idemp e : Aw (Aw e) = Aw e.
Proof. apply attrUpdate_idemp, defaulted_idemp. Qed.

Local Lemma V_Dh : commuting V Dh.
Proof. by apply commuting_sym, styleUpdate_patchStyle. Qed.
Local Lemma V_Dw : commuting V Dw.
Proof. by apply commuting_sym, styleUpdate_patchStyle. Qed.
Local Lemma V_attr name u : commuting V (attrUpdate name u).
Proof. by intros e. Qed.
Local Lemma Dh_Dw : commuting Dh Dw.
Proof. by apply styleUpdate_styleUpdate. Qed.
Local Lemma Dh_attr name u : name ≠ "height" → commuting Dh (attrUpdate name u).
Proof.
  intros Hne. apply styleUpdate_attrUpdate. intros. by apply dimensionUpdate_attrs.
Qed.
Local Lemma Dw_attr name u : name ≠ "width" → commuting Dw (attrUpdate name u).
Proof.
  intros Hne. apply styleUpdate_attrUpdate. intros. by apply dimensionUpdate_attrs.
Qed.

Local Lemma svg_attr name u :
  name ≠ "height" → name ≠ "width" → name ≠ "xmlns" →
  commuting (V ∘ (Dh ∘ (Dw ∘ Ax))) (attrUpdate name u).
Proof.
  intros H1 H2 H3. apply commuting_sym.
  repeat apply commuting_compose; apply commuting_sym.
  - apply V_attr.
  - by apply Dh_attr.
  - by apply Dw_attr.
  - by apply attrUpdate_attrUpdate.
Qed.

Lemma svgElement_idemp e : svgElement css (svgElement css e) = svgElement css e.
Proof.
  rewrite !svgElement_updates. revert e.
  apply idemp_compose; [apply V_idemp| |].
  - apply idemp_compose; [apply Dh_idemp| |].
    + apply idemp_compose; [apply Dw_idemp|apply Ax_idemp|by apply Dw_attr].
    + apply commuting_compose; [apply Dh_Dw|by apply Dh_attr].
  - repeat apply commuting_compose;
      [apply V_Dh|apply V_Dw|apply V_attr].
Qed.

Lemma polygonElement_idemp e : polygonElement (polygonElement e) = polygonElement e.
Proof.
  rewrite !polygonElement_updates. revert e.
  apply idemp_compose; [apply Aw_idemp| |].
  - apply idemp_compose; [apply As_idemp|apply Af_idemp|].
    by apply attrUpdate_attrUpdate.
  - apply commuting_compose; by apply attrUpdate_attrUpdate.
Qed.

Lemma svgElement_polygonElement : commuting (svgElement css) polygonElement.
Proof.
  intros e. rewrite !svgElement_updates, !polygonElement_updates. revert e.
  repeat apply commuting_compose; by apply svg_attr.
Qed.
End svg_updates.

Lemma svgPlan_frames css (d d' : Dom) svg :
  frames d = frames d' → svgPlan css d svg = svgPlan css d' svg.
Proof. intros H. unfold svgPlan. by rewrite (frames_querySelectorAll d d'). Qed.

Lemma bind_plan_frames {A B} (planOf : Dom → A → list B) (l : list A)
    (d d' : Dom) :
  (∀ x, planOf d x = planOf d' x) → l ≫= planOf d = l ≫= planOf d'.
Proof. intros H. apply list_bind_ext; [|done]. intros y. apply H. Qed.

Lemma processSvgElements_idemp css svgElements (dom : Dom) :
  processSvgElements css svgElements (processSvgElements css svgElements dom)
  = processSvgElements css svgElements dom.
Proof.
  pose proof (svgPlan_steps css dom svgElements) as Hsteps.
  rewrite (processSvgElements_plan _ _ (processSvgElements css svgElements dom)).
  rewrite (bind_plan_frames (svgPlan css) _ _ dom).
  2:{ intros svg. apply svgPlan_frames. rewrite processSvgElements_plan.
      apply applyPlan_frames, bind_Forall, svgPlan_keeps. }
  rewrite processSvgElements_plan. rewrite Forall_forall in Hsteps.
  apply applyPlan_idemp.
  - apply Forall_forall. intros nf [-> | ->]%Hsteps e.
    + apply svgElement_idemp.
    + apply polygonElement_idemp.
  - intros nf nf' [-> | ->]%Hsteps [-> | ->]%Hsteps; try by intros e.
    + apply svgElement_polygonElement.
    + apply commuting_sym, svgElement_polygonElement.
Qed.

(** *** Patches *)

Section patching.
Variable t : Element → Element.
Variable ok : gmap string Declaration → Prop.
Variable D : Element → Prop.
Hypothesis t_idemp : ∀ e, t (t e) = t e.
Hypothesis t_patch : ∀ p, ok p → commuting t (patchStyle p).
Hypothesis ok_empty : ok ∅.
Hypothesis ok_union : ∀ p q, ok p → ok q → ok (p ∪ q).

Lemma patching_id : patching t ok D id.
Proof.
  exists ∅, false. split; [done|]. intros x Hx. by rewrite patchStyle_empty.
Qed.

Lemma patching_compose f g :
  patching t ok D f → patching t ok D g → patching t ok D (f ∘ g).
Proof.
  intros (p & b & Hp & Hf) (q & c & Hq & Hg).
  exists (p ∪ q), (b || c). split; [by apply ok_union|].
  intros x Hx. destruct (Hg x Hx) as [Hgx HD].
  destruct (Hf (g x) HD) as [Hfx HD']. split; [|done].
  simpl. rewrite Hfx, Hgx. destruct b, c; simpl;
    rewrite ?(t_patch q Hq), ?t_idemp; apply patchStyle_patchStyle.
Qed.

Lemma patching_idemp f x : patching t ok D f → D x → f (f x) = f x.
Proof.
  intros (p & b & Hp & Hf) Hx. destruct (Hf x Hx) as [Hfx HD].
  destruct (Hf (f x) HD) as [Hffx _]. rewrite Hffx, Hfx.
  destruct b; rewrite ?(t_patch p Hp), ?t_idemp; apply patchStyle_idemp.
Qed.

Lemma patching_planAt plan q :
  Forall (λ nf : nat * (Element → Element),
            nf.1 = q → patching t ok D nf.2) plan →
  patching t ok D (planAt plan q).
Proof.
  induction plan as [|[n f] plan IH] using rev_ind; intros Hsteps.
  { apply patching_id. }
  apply Forall_app in Hsteps as [Hplan Hf].
  rewrite Forall_singleton in Hf.
  specialize (IH Hplan). simpl in Hf.
  destruct IH as (p & b & Hp & IH).
  destruct (decide (n = q)) as [->|Hn].
  - destruct (patching_compose f (planAt plan q) (Hf eq_refl))
      as (p' & b' & Hp' & H'); [by exists p, b|].
    exists p', b'. split; [done|]. intros x Hx.
    rewrite planAt_app. change (planAt [(q, f)] q ?y) with
      (if decide (q = q) then f y else y). rewrite decide_True by done.
    by apply H'.
  - exists p, b. split; [done|]. intros x Hx.
    rewrite planAt_app. change (planAt [(n, f)] q ?y) with
      (if decide (n = q) then f y else y). rewrite decide_False by done.
    by apply IH.
Qed.
End patching.

Lemma applyPlan_idemp_pointwise plan (dom : Dom) :
  (∀ q e, dom !! q = Some e → planAt plan q (planAt plan q e) = planAt plan q e) →
  applyPlan plan (applyPlan plan dom) = applyPlan plan dom.
Proof.
  intros H. apply list_eq. intros q. rewrite !applyPlan_lookup.
  destruct (dom !! q) as [e|] eqn:He; [|done]. simpl. by rewrite H.
Qed.

(** *** [processImages] twice *)

Lemma imagePlan_keeps window d (dom : Dom) img :
  Forall (λ nf : nat * (Element → Element), keeps_frame nf.2)
    (imagePlan window d dom img).
Proof.
  unfold imagePlan. apply Forall_cons. split; [apply keeps_frame_imageElement|].
  destruct (elem_parent dom img) as [c|]; [|done].
  destruct (elem_isHTML dom c); [|done].
  apply Forall_singleton, keeps_frame_patchStyle.
Qed.

Lemma imagePlan_frames window d (dom dom' : Dom) img :
  frames dom = frames dom' → imagePlan window d dom img = imagePlan window d dom' img.
Proof.
  intros H. unfold imagePlan. rewrite (frames_parent dom dom' img H).
  destruct (elem_parent dom' img) as [c|]; [|done].
  by rewrite (frames_isHTML dom dom' c H).
Qed.

Lemma processImage_plan window d img (dom : Dom) :
  processImage window d img dom = applyPlan (imagePlan window d dom img) dom.
Proof.
  rewrite processImage_local. unfold imagePlan. cbv zeta.
  rewrite applyPlan_cons.
  destruct (elem_parent dom img) as [c|]; [|done].
  by destruct (elem_isHTML dom c).
Qed.

Lemma processImages_plan window images objectFitDefault (dom : Dom) :
  processImages window images objectFitDefault dom
  = applyPlan (images ≫= imagePlan window (default "cover" objectFitDefault) dom) dom.
Proof.
  unfold processImages. apply forEach_plan.
  - intros img. apply imagePlan_keeps.
  - intros img d' _ Hd. rewrite processImage_plan.
    by rewrite (imagePlan_frames _ _ d' dom).
Qed.

Lemma imagePlan_steps window d (dom : Dom) images :
  Forall (λ nf : nat * (Element → Element),
            nf.2 = imageElement window d nf.1 ∨ nf.2 = patchStyle containerPatch)
    (images ≫= imagePlan window d dom).
Proof.
  apply bind_Forall. intros img. unfold imagePlan.
  apply Forall_cons. split; [by left|].
  destruct (elem_parent dom img) as [c|]; [|done].
  destruct (elem_isHTML dom c); [|done]. apply Forall_singleton. by right.
Qed.

Lemma processImages_idemp window images objectFitDefault (dom : Dom) :
  processImages window images objectFitDefault
    (processImages window images objectFitDefault dom)
  = processImages window images objectFitDefault dom.
Proof.
  set (d := default "cover" objectFitDefault).
  rewrite (processImages_plan _ _ _ (processImages window images objectFitDefault dom)).
  fold d. rewrite (bind_plan_frames (imagePlan window d) _ _ dom).
  2:{ intros img. apply imagePlan_frames. rewrite processImages_plan.
      apply applyPlan_frames, bind_Forall. intros. apply imagePlan_keeps. }
  rewrite processImages_plan. fold d.
  apply applyPlan_idemp_pointwise. intros q e _.
  apply (patching_idemp (with_crossOrigin (Some "anonymous")) (λ _, True)
           (λ x, resolvedObjectFit window d q x = resolvedObjectFit window d q e));
    [done|by intros p _ x| |done].
  apply patching_planAt; [done|by intros p _ x|done|done|].
  eapply Forall_impl; [apply imagePlan_steps|].
  intros [n f] [-> | ->] Hn; simpl in *.
  - subst n. exists (fitPatch (resolvedObjectFit window d q e)
                 ∪ list_to_map [("visibility", decl "visible");
                                ("display", decl "block")]), true.
    split; [done|]. intros x Hx. split.
    + unfold imageElement. by rewrite Hx.
    + by rewrite resolvedObjectFit_imageElement.
  - exists containerPatch, false. split; [done|]. intros x Hx. split; [done|].
    by rewrite resolvedObjectFit_container.
Qed.

(** *** [processTextElements] twice *)

Lemma runSteps_cons s steps (dom : Dom) :
  runSteps (s :: steps) dom = runSteps steps (runStep s dom).
Proof. done. Qed.

Lemma runSteps_app steps1 steps2 (dom : Dom) :
  runSteps (steps1 ++ steps2) dom = runSteps steps2 (runSteps steps1 dom).
Proof. unfold runSteps. by rewrite foldl_app. Qed.

Lemma keeps_frame_reassertElement prop : keeps_frame (reassertElement prop).
Proof.
  intros e. unfold reassertElement. case_decide; [|done].
  apply keeps_frame_setProperty.
Qed.

Lemma keeps_frame_fontElement : keeps_frame fontElement.
Proof. intros e. unfold fontElement. by rewrite !keeps_frame_reassertElement. Qed.

Lemma keeps_frame_transparentElement window parent :
  keeps_frame (transparentElement window parent).
Proof. intros e. unfold transparentElement. by destruct (real_background _). Qed.

Lemma keeps_frame_inheritElement color : keeps_frame (inheritElement color).
Proof.
  intros e. unfold inheritElement. destruct (_ && _); [|done].
  apply keeps_frame_setProperty.
Qed.

Lemma inheritElement_patchStyle color p :
  p !! "color" = None → commuting (patchStyle p) (inheritElement color).
Proof.
  intros Hp. apply commuting_sym.
  apply (commuting_ext _ (styleUpdate "color" (inheritUpdate color)));
    [apply inheritElement_styleUpdate|]. by apply styleUpdate_patchStyle.
Qed.

Lemma blockPatch_lookup backgroundColor prop :
  prop ≠ "background-color" → prop ≠ "padding" →
  blockPatch backgroundColor !! prop = None.
Proof.
  intros H1 H2. unfold blockPatch. simpl.
  by rewrite !lookup_insert_ne, lookup_empty by congruence.
Qed.

Lemma colorless_blockElement window el : colorless (blockElement window el).
Proof.
  split_and!.
  - apply keeps_frame_blockElement.
  - by apply keeps_decl_blockElement.
  - intros color. unfold blockElement. cbv zeta.
    destruct (real_background _); [|by intros e].
    apply inheritElement_patchStyle. by apply blockPatch_lookup.
Qed.

Lemma colorless_transparentElement window el :
  colorless (transparentElement window el).
Proof.
  split_and!.
  - apply keeps_frame_transparentElement.
  - by apply keeps_decl_transparentElement.
  - intros color. unfold transparentElement.
    destruct (real_background _); [|by intros e].
    by apply inheritElement_patchStyle.
Qed.

Lemma fontElement_updates e :
  fontElement e
  = (styleUpdate "font-weight" reassertUpdate
       ∘ (styleUpdate "font-size" reassertUpdate
            ∘ styleUpdate "font-family" reassertUpdate)) e.
Proof. unfold fontElement. simpl. by rewrite !reassertElement_styleUpdate. Qed.

Lemma colorless_fontElement : colorless fontElement.
Proof.
  split_and!.
  - apply keeps_frame_fontElement.
  - by apply keeps_decl_fontElement.
  - intros color. apply (commuting_ext _ _ _ fontElement_updates).
    apply commuting_sym.
    apply (commuting_ext _ (styleUpdate "color" (inheritUpdate color)));
      [apply inheritElement_styleUpdate|].
    repeat apply commuting_compose; by apply styleUpdate_styleUpdate.
Qed.

Lemma text_step_colorless window (dom : Dom) n f :
  text_step window dom (StepUpdate n f) → colorless f.
Proof.
  intros [[el ->]|[->|[el ->]]].
  - apply colorless_blockElement.
  - apply colorless_fontElement.
  - apply colorless_transparentElement.
Qed.

Lemma elem_style_alter_keeps f n (dom : Dom) m prop :
  keeps_decl prop f → elem_style (alter f n dom) m prop = elem_style dom m prop.
Proof.
  intros Hf. unfold elem_style. rewrite list_lookup_alter.
  case_decide; [subst|done]. destruct (dom !! m) as [e|]; [|done]. simpl.
  unfold getPropertyValue. by rewrite Hf.
Qed.

Lemma runStep_color_alter c nodes f n (dom : Dom) :
  colorless f →
  runStep (StepColor c nodes) (alter f n dom)
  = alter f n (runStep (StepColor c nodes) dom).
Proof.
  intros (_ & Hk & Hc). simpl. rewrite elem_style_alter_keeps by done.
  case_decide; [|done]. apply applyPlan_alter_commute.
  unfold uniformPlan. apply Forall_fmap, Forall_true. intros m. apply Hc.
Qed.

Lemma runSteps_color_alter steps f n (dom : Dom) :
  Forall (λ s, is_color s = true) steps → colorless f →
  runSteps steps (alter f n dom) = alter f n (runSteps steps dom).
Proof.
  intros Hsteps Hf. revert dom.
  induction steps as [|[m g|c nodes] steps IH]; intros dom; [done| |].
  { by apply Forall_cons in Hsteps as [? _]. }
  apply Forall_cons in Hsteps as [_ Hsteps].
  rewrite !runSteps_cons, runStep_color_alter by done. by apply IH.
Qed.

Lemma colorSteps_color steps : Forall (λ s, is_color s = true) (colorSteps steps).
Proof. apply Forall_forall. by intros s [? _]%list_elem_of_filter. Qed.

(** The propagations of colour can be done first. *)
Lemma runSteps_split window (dom0 : Dom) steps (dom : Dom) :
  Forall (text_step window dom0) steps →
  runSteps steps dom = runSteps (restSteps steps) (runSteps (colorSteps steps) dom).
Proof.
  intros Hsteps. revert dom.
  induction steps as [|[n f|c nodes] steps IH]; intros dom; [done| |];
    apply Forall_cons in Hsteps as [Hs Hsteps]; rewrite runSteps_cons, IH by done.
  - unfold restSteps, colorSteps.
    rewrite filter_cons_True, filter_cons_False by done.
    rewrite runSteps_cons. simpl. f_equal.
    apply runSteps_color_alter; [apply colorSteps_color|].
    by apply (text_step_colorless window dom0 n).
  - unfold restSteps, colorSteps.
    by rewrite filter_cons_False, filter_cons_True by done.
Qed.

Lemma runSteps_swap window (dom0 : Dom) colors rest (dom : Dom) :
  Forall (λ s, is_color s = true) colors →
  Forall (λ s, is_color s = false) rest → Forall (text_step window dom0) rest →
  runSteps colors (runSteps rest dom) = runSteps rest (runSteps colors dom).
Proof.
  intros Hc Hr Hw. revert dom.
  induction rest as [|[n f|c nodes] rest IH]; intros dom; [done| |].
  - apply Forall_cons in Hr as [_ Hr]. apply Forall_cons in Hw as [Hf Hw].
    rewrite !runSteps_cons, IH by done. simpl. f_equal.
    apply runSteps_color_alter; [done|].
    by apply (text_step_colorless window dom0 n).
  - by apply Forall_cons in Hr as [? _].
Qed.

Lemma processTextElement_steps window element (dom : Dom) :
  processTextElement window element dom
  = runSteps (textSteps window dom element) dom.
Proof.
  rewrite processTextElement_plan. unfold textPlan, textSteps.
  destruct (elem_isHTML dom element); [|done].
  rewrite applyPlan_cons, runSteps_cons.
  destruct (querySelector dom element contentSelector) as [c|]; [|done].
  destruct (elem_isHTML dom c); [|done].
  unfold contentPlan. rewrite applyPlan_app.
  rewrite runSteps_cons. simpl.
  rewrite (elem_style_alter_keeps (blockElement window element))
    by (by apply keeps_decl_blockElement).
  by case_decide.
Qed.

Lemma textSteps_frames window (d d' : Dom) element :
  frames d = frames d' → textSteps window d element = textSteps window d' element.
Proof.
  intros H. unfold textSteps. rewrite (frames_isHTML d d' element H).
  rewrite (frames_querySelector d d') by done.
  destruct (querySelector d' element contentSelector) as [c|]; [|done].
  rewrite (frames_isHTML d d' c H).
  by rewrite (frames_querySelectorAll d d').
Qed.

Lemma textSteps_wf window (dom : Dom) element :
  Forall (text_step window dom) (textSteps window dom element).
Proof.
  unfold textSteps. destruct (elem_isHTML dom element); [|done].
  apply Forall_cons. split; [left; eauto|].
  destruct (querySelector dom element contentSelector) as [c|]; [|done].
  destruct (elem_isHTML dom c); [|done].
  repeat apply Forall_cons_2; try done; simpl; eauto.
Qed.

Lemma runStep_frames window (dom0 : Dom) s (dom : Dom) :
  text_step window dom0 s → frames (runStep s dom) = frames dom.
Proof.
  destruct s as [n f|c nodes]; intros Hs; simpl.
  - apply frames_alter. by destruct (text_step_colorless _ _ _ _ Hs).
  - case_decide; [|done].
    apply applyPlan_frames, uniformPlan_keeps, keeps_frame_inheritElement.
Qed.

Lemma runSteps_frames window (dom0 : Dom) steps (dom : Dom) :
  Forall (text_step window dom0) steps → frames (runSteps steps dom) = frames dom.
Proof.
  revert dom. induction steps as [|s steps IH]; intros dom Hs; [done|].
  apply Forall_cons in Hs as [Hs Hsteps].
  rewrite runSteps_cons, IH by done. by apply (runStep_frames window dom0).
Qed.

Lemma processTextElements_steps window textElements (dom : Dom) :
  processTextElements window textElements dom
  = runSteps (textElements ≫= textSteps window dom) dom.
Proof.
  unfold processTextElements.
  assert (∀ d, frames d = frames dom →
            forEach textElements (processTextElement window) d
            = runSteps (textElements ≫= textSteps window dom) d) as H; [|by apply H].
  induction textElements as [|x l IH]; intros d Hd; [done|].
  rewrite forEach_cons, bind_cons, runSteps_app.
  rewrite processTextElement_steps, (textSteps_frames window d dom) by done.
  apply IH. rewrite <- Hd.
  apply (runSteps_frames window dom), textSteps_wf.
Qed.

Lemma textSteps_bind_wf window (dom : Dom) textElements :
  Forall (text_step window dom) (textElements ≫= textSteps window dom).
Proof. apply bind_Forall. intros. apply textSteps_wf. Qed.

(** The updates of a run, twice. *)

Lemma reassertUpdate_idemp h attrs d :
  reassertUpdate h attrs (reassertUpdate h attrs d) = reassertUpdate h attrs d.
Proof.
  unfold reassertUpdate.
  destruct (decide (value_of d ≠ "")) as [Hd|Hd]; [|by rewrite decide_False].
  assert (declared (value_of d) true = Some (mkDecl (value_of d) true)) as Hdecl
    by (unfold declared; by rewrite decide_False).
  rewrite Hdecl. simpl. by rewrite decide_True.
Qed.

Lemma fontElement_idemp e : fontElement (fontElement e) = fontElement e.
Proof.
  rewrite !fontElement_updates. revert e.
  apply idemp_compose; [apply styleUpdate_idemp, reassertUpdate_idemp| |].
  - apply idemp_compose;
      [apply styleUpdate_idemp, reassertUpdate_idemp
      |apply styleUpdate_idemp, reassertUpdate_idemp
      |by apply styleUpdate_styleUpdate].
  - apply commuting_compose; by apply styleUpdate_styleUpdate.
Qed.

Lemma fontElement_patchStyle p :
  fontless p → commuting fontElement (patchStyle p).
Proof.
  intros (H1 & H2 & H3). apply (commuting_ext _ _ _ fontElement_updates).
  apply commuting_sym.
  repeat apply commuting_compose; apply commuting_sym;
    by apply styleUpdate_patchStyle.
Qed.

Lemma fontless_union p q : fontless p → fontless q → fontless (p ∪ q).
Proof.
  intros (H1 & H2 & H3) (H1' & H2' & H3'). unfold fontless.
  rewrite !lookup_union, H1, H2, H3, H1', H2', H3'. done.
Qed.

Lemma text_update_patching window (dom : Dom) n f :
  text_step window dom (StepUpdate n f) →
  patching fontElement fontless (λ _, True) f.
Proof.
  intros [[el ->]|[->|[el ->]]].
  - unfold blockElement. cbv zeta. destruct (real_background _).
    + exists (blockPatch (cs_backgroundColor (getComputedStyle window el))), false.
      split; [|done]. split_and!; by apply blockPatch_lookup.
    + exists ∅, false. split; [done|]. intros x _. by rewrite patchStyle_empty.
  - exists ∅, true. split; [done|]. intros x _. by rewrite patchStyle_empty.
  - unfold transparentElement. destruct (real_background _).
    + by exists {["background-color" := important "transparent"]}, false.
    + exists ∅, false. split; [done|]. intros x _. by rewrite patchStyle_empty.
Qed.

Lemma runSteps_stepPlan steps (dom : Dom) :
  Forall (λ s, is_color s = false) steps →
  runSteps steps dom = applyPlan (stepPlan steps) dom.
Proof.
  revert dom. induction steps as [|[n f|c nodes] steps IH]; intros dom Hs; [done| |].
  - apply Forall_cons in Hs as [_ Hs]. rewrite runSteps_cons, IH by done. done.
  - by apply Forall_cons in Hs as [? _].
Qed.

Lemma stepPlan_patching window (dom0 : Dom) steps q :
  Forall (text_step window dom0) steps →
  Forall (λ nf : nat * (Element → Element),
            nf.1 = q → patching fontElement fontless (λ _, True) nf.2)
    (stepPlan steps).
Proof.
  induction steps as [|[n f|c nodes] steps IH]; intros Hw; [done| |];
    apply Forall_cons in Hw as [Hs Hw]; unfold stepPlan; rewrite bind_cons.
  - apply Forall_app. split; [|by apply IH].
    apply Forall_singleton. intros _. by apply (text_update_patching window dom0 n).
  - by apply IH.
Qed.

Lemma restSteps_idemp window (dom0 : Dom) steps (dom : Dom) :
  Forall (λ s, is_color s = false) steps → Forall (text_step window dom0) steps →
  runSteps steps (runSteps steps dom) = runSteps steps dom.
Proof.
  intros Hc Hw. rewrite !runSteps_stepPlan by done.
  apply applyPlan_idemp_pointwise. intros q e _.
  apply (patching_idemp fontElement fontless (λ _, True));
    [apply fontElement_idemp|apply fontElement_patchStyle| |done].
  apply patching_planAt;
    [apply fontElement_idemp|apply fontElement_patchStyle|done
    |apply fontless_union|].
  by apply (stepPlan_patching window dom0).
Qed.

(** The propagations of colour, twice. *)

Lemma ancestors_fuel (dom : Dom) (k k' n : nat) :
  document_order dom = true → (n ≤ k)%nat → (n ≤ k')%nat →
  ancestors k dom n = ancestors k' dom n.
Proof.
  intros Hord. revert k' n. induction k as [|k IH]; intros k' n Hk Hk'.
  - assert (n = 0) as -> by lia. destruct k' as [|k']; [done|]. simpl.
    destruct (elem_parent dom 0) as [p|] eqn:Hp; [|done].
    apply (document_order_parent dom 0 p Hord) in Hp. lia.
  - simpl. destruct (elem_parent dom n) as [p|] eqn:Hp.
    + pose proof (document_order_parent dom n p Hord Hp).
      destruct k' as [|k']; [lia|]. simpl. rewrite Hp. f_equal. apply IH; lia.
    + destruct k' as [|k']; [done|]. simpl. by rewrite Hp.
Qed.

Lemma ancestors_trans (dom : Dom) (k k' n c c' : nat) :
  document_order dom = true → (n ≤ k)%nat → (c ≤ k')%nat →
  c ∈ ancestors k dom n → c' ∈ ancestors k' dom c → c' ∈ ancestors k dom n.
Proof.
  intros Hord. revert n. induction k as [|k IH]; intros n Hk Hk' Hc Hc'.
  { by apply elem_of_nil in Hc. }
  simpl in *. destruct (elem_parent dom n) as [p|] eqn:Hp;
    [|by apply elem_of_nil in Hc].
  pose proof (document_order_parent dom n p Hord Hp).
  right. apply elem_of_cons in Hc as [->|Hc].
  - rewrite (ancestors_fuel dom k k' p) by (done || lia). done.
  - apply (IH p); [lia|done..].
Qed.

Lemma descendants_trans (dom : Dom) c' c n :
  document_order dom = true →
  c ∈ descendants dom c' → n ∈ descendants dom c → n ∈ descendants dom c'.
Proof.
  intros Hord Hc Hn. pose proof (descendants_lt dom c n Hord Hn).
  apply descendants_spec in Hc as [Hc _].
  apply descendants_spec in Hn as [Hn Hlt].
  apply descendants_spec. split; [|done].
  apply (ancestors_trans dom _ (length dom) n c c'); (done || lia).
Qed.

Lemma runStep_color_lookup c nodes (dom : Dom) n :
  runStep (StepColor c nodes) dom !! n
  = (λ e, if decide (colored dom c ∧ n ∈ nodes)
          then inheritElement (elem_style dom c "color") e else e) <$> dom !! n.
Proof.
  simpl. unfold colored. case_decide as Hc.
  - rewrite applyPlan_lookup. destruct (dom !! n) as [e|]; [|done]. simpl.
    rewrite planAt_uniform by (intros; by apply inheritElement_idemp).
    f_equal. apply decide_ext. tauto.
  - destruct (dom !! n) as [e|]; [|done]. simpl.
    rewrite decide_False; [done|]. tauto.
Qed.

Section color_runs.
Variable window : Window.
Variable dom0 : Dom.
Hypothesis Hord : document_order dom0 = true.

Lemma color_persists c nodes (dom : Dom) n :
  colored dom n →
  elem_style (runStep (StepColor c nodes) dom) n "color"
  = elem_style dom n "color".
Proof.
  intros Hn. unfold colored, elem_style in *. rewrite runStep_color_lookup.
  destruct (dom !! n) as [e|]; [|done]. simpl.
  case_decide; [|done]. by rewrite inheritElement_color.
Qed.

Lemma color_fills c (dom : Dom) n :
  frames dom = frames dom0 →
  colored dom c → n ∈ descendants dom0 c → elem_isHTML dom0 n = true →
  colored (runStep (StepColor c (querySelectorAll dom0 c [SelUniversal])) dom) n.
Proof.
  intros Hfr Hc Hn Hh. unfold colored, elem_style. rewrite runStep_color_lookup.
  rewrite <- (frames_isHTML dom dom0 n Hfr) in Hh. unfold elem_isHTML in Hh.
  destruct (dom !! n) as [e|]; [|done]. simpl.
  rewrite decide_True by (split; [done|by apply querySelectorAll_universal]).
  destruct (decide (getPropertyValue e "color" = "")) as [He|He].
  - unfold inheritElement. rewrite Hh, He. simpl.
    rewrite getPropertyValue_setProperty by auto. by rewrite decide_True.
  - by rewrite inheritElement_color.
Qed.

Lemma color_only c nodes (dom : Dom) n :
  ¬ colored dom n → colored (runStep (StepColor c nodes) dom) n →
  colored dom c ∧ n ∈ nodes.
Proof.
  unfold colored at 1 2. unfold elem_style. rewrite runStep_color_lookup.
  destruct (dom !! n) as [e|]; [|done]. simpl. by case_decide.
Qed.

Lemma applyPlan_fix plan (dom : Dom) :
  Forall (λ nf : nat * (Element → Element),
            ∀ e, dom !! nf.1 = Some e → nf.2 e = e) plan →
  applyPlan plan dom = dom.
Proof.
  induction plan as [|[n f] plan IH]; intros Hp; [done|].
  apply Forall_cons in Hp as [Hf Hp]. rewrite applyPlan_cons.
  rewrite alter_fix by apply Hf. by apply IH.
Qed.

Lemma color_fix c (dom : Dom) :
  frames dom = frames dom0 → closed dom0 dom c →
  runStep (StepColor c (querySelectorAll dom0 c [SelUniversal])) dom = dom.
Proof.
  intros Hfr Hcl. simpl. case_decide as Hc; [|done].
  apply applyPlan_fix. unfold uniformPlan. apply Forall_fmap, Forall_forall.
  intros n Hn%querySelectorAll_descendants e He. simpl in *.
  destruct (isHTMLElement e) eqn:Hh.
  - apply inheritElement_color.
    rewrite <- (elem_style_Some dom n e "color" He). apply Hcl; [done..|].
    rewrite <- (frames_isHTML dom dom0 n Hfr).
    by rewrite (elem_isHTML_Some dom n e He).
  - unfold inheritElement. by rewrite Hh.
Qed.

Lemma closed_step c' (dom : Dom) (C : list nat) :
  frames dom = frames dom0 →
  (∀ c, c ∈ C → closed dom0 dom c) →
  ∀ c, c ∈ c' :: C →
    closed dom0
      (runStep (StepColor c' (querySelectorAll dom0 c' [SelUniversal])) dom) c.
Proof.
  intros Hfr HC c Hc Hcol n Hn Hh.
  destruct (decide (colored dom c)) as [Hc0|Hc0].
  - apply elem_of_cons in Hc as [->|Hc]; [by apply color_fills|].
    unfold colored. rewrite color_persists; by apply (HC c).
  - destruct (color_only _ _ _ _ Hc0 Hcol) as [Hc' Hin].
    apply color_fills; [done..| |done].
    apply (descendants_trans dom0 c' c n); [done| |done].
    by apply querySelectorAll_descendants in Hin.
Qed.

Lemma closed_run steps (dom : Dom) (C : list nat) :
  Forall (λ s, is_color s = true) steps → Forall (text_step window dom0) steps →
  frames dom = frames dom0 →
  (∀ c, c ∈ C → closed dom0 dom c) →
  ∀ c, c ∈ C ∨ c ∈ stepContents steps → closed dom0 (runSteps steps dom) c.
Proof.
  revert dom C. induction steps as [|[n f|c' nodes] steps IH];
    intros dom C Hcol Hw Hfr HC c Hc.
  - destruct Hc as [Hc|Hc]; [by apply HC|by apply elem_of_nil in Hc].
  - by apply Forall_cons in Hcol as [? _].
  - apply Forall_cons in Hcol as [_ Hcol]. apply Forall_cons in Hw as [Hs Hw].
    simpl in Hs. subst nodes. rewrite runSteps_cons.
    apply (IH _ (c' :: C)); [done|done| | |].
    + rewrite <- Hfr. by apply (runStep_frames window dom0).
    + by apply closed_step.
    + destruct Hc as [Hc|Hc]; [left; by right|].
      unfold stepContents in Hc. rewrite bind_cons in Hc.
      apply elem_of_app in Hc as [Hc|Hc]; [|by right].
      left. apply list_elem_of_singleton in Hc as ->. left.
Qed.

Lemma closed_fix steps (dom : Dom) :
  Forall (λ s, is_color s = true) steps → Forall (text_step window dom0) steps →
  frames dom = frames dom0 →
  (∀ c, c ∈ stepContents steps → closed dom0 dom c) →
  runSteps steps dom = dom.
Proof.
  induction steps as [|[n f|c' nodes] steps IH]; intros Hcol Hw Hfr HC; [done| |].
  - by apply Forall_cons in Hcol as [? _].
  - apply Forall_cons in Hcol as [_ Hcol]. apply Forall_cons in Hw as [Hs Hw].
    simpl in Hs. subst nodes. rewrite runSteps_cons.
    rewrite color_fix; [|done|].
    + apply IH; [done..|]. intros c Hc. apply HC.
      unfold stepContents. rewrite bind_cons. apply elem_of_app. by right.
    + apply HC. unfold stepContents. rewrite bind_cons. apply elem_of_app.
      left. left.
Qed.

Lemma colorSteps_idemp steps :
  Forall (λ s, is_color s = true) steps → Forall (text_step window dom0) steps →
  runSteps steps (runSteps steps dom0) = runSteps steps dom0.
Proof.
  intros Hcol Hw. apply closed_fix; [done|done| |].
  - by apply (runSteps_frames window dom0).
  - intros c Hc. apply (closed_run steps dom0 []); [done..| |by right].
    intros c0 Hc0. by apply elem_of_nil in Hc0.
Qed.
End color_runs.

Lemma restSteps_rest steps : Forall (λ s, is_color s = false) (restSteps steps).
Proof. apply Forall_forall. by intros s [? _]%list_elem_of_filter. Qed.

Lemma filter_wf window (dom0 : Dom) (P : TextStep → Prop) `{!∀ s, Decision (P s)}
    steps :
  Forall (text_step window dom0) steps → Forall (text_step window dom0) (filter P steps).
Proof.
  rewrite !Forall_forall. intros Hall s [_ Hs]%list_elem_of_filter.
  by apply Hall.
Qed.

Lemma processTextElements_idemp window textElements (dom : Dom) :
  document_order dom = true →
  processTextElements window textElements
    (processTextElements window textElements dom)
  = processTextElements window textElements dom.
Proof.
  intros Hord.
  pose proof (textSteps_bind_wf window dom textElements) as Hw.
  rewrite (processTextElements_steps _ _ (processTextElements window textElements dom)).
  rewrite (bind_plan_frames (textSteps window) _ _ dom).
  2:{ intros el. apply textSteps_frames. rewrite processTextElements_steps.
      by apply (runSteps_frames window dom). }
  rewrite processTextElements_steps.
  set (steps := textElements ≫= textSteps window dom) in *.
  rewrite (runSteps_split window dom steps dom Hw).
  rewrite (runSteps_split window dom steps _ Hw).
  rewrite (runSteps_swap window dom (colorSteps steps) (restSteps steps));
    [|apply colorSteps_color|apply restSteps_rest|by apply filter_wf].
  rewrite (colorSteps_idemp window dom Hord);
    [|apply colorSteps_color|by apply filter_wf].
  apply (restSteps_idemp window dom); [apply restSteps_rest|by apply filter_wf].
Qed.

(** ** Plans, element by element *)


(** An invariant [I] kept by the updates of [q], and a property [P] that
    one of them brings about and the others keep. *)
Lemma planAt_preserves (I : Element → Prop) (plan : Plan) q e :
  Forall (λ nf, nf.1 = q → ∀ x, I x → I (nf.2 x)) plan →
  I e → I (planAt plan q e).
Proof.
  revert e. induction plan as [|[n f] plan IH]; intros e Hall He; [done|].
  apply Forall_cons in Hall as [Hn Hall]. rewrite planAt_cons.
  apply IH; [done|]. case_decide; [by apply Hn|done].
Qed.

Lemma planAt_reaches (I P : Element → Prop) (plan : Plan) q e :
  Forall (λ nf, nf.1 = q → ∀ x, I x → I (nf.2 x) ∧ (P x → P (nf.2 x))) plan →
  Exists (λ nf, nf.1 = q ∧ ∀ x, I x → P (nf.2 x)) plan →
  I e → P (planAt plan q e).
Proof.
  revert e. induction plan as [|[n f] plan IH]; intros e Hall Hex He.
  { by apply Exists_nil in Hex. }
  apply Forall_cons in Hall as [Hn Hall]. rewrite planAt_cons. simpl in Hn.
  apply Exists_cons in Hex as [[<- Hf]|Hex]; simpl in *.
  - rewrite decide_True by done.
    assert (I (f e) ∧ P (f e)) as [HI HP] by (split; [by apply Hn|by apply Hf]).
    apply (planAt_preserves (λ x, I x ∧ P x)); [|done].
    eapply Forall_impl; [exact Hall|]. intros [m g] Hm <- x [??]; simpl in *.
    destruct (Hm eq_refl x) as [??]; auto.
  - apply IH; [done|done|]. case_decide; [by apply Hn|done].
Qed.

(** ** The dimensions of an SVG root *)

Lemma svgPlan_members css (dom : Dom) svgElements nf :
  nf ∈ svgElements ≫= svgPlan css dom →
  (nf.1 ∈ svgElements ∧ nf.2 = svgElement css)
  ∨ (nf.2 = polygonElement
     ∧ ∃ svg, svg ∈ svgElements ∧ nf.1 ∈ querySelectorAll dom svg polygonSelector).
Proof.
  intros Hnf. apply list_elem_of_bind in Hnf as (svg & Hnf & Hsvg).
  unfold svgPlan in Hnf. apply elem_of_cons in Hnf as [->|Hnf]; [by left|].
  right. unfold uniformPlan in Hnf.
  apply list_elem_of_fmap in Hnf as (n & -> & Hn). simpl. eauto.
Qed.

Lemma svgPlan_head css (dom : Dom) svgElements svg :
  svg ∈ svgElements → (svg, svgElement css) ∈ svgElements ≫= svgPlan css dom.
Proof.
  intros Hin. apply list_elem_of_bind. exists svg. split; [|done]. left.
Qed.

Lemma style_defaultAttribute name value e :
  style (defaultAttribute name value e) = style e.
Proof. unfold defaultAttribute. by case_match. Qed.

Lemma style_polygonElement e : style (polygonElement e) = style e.
Proof. unfold polygonElement. by rewrite !style_defaultAttribute. Qed.

(** The declarations after one conditional assignment of a dimension. *)
Lemma style_inlineDimension css prop e prop' :
  style (inlineDimension css prop e) !! prop' =
  if decide (prop = prop' ∧ getPropertyValue e prop = "")
  then if supports css prop (js_concat (getAttribute e prop) "px")
       then Some (decl (js_concat (getAttribute e prop) "px"))
       else style e !! prop'
  else style e !! prop'.
Proof.
  unfold inlineDimension, setStyleParsed.
  rewrite (decide_False (P := js_concat _ "px" = "")) by apply js_concat_px.
  destruct (decide (getPropertyValue e prop = "")) as [He|He].
  - destruct (supports css prop _) eqn:Hs.
    + rewrite setStyle_patch by apply js_concat_px. unfold patchStyle. simpl.
      rewrite lookup_union. destruct (decide (prop = prop')) as [<-|Hne].
      * rewrite decide_True by done. rewrite lookup_singleton_eq.
        by destruct (style e !! prop).
      * rewrite decide_False by tauto. rewrite lookup_singleton_ne by done.
        by destruct (style e !! prop').
    + by case_decide.
  - rewrite decide_False by tauto. done.
Qed.

Lemma style_svgElement css e prop :
  prop ∈ ["width"; "height"] →
  style (svgElement css e) !! prop =
  if decide (getPropertyValue e prop = "")
  then if supports css prop (js_concat (getAttribute e prop) "px")
       then Some (decl (js_concat (getAttribute e prop) "px"))
       else style e !! prop
  else style e !! prop.
Proof.
  intros Hp. unfold svgElement, patchStyle. simpl. rewrite lookup_union.
  set (e1 := defaultAttribute "xmlns" "http://www.w3.org/2000/svg" e).
  assert (getPropertyValue e1 prop = getPropertyValue e prop) as Hv.
  { unfold getPropertyValue, e1. by rewrite style_defaultAttribute. }
  assert (getAttribute e1 prop = getAttribute e prop) as Ha.
  { unfold e1. rewrite getAttribute_defaultAttribute. rewrite decide_False; [done|].
    intros <-. apply elem_of_cons in Hp as [Hp|Hp]; [done|].
    by apply list_elem_of_singleton in Hp. }
  assert (style e1 !! prop = style e !! prop) as Hs.
  { unfold e1. by rewrite style_defaultAttribute. }
  apply elem_of_cons in Hp as [->|Hp];
    [|apply list_elem_of_singleton in Hp as ->].
  - rewrite !lookup_insert_ne, lookup_empty by done.
    rewrite style_inlineDimension. rewrite decide_False by (intros [? _]; done).
    rewrite style_inlineDimension, Hv, Ha, Hs.
    destruct (decide (getPropertyValue e "width" = "")).
    + rewrite decide_True by done.
      by destruct (supports css _ _), (style e !! "width").
    + rewrite decide_False by tauto. by destruct (style e !! "width").
  - rewrite !lookup_insert_ne, lookup_empty by done.
    rewrite style_inlineDimension.
    assert (getPropertyValue (inlineDimension css "width" e1) "height"
            = getPropertyValue e "height") as ->.
    { unfold getPropertyValue. rewrite style_inlineDimension.
      rewrite decide_False by (intros [? _]; done). by rewrite Hs. }
    rewrite getAttribute_inlineDimension, Ha.
    rewrite style_inlineDimension, Hs.
    rewrite (decide_False (P := "width" = "height" ∧ _)) by (intros [? _]; done).
    destruct (decide (getPropertyValue e "height" = "")).
    + rewrite decide_True by done.
      by destruct (supports css _ _), (style e !! "height").
    + rewrite decide_False by tauto. by destruct (style e !! "height").
Qed.

(** The inline dimension of a root of the collection after the run. *)
Lemma processSvgElements_dimension css svgElements (dom : Dom) svg e prop :
  svg ∈ svgElements → dom !! svg = Some e → prop ∈ ["width"; "height"] →
  elem_decl (processSvgElements css svgElements dom) svg prop =
  if decide (getPropertyValue e prop = "")
  then if supports css prop (js_concat (getAttribute e prop) "px")
       then Some (decl (js_concat (getAttribute e prop) "px"))
       else style e !! prop
  else style e !! prop.
Proof.
  intros Hin He Hp. rewrite processSvgElements_plan.
  set (plan := svgElements ≫= svgPlan css dom).
  unfold elem_decl. rewrite applyPlan_lookup, He. simpl.
  set (target := if decide (getPropertyValue e prop = "")
                 then if supports css prop (js_concat (getAttribute e prop) "px")
                      then Some (decl (js_concat (getAttribute e prop) "px"))
                      else style e !! prop
                 else style e !! prop).
  assert (prop ≠ "xmlns" ∧ prop ≠ "fill" ∧ prop ≠ "stroke"
          ∧ prop ≠ "stroke-width") as (?&?&?&?).
  { apply elem_of_cons in Hp as [->|Hp];
      [|apply list_elem_of_singleton in Hp as ->]; by split_and?. }
  assert (∀ x, getAttribute x prop = getAttribute e prop →
               style x !! prop = style e !! prop →
               style (svgElement css x) !! prop = target)
    as Hfirst.
  { intros x Ha Hs. rewrite style_svgElement by done.
    unfold target, getPropertyValue. by rewrite Hs, Ha. }
  assert (∀ x, getAttribute x prop = getAttribute e prop →
               style x !! prop = target →
               style (svgElement css x) !! prop = target)
    as Hkeep.
  { intros x Ha Hs. unfold target in *.
    destruct (decide (getPropertyValue e prop = "")) as [Hv|Hv];
      [destruct (supports css prop (js_concat (getAttribute e prop) "px"))
         eqn:Hsup|]; try (by apply Hfirst).
    rewrite style_svgElement by done. rewrite decide_False; [done|].
    unfold getPropertyValue. rewrite Hs. simpl. apply js_concat_px. }
  apply (planAt_reaches
           (λ x, getAttribute x prop = getAttribute e prop
                 ∧ (style x !! prop = style e !! prop ∨ style x !! prop = target))
           (λ x, style x !! prop = target)); [| |by auto].
  - apply Forall_forall. intros nf Hnf <- x [Ha Hs].
    destruct (svgPlan_members _ _ _ _ Hnf) as [[_ ->]|[-> _]].
    + split; [|by apply Hkeep]. split.
      * by rewrite getAttribute_svgElement.
      * right. destruct Hs as [Hs|Hs]; [by apply Hfirst|by apply Hkeep].
    + rewrite style_polygonElement. split; [|done]. split; [|done].
      unfold polygonElement. rewrite !getAttribute_defaultAttribute.
      by rewrite !decide_False by done.
  - apply Exists_exists. exists (svg, svgElement css).
    split; [by apply svgPlan_head|]. split; [done|]. intros x [Ha Hs]. simpl.
    destruct Hs as [Hs|Hs]; [by apply Hfirst|by apply Hkeep].
Qed.

(** C4, as the code has it.  For an SVG root of the collection whose
    inline width is unset, [processSvgElements] assigns the [width]
    attribute followed by [px], a missing attribute reading as [null].
    When the attribute is present and the host parses the string as a
    value of the property, it is the inline width after the run.  When
    the host does not parse it, which is the case of ["nullpx"] for a
    missing attribute and of an attribute such as ["100%"], the inline
    width is left as it was.  Likewise for the height. *)
Theorem processSvgElements_dimensions css svgElements (dom : Dom) svg e prop :
  svg ∈ svgElements → dom !! svg = Some e → prop ∈ ["width"; "height"] →
  getPropertyValue e prop = "" →
  let after := elem_decl (processSvgElements css svgElements dom) svg prop in
  (∀ value, getAttribute e prop = Some value →
     supports css prop (value +:+ "px") = true →
     after = Some (decl (value +:+ "px")))
  ∧ (∀ value, getAttribute e prop = Some value →
       supports css prop (value +:+ "px") = false → after = style e !! prop)
  ∧ (getAttribute e prop = None → supports css prop "nullpx" = false →
       after = style e !! prop).
Proof.
  intros Hin He Hp Hv after. subst after.
  rewrite (processSvgElements_dimension css svgElements dom svg e prop)
    by done.
  rewrite decide_True by done. split_and?.
  - intros value -> Hs. simpl. by rewrite Hs.
  - intros value -> Hs. simpl. by rewrite Hs.
  - intros -> Hs. change (js_concat None "px") with "nullpx". by rewrite Hs.
Qed.

Lemma processSvgElements_dimensions_witness :
  elem_decl (processSvgElements ex_css [0] [ex_sized_svg "120"]) 0 "width"
  = Some (decl "120px")
  ∧ elem_decl (processSvgElements ex_css [0] (ex_drawing ∅)) 0 "height" = None.
Proof.
  split.
  - destruct (processSvgElements_dimensions ex_css [0] [ex_sized_svg "120"] 0
                (ex_sized_svg "120") "width") as (H & _ & _).
    + left.
    + reflexivity.
    + left.
    + reflexivity.
    + apply (H "120"); reflexivity.
  - destruct (processSvgElements_dimensions ex_css [0] (ex_drawing ∅) 0
                ex_svg "height") as (_ & _ & H).
    + left.
    + reflexivity.
    + right. left.
    + reflexivity.
    + apply H; reflexivity.
Defined.

(** C4, as the specification words it, fails for an attribute whose value
    followed by [px] is no length: the root with [width="100%"] and no
    inline width does not get the inline width ["100%px"]; its inline
    width stays unset. *)
Lemma processSvgElements_percentage_not_written :
  let dom := [ex_sized_svg "100%"] in
  let final := processSvgElements ex_css [0] dom in
  elem_attr dom 0 "width" = Some "100%"
  ∧ elem_style dom 0 "width" = ""
  ∧ elem_style final 0 "width" ≠ "100%" +:+ "px"
  ∧ elem_style final 0 "width" = "".
Proof. vm_compute. split_and?; done. Qed.

(** ** Running a normaliser twice *)

(** *** The live normalisers and the styles they are reported *)

Lemma Live_forEach_snoc {A} (l : list A) x body (dom : Dom) :
  Live.forEach (l ++ [x]) body dom
  = (let '(dom', reads) := body x (Live.forEach l body dom).1 in
     (dom', ((Live.forEach l body dom).2 ++ reads)%list)).
Proof. unfold Live.forEach. by rewrite foldl_app. Qed.

(** A live run that is reported the styles of [window] is the run with
    [window]. *)
Lemma Live_forEach_reported {A} (P : Read → Prop) (l : list A)
    (body : A → Dom → Dom * list Read) (sbody : A → Dom → Dom) (dom : Dom) :
  (∀ x d, Forall P (body x d).2 → (body x d).1 = sbody x d) →
  Forall P (Live.forEach l body dom).2 →
  (Live.forEach l body dom).1 = forEach l sbody dom.
Proof.
  intros Hbody. induction l as [|x l IH] using rev_ind; intros Hall; [done|].
  rewrite Live_forEach_snoc in *. unfold forEach in *. rewrite foldl_app. simpl.
  destruct (body x (Live.forEach l body dom).1) as [dom' reads] eqn:Hx.
  simpl in *. apply Forall_app in Hall as [Hl Hr].
  rewrite <- IH by done. rewrite <- Hbody; by rewrite Hx.
Qed.

Lemma Live_processImage_reported engine window d img (dom : Dom) :
  Forall (same_objectFit window) (Live.processImage engine d img dom).2 →
  (Live.processImage engine d img dom).1 = processImage window d img dom.
Proof.
  unfold Live.processImage, processImage. cbv zeta. simpl.
  intros H. rewrite Forall_singleton in H. unfold same_objectFit in H.
  simpl in H. by rewrite H.
Qed.

Lemma Live_processImages_reported engine window images objectFitDefault
    (dom : Dom) :
  Forall (same_objectFit window)
    (Live.processImages engine images objectFitDefault dom).2 →
  (Live.processImages engine images objectFitDefault dom).1
  = processImages window images objectFitDefault dom.
Proof.
  apply Live_forEach_reported. intros img d.
  apply Live_processImage_reported.
Qed.

Lemma Live_processBlockBackground_reported engine window element (dom : Dom) :
  Forall (same_backgroundColor window)
    (Live.processBlockBackground engine element dom).2 →
  (Live.processBlockBackground engine element dom).1
  = processBlockBackground window element dom.
Proof.
  unfold Live.processBlockBackground, processBlockBackground. cbv zeta. simpl.
  intros H. rewrite Forall_singleton in H. unfold same_backgroundColor in H.
  simpl in H. by rewrite H.
Qed.

Lemma Live_processContentElement_reported engine window c parent (dom : Dom) :
  Forall (same_backgroundColor window)
    (Live.processContentElement engine c parent dom).2 →
  (Live.processContentElement engine c parent dom).1
  = processContentElement window c parent dom.
Proof.
  unfold Live.processContentElement, processContentElement. cbv zeta. simpl.
  intros H. rewrite Forall_singleton in H. unfold same_backgroundColor in H.
  simpl in H. by rewrite H.
Qed.

Lemma Live_processTextElement_reported engine window element (dom : Dom) :
  Forall (same_backgroundColor window)
    (Live.processTextElement engine element dom).2 →
  (Live.processTextElement engine element dom).1
  = processTextElement window element dom.
Proof.
  unfold Live.processTextElement, processTextElement.
  destruct (negb (elem_isHTML dom element)); [done|].
  destruct (Live.processBlockBackground engine element dom) as [dom1 reads1]
    eqn:Hb.
  assert (Forall (same_backgroundColor window) reads1 →
          dom1 = processBlockBackground window element dom) as Hblock.
  { intros H. rewrite <- (Live_processBlockBackground_reported engine);
      by rewrite Hb. }
  destruct (querySelector dom1 element contentSelector) as [c|] eqn:Hq.
  - destruct (elem_isHTML dom1 c) eqn:Hc.
    + destruct (Live.processContentElement engine c element dom1)
        as [dom2 reads2] eqn:Hcontent.
      simpl. intros [H1 H2]%Forall_app. rewrite <- Hblock by done.
      rewrite Hq, Hc.
      rewrite <- (Live_processContentElement_reported engine);
        by rewrite Hcontent.
    + simpl. intros H. rewrite <- Hblock by done. by rewrite Hq, Hc.
  - simpl. intros H. rewrite <- Hblock by done. by rewrite Hq.
Qed.

Lemma Live_processTextElements_reported engine window textElements (dom : Dom) :
  Forall (same_backgroundColor window)
    (Live.processTextElements engine textElements dom).2 →
  (Live.processTextElements engine textElements dom).1
  = processTextElements window textElements dom.
Proof.
  apply Live_forEach_reported. intros el d.
  apply Live_processTextElement_reported.
Qed.

(** C6, as the code has it.  [processSvgElements], [processShapeElements]
    and [hideUiControls], called a second time on the same scope, leave
    every element with the inline style and the attributes the first call
    gave it.  So do [processImages] and [processTextElements] whenever
    [getComputedStyle] reports, at each of its calls in the two runs, the
    same object-fit, respectively the same background colour, for a given
    element. *)
Theorem normalisers_idempotent_steady engine window css (dom : Dom) :
  document_order dom = true →
  (∀ images objectFitDefault,
     let once := Live.processImages engine images objectFitDefault dom in
     let twice := Live.processImages engine images objectFitDefault once.1 in
     Forall (same_objectFit window) (once.2 ++ twice.2)%list →
     twice.1 = once.1) ∧
  (∀ svgElements,
     processSvgElements css svgElements (processSvgElements css svgElements dom)
     = processSvgElements css svgElements dom) ∧
  (∀ textElements,
     let once := Live.processTextElements engine textElements dom in
     let twice := Live.processTextElements engine textElements once.1 in
     Forall (same_backgroundColor window) (once.2 ++ twice.2)%list →
     twice.1 = once.1) ∧
  (∀ shapeElements,
     processShapeElements shapeElements (processShapeElements shapeElements dom)
     = processShapeElements shapeElements dom) ∧
  (∀ pageElement,
     hideUiControls pageElement (hideUiControls pageElement dom)
     = hideUiControls pageElement dom).
Proof.
  intros Hord. split_and!.
  - intros images d once twice [H1 H2]%Forall_app. subst twice.
    rewrite (Live_processImages_reported engine window) by done.
    subst once. rewrite (Live_processImages_reported engine window) by done.
    apply processImages_idemp.
  - intros. apply processSvgElements_idemp.
  - intros textElements once twice [H1 H2]%Forall_app. subst twice.
    rewrite (Live_processTextElements_reported engine window) by done.
    subst once. rewrite (Live_processTextElements_reported engine window) by done.
    by apply processTextElements_idemp.
  - intros. apply processShapeElements_idemp.
  - intros. apply hideUiControls_idemp.
Qed.

Lemma normalisers_idempotent_steady_witness :
  let once := Live.processImages ex_inline_engine [1] None (ex_page ∅) in
  let twice := Live.processImages ex_inline_engine [1] None once.1 in
  twice.1 = once.1.
Proof.
  intros once twice.
  pose proof (normalisers_idempotent_steady ex_inline_engine
                (ex_window "fill" "") ex_css (ex_page ∅) eq_refl) as (Hi & _).
  apply (Hi [1] None). repeat constructor.
Defined.

(** C6, as the specification words it, fails on a page whose style sheet
    reacts to the inline styles the normaliser writes: with the rules
    [img { object-fit: cover }] and
    [img[style*=absolute] { object-fit: contain !important }], the first
    run of [processImages] emulates [cover] and the second emulates
    [contain]. *)
Lemma processImages_twice_differs :
  let once := (Live.processImages ex_reacting_engine [1] None (ex_page ∅)).1 in
  let twice := (Live.processImages ex_reacting_engine [1] None once).1 in
  elem_style once 1 "left" = "0"
  ∧ elem_style twice 1 "left" = "50%"
  ∧ twice ≠ once.
Proof.
  intros once twice. split_and?.
  - vm_compute. reflexivity.
  - vm_compute. reflexivity.
  - intros H. apply (f_equal (λ d, elem_style d 1 "left")) in H.
    vm_compute in H. discriminate H.
Qed.

(** * Further properties *)

(** ** [processImages]: visibility, containers, confinement *)

Lemma fitPatch_unrelated objectFit prop :
  prop ∉ fitProperties → fitPatch objectFit !! prop = None.
Proof.
  intros Hp. unfold fitProperties in Hp. rewrite !not_elem_of_cons in Hp.
  destruct Hp as (?&?&?&?&?&?&?&?&?&_).
  unfold fitPatch. repeat case_decide; try done;
    repeat (rewrite list_to_map_cons, lookup_insert_ne by done); done.
Qed.

Lemma imageElement_exposes window d img e :
  crossOrigin (imageElement window d img e) = Some "anonymous"
  ∧ style (imageElement window d img e) !! "display" = Some (decl "block")
  ∧ style (imageElement window d img e) !! "visibility" = Some (decl "visible").
Proof.
  unfold imageElement, patchStyle. simpl. split; [done|].
  rewrite !lookup_union, !fitPatch_unrelated
    by (unfold fitProperties; rewrite !not_elem_of_cons;
        split_and?; (discriminate || apply not_elem_of_nil)).
  rewrite lookup_insert_ne, !lookup_insert_eq by done.
  by destruct (style e !! "display"), (style e !! "visibility").
Qed.

Lemma imagePlan_head window d (dom : Dom) images img :
  img ∈ images →
  (img, imageElement window d img) ∈ images ≫= imagePlan window d dom.
Proof.
  intros Hin. apply list_elem_of_bind. exists img. split; [|done].
  unfold imagePlan. left.
Qed.

(** X1.  Every image of the collection that is an element of the document
    ends with [crossOrigin] set to ["anonymous"] and with the inline
    styles [display: block] and [visibility: visible], whatever mode is
    resolved for it and wherever it sits in the tree. *)
Theorem processImages_exposes window images objectFitDefault (dom : Dom) img :
  img ∈ images → img < length dom →
  let final := processImages window images objectFitDefault dom in
  elem_crossOrigin final img = Some "anonymous"
  ∧ elem_decl final img "display" = Some (decl "block")
  ∧ elem_decl final img "visibility" = Some (decl "visible").
Proof.
  intros Hin Hlt final. apply lookup_lt_is_Some in Hlt as [e He].
  subst final. rewrite processImages_plan.
  set (d := default "cover" objectFitDefault).
  set (plan := images ≫= imagePlan window d dom).
  unfold elem_crossOrigin, elem_decl. rewrite applyPlan_lookup, He. simpl.
  apply (planAt_reaches (λ _, True)
           (λ x, crossOrigin x = Some "anonymous"
                 ∧ style x !! "display" = Some (decl "block")
                 ∧ style x !! "visibility" = Some (decl "visible")));
    [| |done].
  - eapply Forall_impl; [apply imagePlan_steps|].
    intros [n f] [Hf|Hf] <- x _; simpl in *; subst f; (split; [done|]).
    + intros _. apply imageElement_exposes.
    + intros (?&?&?). unfold patchStyle. simpl.
      rewrite !lookup_union. by split_and?; [done|rewrite H0|rewrite H1].
  - apply Exists_exists. exists (img, imageElement window d img).
    split; [by apply imagePlan_head|]. split; [done|].
    intros x _. apply imageElement_exposes.
Qed.

Lemma processImages_exposes_witness :
  elem_decl (processImages (ex_window "fill" "") [1] None (ex_page ∅)) 1
    "display"
  = Some (decl "block").
Proof.
  apply (processImages_exposes (ex_window "fill" "") [1] None (ex_page ∅) 1).
  - apply list_elem_of_singleton. reflexivity.
  - simpl. lia.
Defined.

Lemma imagePlan_members window d (dom : Dom) images nf :
  nf ∈ images ≫= imagePlan window d dom →
  (nf.1 ∈ images ∧ nf.2 = imageElement window d nf.1)
  ∨ (nf.2 = patchStyle containerPatch
     ∧ ∃ img, img ∈ images ∧ elem_parent dom img = Some nf.1
              ∧ elem_isHTML dom nf.1 = true).
Proof.
  intros Hnf. apply list_elem_of_bind in Hnf as (img & Hnf & Himg).
  unfold imagePlan in Hnf. apply elem_of_cons in Hnf as [->|Hnf]; [by left|].
  right. destruct (elem_parent dom img) as [c|] eqn:Hc;
    [|by apply elem_of_nil in Hnf].
  destruct (elem_isHTML dom c) eqn:Hh; [|by apply elem_of_nil in Hnf].
  apply list_elem_of_singleton in Hnf as ->. simpl. eauto.
Qed.

Lemma imageElement_keeps_decl window d img prop :
  prop ∉ fitProperties → prop ≠ "display" → prop ≠ "visibility" →
  keeps_decl prop (imageElement window d img).
Proof.
  intros Hp Hd Hv e. unfold imageElement, patchStyle. simpl.
  rewrite !lookup_union, fitPatch_unrelated by done.
  rewrite !lookup_insert_ne by done. rewrite lookup_empty.
  by destruct (style e !! prop).
Qed.

(** X2.  The parent of an image of the collection, when it is an
    [HTMLElement], ends with the inline styles [overflow: hidden] and
    [box-sizing: border-box]; it ends with [position: relative] when it
    is not itself an image of the collection. *)
Theorem processImages_containers window images objectFitDefault (dom : Dom)
    img c :
  img ∈ images → elem_parent dom img = Some c → elem_isHTML dom c = true →
  let final := processImages window images objectFitDefault dom in
  elem_decl final c "overflow" = Some (decl "hidden")
  ∧ elem_decl final c "box-sizing" = Some (decl "border-box")
  ∧ (c ∉ images → elem_decl final c "position" = Some (decl "relative")).
Proof.
  intros Hin Hpar Hhtml final. subst final. rewrite processImages_plan.
  set (d := default "cover" objectFitDefault).
  set (plan := images ≫= imagePlan window d dom).
  unfold elem_decl. rewrite !applyPlan_lookup.
  unfold elem_isHTML in Hhtml. destruct (dom !! c) as [e|] eqn:He; [|done].
  simpl.
  assert (Exists (λ nf, nf.1 = c ∧ nf.2 = patchStyle containerPatch) plan)
    as Hex.
  { apply Exists_exists. exists (c, patchStyle containerPatch). split; [|done].
    apply list_elem_of_bind. exists img. split; [|done]. unfold imagePlan.
    rewrite Hpar. unfold elem_isHTML. rewrite He, Hhtml. right. left. }
  assert (∀ prop v, containerPatch !! prop = Some v →
            ∀ x, style (patchStyle containerPatch x) !! prop = Some v)
    as Hpatch.
  { intros prop v Hv x. unfold patchStyle. simpl.
    rewrite lookup_union, Hv. by destruct (style x !! prop). }
  assert (∀ prop v,
            prop ∉ fitProperties → prop ≠ "display" → prop ≠ "visibility" →
            containerPatch !! prop = Some v →
            style (planAt plan c e) !! prop = Some v) as Hkept.
  { intros prop v Hp Hd Hv Hlook.
    apply (planAt_reaches (λ _, True) (λ x, style x !! prop = Some v));
      [| |done].
    - apply Forall_forall. intros nf Hnf <- x _. split; [done|]. intros Hx.
      destruct (imagePlan_members _ _ _ _ _ Hnf) as [[_ ->]|[-> _]].
      + by rewrite imageElement_keeps_decl.
      + by apply Hpatch.
    - eapply Exists_impl; [exact Hex|]. intros nf [<- ->]. split; [done|].
      intros x _. by apply Hpatch. }
  split_and?.
  - apply Hkept; try done. unfold fitProperties.
    rewrite !not_elem_of_cons. split_and?; (discriminate || apply not_elem_of_nil).
  - apply Hkept; try done. unfold fitProperties.
    rewrite !not_elem_of_cons. split_and?; (discriminate || apply not_elem_of_nil).
  - intros Hc.
    apply (planAt_reaches (λ _, True)
             (λ x, style x !! "position" = Some (decl "relative")));
      [| |done].
    + apply Forall_forall. intros nf Hnf <- x _. split; [done|]. intros Hx.
      destruct (imagePlan_members _ _ _ _ _ Hnf) as [[? _]|[-> _]]; [done|].
      by apply Hpatch.
    + eapply Exists_impl; [exact Hex|]. intros nf [<- ->]. split; [done|].
      intros x _. by apply Hpatch.
Qed.

Lemma processImages_containers_witness :
  let final := processImages (ex_window "cover" "") [1] None (ex_page ∅) in
  elem_decl final 0 "overflow" = Some (decl "hidden")
  ∧ elem_decl final 0 "box-sizing" = Some (decl "border-box")
  ∧ (0 ∉ [1] → elem_decl final 0 "position" = Some (decl "relative")).
Proof.
  apply (processImages_containers (ex_window "cover" "") [1] None (ex_page ∅) 1 0).
  - apply list_elem_of_singleton. reflexivity.
  - reflexivity.
  - reflexivity.
Defined.



Lemma markup_patchStyle p e : markup (patchStyle p e) = markup e.
Proof. done. Qed.


Lemma js_or_left a b : a ≠ "" → a ||| b = a.
Proof. intros Ha. unfold js_or. by rewrite decide_False. Qed.

(** X4.  When the rendering engine reports an object-fit value for every
    image of the collection, the result of [processImages] does not depend
    on its [objectFitDefault] argument. *)
Theorem processImages_default_unused window images d1 d2 (dom : Dom) :
  (∀ img, img ∈ images → cs_objectFit (getComputedStyle window img) ≠ "") →
  processImages window images d1 dom = processImages window images d2 dom.
Proof.
  unfold processImages, forEach. revert dom.
  induction images as [|img images IH]; intros dom Hall; [done|]. simpl.
  assert (processImage window (default "cover" d1) img dom
          = processImage window (default "cover" d2) img dom) as ->.
  { unfold processImage.
    rewrite !(js_or_left (cs_objectFit _ ||| _))
      by (rewrite js_or_left; apply Hall; left).
    done. }
  apply IH. intros j Hj. apply Hall. by right.
Qed.

Lemma processImages_default_unused_witness :
  processImages (ex_window "contain" "") [1] (Some "fill") (ex_page ∅)
  = processImages (ex_window "contain" "") [1] None (ex_page ∅).
Proof.
  apply (processImages_default_unused (ex_window "contain" "") [1]
           (Some "fill") None (ex_page ∅)).
  intros img _. discriminate.
Defined.

(** ** [processSvgElements]: roots, dimensions, confinement *)





Lemma svgElement_visible css e :
  style (svgElement css e) !! "display" = Some (decl "block")
  ∧ style (svgElement css e) !! "visibility" = Some (decl "visible").
Proof.
  unfold svgElement, patchStyle. simpl. rewrite !lookup_union.
  rewrite lookup_insert_ne, !lookup_insert_eq by done.
  split; [by destruct (style _ !! "display")|by destruct (style _ !! "visibility")].
Qed.

(** X5.  Every SVG root of the collection ends with an [xmlns] attribute
    that is not empty, its own one if it had one and the SVG namespace
    otherwise, and with the inline styles [display: block] and
    [visibility: visible]. *)
Theorem processSvgElements_roots css svgElements (dom : Dom) svg e :
  svg ∈ svgElements → dom !! svg = Some e →
  let final := processSvgElements css svgElements dom in
  elem_attr final svg "xmlns"
    = defaulted "http://www.w3.org/2000/svg" (getAttribute e "xmlns")
  ∧ truthy (elem_attr final svg "xmlns") = true
  ∧ elem_decl final svg "display" = Some (decl "block")
  ∧ elem_decl final svg "visibility" = Some (decl "visible").
Proof.
  intros Hin He final. subst final. rewrite processSvgElements_plan.
  set (plan := svgElements ≫= svgPlan css dom).
  set (ns := "http://www.w3.org/2000/svg").
  unfold elem_attr, elem_decl. rewrite applyPlan_lookup, He. simpl.
  assert (getAttribute (planAt plan svg e) "xmlns"
          = defaulted ns (getAttribute e "xmlns")) as Hx.
  { apply (planAt_reaches
             (λ x, getAttribute x "xmlns" = getAttribute e "xmlns"
                   ∨ getAttribute x "xmlns" = defaulted ns (getAttribute e "xmlns"))
             (λ x, getAttribute x "xmlns" = defaulted ns (getAttribute e "xmlns")));
      [| |by left].
    - apply Forall_forall. intros nf Hnf <- x Hx.
      destruct (svgPlan_members _ _ _ _ Hnf) as [[_ ->]|[-> _]].
      + assert (getAttribute (svgElement css x) "xmlns"
                = defaulted ns (getAttribute x "xmlns")) as ->.
        { unfold svgElement.
          change (getAttribute (patchStyle ?p ?y) ?a) with (getAttribute y a).
          rewrite !getAttribute_inlineDimension, getAttribute_defaultAttribute.
          by rewrite decide_True. }
        split; [|intros ->; by rewrite defaulted_idemp].
        destruct Hx as [->| ->]; rewrite ?defaulted_idemp; auto.
      + assert (getAttribute (polygonElement x) "xmlns" = getAttribute x "xmlns")
          as ->; [|done].
        unfold polygonElement. rewrite !getAttribute_defaultAttribute.
        by rewrite !decide_False by done.
    - apply Exists_exists. exists (svg, svgElement css).
      split; [by apply svgPlan_head|]. split; [done|]. intros x Hx. simpl.
      unfold svgElement.
      change (getAttribute (patchStyle ?p ?y) ?a) with (getAttribute y a).
      rewrite !getAttribute_inlineDimension, getAttribute_defaultAttribute.
      rewrite decide_True by done.
      destruct Hx as [->| ->]; rewrite ?defaulted_idemp; auto. }
  split_and?; [done| |..].
  - rewrite Hx. unfold defaulted. by case_match.
  - apply (planAt_reaches (λ _, True)
             (λ x, style x !! "display" = Some (decl "block"))); [| |done].
    + apply Forall_forall. intros nf Hnf <- x _. split; [done|]. intros Hx'.
      destruct (svgPlan_members _ _ _ _ Hnf) as [[_ ->]|[-> _]].
      * apply svgElement_visible.
      * by rewrite style_polygonElement.
    + apply Exists_exists. exists (svg, svgElement css).
      split; [by apply svgPlan_head|]. split; [done|]. intros x _.
      apply svgElement_visible.
  - apply (planAt_reaches (λ _, True)
             (λ x, style x !! "visibility" = Some (decl "visible"))); [| |done].
    + apply Forall_forall. intros nf Hnf <- x _. split; [done|]. intros Hx'.
      destruct (svgPlan_members _ _ _ _ Hnf) as [[_ ->]|[-> _]].
      * apply svgElement_visible.
      * by rewrite style_polygonElement.
    + apply Exists_exists. exists (svg, svgElement css).
      split; [by apply svgPlan_head|]. split; [done|]. intros x _.
      apply svgElement_visible.
Qed.

Lemma processSvgElements_roots_witness :
  let final := processSvgElements ex_css [0] (ex_drawing ∅) in
  elem_attr final 0 "xmlns"
    = defaulted "http://www.w3.org/2000/svg" (getAttribute ex_svg "xmlns")
  ∧ truthy (elem_attr final 0 "xmlns") = true
  ∧ elem_decl final 0 "display" = Some (decl "block")
  ∧ elem_decl final 0 "visibility" = Some (decl "visible").
Proof.
  apply (processSvgElements_roots ex_css [0] (ex_drawing ∅) 0 ex_svg).
  - apply list_elem_of_singleton. reflexivity.
  - reflexivity.
Defined.

(** X6.  An SVG root of the collection that has an inline width keeps it,
    value and priority, whatever its [width] attribute holds; likewise
    for the height. *)
Theorem processSvgElements_keeps_inline_dimension css svgElements (dom : Dom)
    svg e prop :
  svg ∈ svgElements → dom !! svg = Some e → prop ∈ ["width"; "height"] →
  getPropertyValue e prop ≠ "" →
  elem_decl (processSvgElements css svgElements dom) svg prop = style e !! prop.
Proof.
  intros Hin He Hp Hv.
  rewrite (processSvgElements_dimension css svgElements dom svg e prop) by done.
  by rewrite decide_False.
Qed.

Lemma processSvgElements_keeps_inline_dimension_witness :
  elem_decl
    (processSvgElements ex_css [0]
       [mkElement false "svg" [] None {["width" := "120"]}
          {["width" := important "50%"]} None])
    0 "width"
  = Some (important "50%").
Proof.
  rewrite (processSvgElements_keeps_inline_dimension ex_css [0] _ 0
             (mkElement false "svg" [] None {["width" := "120"]}
                {["width" := important "50%"]} None) "width").
  - reflexivity.
  - left.
  - reflexivity.
  - left.
  - discriminate.
Defined.



(** ** [processShapeElements] and [hideUiControls] *)

Lemma shapePlan_members (dom : Dom) shapeElements nf :
  nf ∈ shapeElements ≫= shapePlan dom ↔
  nf.2 = patchStyle shapePatch ∧ nf.1 ∈ shapeElements
  ∧ elem_isHTML dom nf.1 = true
  ∧ is_Some (querySelector dom nf.1 polygonSelector).
Proof.
  rewrite list_elem_of_bind. unfold shapePlan. split.
  - intros (el & Hnf & Hel). destruct (elem_isHTML dom el) eqn:Hh;
      [|by apply elem_of_nil in Hnf].
    destruct (querySelector dom el polygonSelector) eqn:Hq;
      [|by apply elem_of_nil in Hnf].
    apply list_elem_of_singleton in Hnf as ->. simpl. by rewrite Hq.
  - intros (Hf & Hin & Hh & [p Hq]). exists nf.1. split; [|done].
    rewrite Hh, Hq. destruct nf as [n f]. simpl in *. subst f. left.
Qed.


(** X9.  [hideUiControls] leaves alone the page element itself, every
    element outside the page and every element that matches none of the
    selectors of the list. *)
Theorem hideUiControls_confined pageElement (dom : Dom) q :
  document_order dom = true →
  q = pageElement ∨ is_descendant dom pageElement q = false
  ∨ elem_matches dom uiControlSelector q = false →
  hideUiControls pageElement dom !! q = dom !! q.
Proof.
  intros Hord Hq. rewrite hideUiControls_lookup.
  destruct (dom !! q) as [e|] eqn:He; [|done]. simpl.
  rewrite decide_False; [done|]. intros Hin.
  unfold querySelectorAll in Hin. apply list_elem_of_filter in Hin as [Hm Hd].
  destruct Hq as [->|[Hq|Hq]].
  - apply descendants_lt in Hd; [lia|done].
  - unfold descendants in Hd. apply list_elem_of_filter in Hd as [Hd _].
    congruence.
  - congruence.
Qed.

Lemma hideUiControls_confined_witness :
  hideUiControls 0 ex_controls !! 0 = ex_controls !! 0.
Proof.
  apply (hideUiControls_confined 0 ex_controls 0); [reflexivity|].
  left. reflexivity.
Defined.

(** ** [processTextElements]: what is written and what is not *)

Lemma runStep_lookup s (dom : Dom) q :
  runStep s dom !! q = stepAt s dom q <$> dom !! q.
Proof.
  destruct s as [n f|c nodes].
  - simpl. rewrite list_lookup_alter.
    case_decide as Hn; [by subst n|]. by destruct (dom !! q).
  - simpl stepAt. rewrite runStep_color_lookup.
    case_decide; [done|]. by destruct (dom !! q).
Qed.

Lemma runSteps_snoc steps s (dom : Dom) :
  runSteps (steps ++ [s]) dom = runStep s (runSteps steps dom).
Proof. unfold runSteps. by rewrite foldl_app. Qed.

(** An invariant [I] of the document kept by the steps, and a property
    [P] that one of them brings about and the others keep. *)
Lemma runSteps_preserves (I : Dom → Prop) steps (dom : Dom) :
  Forall (λ s, ∀ d, I d → I (runStep s d)) steps →
  I dom → I (runSteps steps dom).
Proof.
  revert dom. induction steps as [|s steps IH]; intros dom Hall Hd; [done|].
  apply Forall_cons in Hall as [Hs Hall]. rewrite runSteps_cons.
  apply IH; [done|]. by apply Hs.
Qed.

Lemma runSteps_reaches (I P : Dom → Prop) steps (dom : Dom) :
  Forall (λ s, ∀ d, I d → I (runStep s d) ∧ (P d → P (runStep s d))) steps →
  Exists (λ s, ∀ d, I d → P (runStep s d)) steps →
  I dom → P (runSteps steps dom).
Proof.
  revert dom. induction steps as [|s steps IH]; intros dom Hall Hex Hd.
  { by apply Exists_nil in Hex. }
  apply Forall_cons in Hall as [Hs Hall]. rewrite runSteps_cons.
  apply Exists_cons in Hex as [Hnow|Hex].
  - assert (I (runStep s dom) ∧ P (runStep s dom)) as Hboth
      by (split; [by apply Hs|by apply Hnow]).
    apply (runSteps_preserves (λ d, I d ∧ P d)); [|done].
    eapply Forall_impl; [exact Hall|]. intros s' Hs' d [??].
    destruct (Hs' d) as [??]; auto.
  - apply IH; [done|done|]. by apply Hs.
Qed.

Lemma textSteps_members window (dom : Dom) textElements s :
  s ∈ textElements ≫= textSteps window dom ↔
  (∃ el, textBlock dom textElements el
         ∧ s = StepUpdate el (blockElement window el))
  ∨ (∃ el c, textContent dom textElements el c
             ∧ (s = StepColor c (querySelectorAll dom c [SelUniversal])
                ∨ s = StepUpdate c fontElement
                ∨ s = StepUpdate c (transparentElement window el))).
Proof.
  rewrite list_elem_of_bind. unfold textSteps, textContent, textBlock. split.
  - intros (el & Hs & Hel).
    destruct (elem_isHTML dom el) eqn:Hh; [|by apply elem_of_nil in Hs].
    apply elem_of_cons in Hs as [->|Hs]; [left; eauto|].
    destruct (querySelector dom el contentSelector) as [c|] eqn:Hq;
      [|by apply elem_of_nil in Hs].
    destruct (elem_isHTML dom c) eqn:Hc; [|by apply elem_of_nil in Hs].
    right. exists el, c. split; [done|].
    apply elem_of_cons in Hs as [->|Hs]; [by left|].
    apply elem_of_cons in Hs as [->|Hs]; [by right; left|].
    apply list_elem_of_singleton in Hs as ->. by right; right.
  - intros [(el & [Hel Hh] & ->)|(el & c & ([Hel Hh] & Hq & Hc) & Hs)];
      exists el; (split; [|done]); rewrite Hh; [left|].
    rewrite Hq, Hc. right.
    destruct Hs as [->|[->| ->]]; [left|right; left|right; right; left].
Qed.

Lemma stepAt_textUpdate window (dom : Dom) textElements s d q :
  s ∈ textElements ≫= textSteps window dom →
  textUpdate window dom textElements q (stepAt s d q).
Proof.
  intros Hs. apply textSteps_members in Hs
    as [(el & Hel & ->)|(el & c & Hc & [->|[->| ->]])]; simpl.
  - case_decide as Hq; [subst q; by apply update_block|]. apply update_none.
  - case_decide as Hq; [|apply update_none]. destruct Hq as [Hcol Hq].
    by eapply update_inherit.
  - case_decide as Hq; [subst q; by eapply update_font|]. apply update_none.
  - case_decide as Hq; [subst q; by eapply update_transparent|].
    apply update_none.
Qed.

(** A property of an element that the updates of its run keep. *)
Lemma processTextElements_keeps window (I : Element → Prop) textElements
    (dom : Dom) q e :
  (∀ f x, textUpdate window dom textElements q f → I x → I (f x)) →
  dom !! q = Some e → I e →
  ∃ e', processTextElements window textElements dom !! q = Some e' ∧ I e'.
Proof.
  intros Hkeep He HI. rewrite processTextElements_steps.
  apply (runSteps_preserves (λ d, ∃ x, d !! q = Some x ∧ I x)); [|eauto].
  apply Forall_forall. intros s Hs d (x & Hx & HIx).
  rewrite runStep_lookup, Hx. simpl. eexists. split; [done|].
  apply Hkeep; [|done]. by apply stepAt_textUpdate.
Qed.

Lemma processTextElements_length window textElements (dom : Dom) :
  length (processTextElements window textElements dom) = length dom.
Proof.
  rewrite processTextElements_steps.
  apply frames_length, (runSteps_frames window dom), textSteps_bind_wf.
Qed.

Lemma unstyled_with_style st e : unstyled (with_style st e) = unstyled e.
Proof. done. Qed.

Lemma unstyled_setProperty prop value priority e :
  unstyled (setProperty prop value priority e) = unstyled e.
Proof. unfold setProperty. by repeat case_decide. Qed.

Lemma unstyled_reassertElement prop e : unstyled (reassertElement prop e) = unstyled e.
Proof. unfold reassertElement. case_decide; [apply unstyled_setProperty|done]. Qed.

Lemma unstyled_textUpdate window (dom : Dom) textElements q f x :
  textUpdate window dom textElements q f → unstyled (f x) = unstyled x.
Proof.
  intros [Hq|el Hq|el Hq|el c color Hc Hq Hcol|].
  - unfold blockElement. simpl. by case_match.
  - unfold fontElement. by rewrite !unstyled_reassertElement.
  - unfold transparentElement. by case_match.
  - unfold inheritElement. case_match; [apply unstyled_setProperty|done].
  - done.
Qed.

Lemma applyPlan_unstyled (plan : Plan) (dom : Dom) :
  Forall (λ nf, ∀ x, unstyled (nf.2 x) = unstyled x) plan →
  unstyled <$> applyPlan plan dom = unstyled <$> dom.
Proof.
  intros Hall. apply list_eq. intros q.
  rewrite !list_lookup_fmap, applyPlan_lookup.
  destruct (dom !! q) as [e|]; [|done]. simpl. f_equal.
  apply (planAt_preserves (λ x, unstyled x = unstyled e)); [|done].
  eapply Forall_impl; [exact Hall|]. intros nf Hnf _ x <-. apply Hnf.
Qed.

(** X10.  The normalisers of the text processor write inline styles and
    nothing else: after [processTextElements], [processShapeElements] or
    [hideUiControls] the document has the same elements, and each of them
    is as before but for its inline style. *)
Theorem text_processor_writes_styles window (dom : Dom) :
  (∀ textElements,
     unstyled <$> processTextElements window textElements dom = unstyled <$> dom)
  ∧ (∀ shapeElements,
       unstyled <$> processShapeElements shapeElements dom = unstyled <$> dom)
  ∧ (∀ pageElement,
       unstyled <$> hideUiControls pageElement dom = unstyled <$> dom).
Proof.
  split_and?.
  - intros textElements. apply list_eq. intros q. rewrite !list_lookup_fmap.
    destruct (dom !! q) as [e|] eqn:He.
    + destruct (processTextElements_keeps window (λ x, unstyled x = unstyled e)
                  textElements dom q e) as (e' & -> & HI); [|done|done|].
      * intros f x Hf <-. by eapply unstyled_textUpdate.
      * simpl. by rewrite HI.
    + apply lookup_ge_None in He.
      rewrite (proj2 (lookup_ge_None _ _)); [done|].
      by rewrite processTextElements_length.
  - intros shapeElements. rewrite processShapeElements_plan.
    apply applyPlan_unstyled, Forall_forall. intros nf Hnf x.
    by apply shapePlan_members in Hnf as [-> _].
  - intros pageElement. rewrite hideUiControls_plan.
    apply applyPlan_unstyled, Forall_forall. intros nf Hnf x.
    unfold uniformPlan in Hnf. apply list_elem_of_fmap in Hnf as (n & -> & _).
    simpl. unfold hideElement. by case_match.
Qed.

Lemma getPropertyValue_reassertElement prop e prop' :
  getPropertyValue (reassertElement prop e) prop' = getPropertyValue e prop'.
Proof.
  unfold reassertElement. case_decide as Hv; [|done].
  rewrite getPropertyValue_setProperty by auto. by case_decide; subst.
Qed.

Lemma getPropertyValue_fontElement e prop :
  getPropertyValue (fontElement e) prop = getPropertyValue e prop.
Proof. unfold fontElement. by rewrite !getPropertyValue_reassertElement. Qed.

Lemma getPropertyValue_keeps_decl f prop e :
  keeps_decl prop f → getPropertyValue (f e) prop = getPropertyValue e prop.
Proof. intros Hf. unfold getPropertyValue. by rewrite Hf. Qed.




Lemma textSteps_font window (dom : Dom) textElements el c :
  textContent dom textElements el c →
  StepUpdate c fontElement ∈ textElements ≫= textSteps window dom.
Proof. intros Hc. apply textSteps_members. right. exists el, c. auto. Qed.

(** A property of an element that one update of its run brings about and
    the others keep. *)
Lemma processTextElements_reaches window (I P : Element → Prop) textElements
    (dom : Dom) q e g :
  (∀ f x, textUpdate window dom textElements q f →
          I x → I (f x) ∧ (P x → P (f x))) →
  StepUpdate q g ∈ textElements ≫= textSteps window dom →
  (∀ x, I x → P (g x)) →
  dom !! q = Some e → I e →
  ∃ e', processTextElements window textElements dom !! q = Some e' ∧ P e'.
Proof.
  intros Hkeep Hg HP He HI. rewrite processTextElements_steps.
  apply (runSteps_reaches (λ d, ∃ x, d !! q = Some x ∧ I x)
           (λ d, ∃ x, d !! q = Some x ∧ P x)); [| |eauto].
  - apply Forall_forall. intros s Hs d (x & Hx & HIx).
    rewrite runStep_lookup, Hx. simpl.
    destruct (Hkeep (stepAt s d q) x) as [HI' HP']; [|done|].
    { by eapply stepAt_textUpdate. }
    split; [eauto|]. intros (x' & ? & HPx). simplify_eq. eauto.
  - apply Exists_exists. exists (StepUpdate q g). split; [done|].
    intros d (x & Hx & HIx). rewrite runStep_lookup, Hx. simpl.
    rewrite decide_True by done. eauto.
Qed.







Lemma reassertElement_important prop e :
  getPropertyValue e prop ≠ "" →
  style (reassertElement prop e) !! prop
  = Some (important (getPropertyValue e prop)).
Proof.
  intros Hv. unfold reassertElement. rewrite decide_True by done.
  rewrite setProperty_important by done. unfold patchStyle. simpl.
  rewrite lookup_union, lookup_singleton_eq. by destruct (style e !! prop).
Qed.

Lemma fontElement_important prop e :
  prop ∈ ["font-family"; "font-size"; "font-weight"] →
  getPropertyValue e prop ≠ "" →
  style (fontElement e) !! prop = Some (important (getPropertyValue e prop)).
Proof.
  intros Hp Hv. unfold fontElement. set_unfold in Hp.
  destruct Hp as [->|[->|[->|[]]]].
  - rewrite !keeps_decl_reassertElement by done.
    by apply reassertElement_important.
  - rewrite keeps_decl_reassertElement by done.
    rewrite <- (getPropertyValue_reassertElement "font-family").
    apply reassertElement_important.
    by rewrite getPropertyValue_reassertElement.
  - rewrite <- (getPropertyValue_reassertElement "font-family" e).
    rewrite <- (getPropertyValue_reassertElement "font-size" (reassertElement _ e)).
    apply reassertElement_important.
    by rewrite !getPropertyValue_reassertElement.
Qed.

(** X14.  The content element of a text element of the collection keeps
    the values of its inline [font-family], [font-size] and [font-weight],
    and each of the three that is set ends with the important
    priority. *)
Theorem processTextElements_fonts window textElements (dom : Dom) el c prop :
  el ∈ textElements → elem_isHTML dom el = true →
  querySelector dom el contentSelector = Some c → elem_isHTML dom c = true →
  prop ∈ ["font-family"; "font-size"; "font-weight"] →
  elem_style dom c prop ≠ "" →
  elem_decl (processTextElements window textElements dom) c prop
  = Some (important (elem_style dom c prop)).
Proof.
  intros Hin Hh Hq Hc Hp Hv. destruct (elem_style_nonempty _ _ _ Hv) as [e He].
  rewrite (elem_style_Some dom c e) in * by done. unfold elem_decl.
  set (v := getPropertyValue e prop) in *.
  assert (prop ≠ "background-color" ∧ prop ≠ "padding" ∧ prop ≠ "color")
    as (?&?&?).
  { set_unfold in Hp. destruct Hp as [->|[->|[->|[]]]]; by split_and?. }
  destruct (processTextElements_reaches window
              (λ x, getPropertyValue x prop = v)
              (λ x, style x !! prop = Some (important v))
              textElements dom c e fontElement)
    as (e' & -> & HP); [| | |done|done|done].
  - intros f x Hf Hx.
    destruct Hf as [Hb|el' Hq'|el' Hq'|el' c' color Hc' Hq' Hcol|].
    + rewrite getPropertyValue_blockElement, keeps_decl_blockElement by done.
      done.
    + rewrite getPropertyValue_fontElement. split; [done|]. intros _.
      rewrite fontElement_important; by rewrite ?Hx.
    + rewrite getPropertyValue_keeps_decl
        by by apply keeps_decl_transparentElement.
      by rewrite keeps_decl_transparentElement.
    + rewrite getPropertyValue_keeps_decl
        by by apply keeps_decl_inheritElement.
      by rewrite keeps_decl_inheritElement.
    + done.
  - by apply (textSteps_font _ _ _ el).
  - intros x Hx. rewrite fontElement_important; by rewrite ?Hx.
Qed.

Lemma processTextElements_fonts_witness :
  elem_decl
    (processTextElements (ex_window "" "") [0]
       [ mkElement true "div" [] None ∅ ∅ None;
         mkElement true "div" ["element-content"] (Some 0) ∅
           {["font-size" := decl "14px"]} None ])
    1 "font-size"
  = Some (important "14px").
Proof.
  rewrite (processTextElements_fonts (ex_window "" "") [0] _ 0 1 "font-size").
  - reflexivity.
  - apply list_elem_of_singleton. reflexivity.
  - reflexivity.
  - reflexivity.
  - reflexivity.
  - right. left.
  - discriminate.
Defined.

Lemma textContent_descendant (dom : Dom) textElements el c :
  textContent dom textElements el c → c ∈ descendants dom el.
Proof.
  intros (_ & Hq & _).
  by eapply querySelectorAll_descendants, querySelector_elem_of.
Qed.

(** X15.  In a document in tree order, [processTextElements] leaves alone
    every element that is neither an [HTMLElement] of the collection nor
    a descendant of one. *)
Theorem processTextElements_confined window textElements (dom : Dom) q :
  document_order dom = true →
  (∀ el, el ∈ textElements → elem_isHTML dom el = true →
         q ≠ el ∧ q ∉ descendants dom el) →
  processTextElements window textElements dom !! q = dom !! q.
Proof.
  intros Hord Hout. destruct (dom !! q) as [e|] eqn:He.
  - destruct (processTextElements_keeps window (λ x, x = e)
                textElements dom q e) as (e' & -> & ->); [|done|done|done].
    intros f x Hf ->.
    destruct Hf as [[Hin Hh]|el Hq|el Hq|el c color Hc Hq Hcol|]; [| | | |done].
    + by destruct (Hout q).
    + destruct Hq as ([Hin Hh] & Hq & Hc). destruct (Hout el) as [_ []]; [done..|].
      by eapply querySelectorAll_descendants, querySelector_elem_of.
    + destruct Hq as ([Hin Hh] & Hq & Hc). destruct (Hout el) as [_ []]; [done..|].
      by eapply querySelectorAll_descendants, querySelector_elem_of.
    + pose proof (textContent_descendant _ _ _ _ Hc) as Hd.
      destruct Hc as ([Hin Hh] & _). destruct (Hout el) as [_ []]; [done..|].
      eapply descendants_trans; [done|exact Hd|].
      by eapply querySelectorAll_descendants.
  - apply lookup_ge_None in He. apply lookup_ge_None.
    by rewrite processTextElements_length.
Qed.

Lemma processTextElements_confined_witness :
  processTextElements (ex_window "" "rgb(200,200,200)") [1] ex_text !! 0
  = ex_text !! 0.
Proof.
  apply (processTextElements_confined (ex_window "" "rgb(200,200,200)") [1]
           ex_text 0); [reflexivity|].
  intros el Hel _. apply list_elem_of_singleton in Hel as ->.
  split; [discriminate|].
  apply (bool_decide_unpack (0 ∉ descendants ex_text 1)). reflexivity.
Defined.

Lemma inheritElement_sets color e :
  color ≠ "" → isHTMLElement e = true → getPropertyValue e "color" = "" →
  style (inheritElement color e) !! "color" = Some (important color).
Proof.
  intros Hc Hh Hv. unfold inheritElement. rewrite Hh, Hv. simpl.
  rewrite setProperty_important by done. unfold patchStyle. simpl.
  rewrite lookup_union, lookup_singleton_eq. by destruct (style e !! "color").
Qed.

Lemma textUpdate_color window (dom : Dom) textElements q f x :
  textUpdate window dom textElements q f →
  getPropertyValue x "color" ≠ "" → style (f x) !! "color" = style x !! "color".
Proof.
  intros [Hq|el Hq|el Hq|el c color Hc Hq Hcol|] Hv.
  - by rewrite keeps_decl_blockElement.
  - by rewrite keeps_decl_fontElement.
  - by rewrite keeps_decl_transparentElement.
  - by rewrite inheritElement_color.
  - done.
Qed.

Lemma isHTMLElement_unstyled e e' :
  unstyled e = unstyled e' → isHTMLElement e = isHTMLElement e'.
Proof. intros H. by apply (f_equal isHTMLElement) in H. Qed.

(** X16.  In a document in tree order, let [c] be the content element of
    a text element of the collection, with an inline colour, and let [n]
    be an [HTMLElement] below [c] without inline colour that is below no
    other content element of the collection.  After [processTextElements]
    the element [n] has the colour of [c] inline, with the important
    priority. *)
Theorem processTextElements_colour window textElements (dom : Dom) el c n :
  document_order dom = true →
  el ∈ textElements → elem_isHTML dom el = true →
  querySelector dom el contentSelector = Some c → elem_isHTML dom c = true →
  elem_style dom c "color" ≠ "" →
  n ∈ descendants dom c → elem_isHTML dom n = true →
  elem_style dom n "color" = "" →
  (∀ el' c', el' ∈ textElements → elem_isHTML dom el' = true →
             querySelector dom el' contentSelector = Some c' →
             n ∈ descendants dom c' → c' = c) →
  elem_decl (processTextElements window textElements dom) n "color"
  = Some (important (elem_style dom c "color")).
Proof.
  intros Hord Hin Hh Hq Hc Hv Hn Hnh Hnv Huniq.
  set (v := elem_style dom c "color") in *.
  assert (textContent dom textElements el c) as Hcontent by done.
  rewrite processTextElements_steps.
  set (steps := textElements ≫= textSteps window dom).
  set (I := λ d : Dom,
         elem_style d c "color" = v
         ∧ ∃ x, d !! n = Some x ∧ isHTMLElement x = true
                ∧ (getPropertyValue x "color" = ""
                   ∨ style x !! "color" = Some (important v))).
  assert (I dom) as HI.
  { split; [done|]. unfold elem_isHTML in Hnh.
    destruct (dom !! n) as [x|] eqn:Hx; [|done]. exists x. split_and?; [done..|].
    left. by rewrite <- (elem_style_Some dom n x). }
  assert (∀ s d, s ∈ steps → I d →
            I (runStep s d)
            ∧ (elem_decl d n "color" = Some (important v) →
               elem_decl (runStep s d) n "color" = Some (important v)))
    as Hstep.
  { intros s d Hs [Hcv (x & Hx & Hxh & Hxc)].
    assert (elem_style (runStep s d) c "color" = v) as Hcv'.
    { destruct (elem_style_nonempty d c "color") as [y Hy]; [by rewrite Hcv|].
      rewrite (elem_style_Some d c y) in Hcv by done.
      unfold elem_style. rewrite runStep_lookup, Hy. simpl.
      unfold getPropertyValue.
      rewrite (textUpdate_color window dom textElements c);
        [done|by apply stepAt_textUpdate|by rewrite Hcv]. }
    pose proof (stepAt_textUpdate window dom textElements s d n Hs) as Hf.
    assert (isHTMLElement (stepAt s d n x) = true) as Hxh'.
    { rewrite <- Hxh. apply isHTMLElement_unstyled.
      by eapply unstyled_textUpdate. }
    assert (style x !! "color" = Some (important v) →
            style (stepAt s d n x) !! "color" = Some (important v)) as Hkeep.
    { intros Hx'. rewrite (textUpdate_color window dom textElements n);
        [done|done|]. unfold getPropertyValue. by rewrite Hx'. }
    split; [split; [done|]|].
    - exists (stepAt s d n x). rewrite runStep_lookup, Hx. split_and?; [done..|].
      destruct Hxc as [Hxc|Hxc]; [|right; by apply Hkeep].
      apply textSteps_members in Hs
        as [(el' & Hel' & ->)|(el' & c' & Hc' & [->|[->| ->]])]; simpl.
      + left. case_decide; [|done]. by rewrite getPropertyValue_blockElement.
      + case_decide as Hcn; [|by left]. right. destruct Hcn as [Hcol Hnn].
        assert (c' = c) as ->.
        { destruct Hc' as ([??] & ? & ?). eapply Huniq; [done..|].
          by eapply querySelectorAll_descendants. }
        rewrite Hcv. by apply inheritElement_sets.
      + left. case_decide; [|done]. by rewrite getPropertyValue_fontElement.
      + left. case_decide; [|done].
        by rewrite getPropertyValue_keeps_decl
          by by apply keeps_decl_transparentElement.
    - unfold elem_decl. rewrite runStep_lookup, Hx. simpl. apply Hkeep. }
  apply (runSteps_reaches I (λ d, elem_decl d n "color" = Some (important v)));
    [| |done].
  - apply Forall_forall. intros s Hs d Hd. by apply Hstep.
  - apply Exists_exists.
    exists (StepColor c (querySelectorAll dom c [SelUniversal])). split.
    { apply textSteps_members. right. exists el, c. auto. }
    intros d [Hcv (x & Hx & Hxh & Hxc)]. unfold elem_decl.
    rewrite runStep_lookup, Hx. simpl. rewrite decide_True.
    + rewrite Hcv. destruct Hxc as [Hxc|Hxc]; [by apply inheritElement_sets|].
      rewrite inheritElement_color; [done|]. unfold getPropertyValue.
      by rewrite Hxc.
    + split; [unfold colored; by rewrite Hcv|].
      by apply querySelectorAll_universal.
Qed.

Lemma processTextElements_colour_witness :
  elem_decl (processTextElements (ex_window "" "") [0; 0] ex_text) 2 "color"
  = Some (important "rgb(10,10,10)").
Proof.
  rewrite (processTextElements_colour (ex_window "" "") [0; 0] ex_text 0 1 2).
  - reflexivity.
  - reflexivity.
  - left.
  - reflexivity.
  - reflexivity.
  - reflexivity.
  - discriminate.
  - apply (bool_decide_unpack (2 ∈ descendants ex_text 1)). reflexivity.
  - reflexivity.
  - reflexivity.
  - intros el' c' Hel' _ Hq _. set_unfold in Hel'.
    destruct Hel' as [->|[->|[]]]; vm_compute in Hq; congruence.
Defined.

(** ** [preloadImages]: progress, duplicates, handlers *)

Lemma promiseAll_all_Fulfilled ps :
  Forall (λ p, p = Fulfilled ()) ps → promiseAll ps = Fulfilled ().
Proof.
  induction ps as [|p ps IH]; intros H; [done|].
  apply Forall_cons in H as [-> H]. simpl. by apply IH.
Qed.

Lemma ld_images_resolvePromise k ld :
  ld_images (resolvePromise k ld) = ld_images ld.
Proof. unfold resolvePromise. by repeat case_match. Qed.

Lemma ld_images_deliver ld ev : ld_images (deliver ld ev) = ld_images ld.
Proof.
  unfold deliver, callHandler.
  destruct ev; repeat case_match; by rewrite ?ld_images_resolvePromise.
Qed.

Lemma ld_images_deliverAll evs ld :
  ld_images (deliverAll evs ld) = ld_images ld.
Proof.
  revert ld. induction evs as [|ev evs IH]; intros ld; [done|].
  unfold deliverAll in *. simpl. by rewrite IH, ld_images_deliver.
Qed.

Lemma length_promises_resolvePromise k ld :
  length (ld_promises (resolvePromise k ld)) = length (ld_promises ld).
Proof.
  unfold resolvePromise. repeat case_match; simpl; by rewrite ?length_insert.
Qed.

Lemma resolvePromise_lookup k ld j :
  ld_promises (resolvePromise k ld) !! j =
  if decide (j = k)
  then match ld_promises ld !! k with
       | Some Pending => Some (Fulfilled ())
       | o => o
       end
  else ld_promises ld !! j.
Proof.
  unfold resolvePromise.
  destruct (ld_promises ld !! k) as [[| |]|] eqn:Hk; simpl;
    try (case_decide; by subst).
  case_decide as Hj.
  - subst j. apply list_lookup_insert_eq. by eapply lookup_lt_Some.
  - by rewrite list_lookup_insert_ne.
Qed.

Lemma deliver_promise ld ev j :
  ld_promises (deliver ld ev) !! j = ld_promises ld !! j
  ∨ (ld_promises ld !! j = Some Pending
     ∧ ld_promises (deliver ld ev) !! j = Some (Fulfilled ())).
Proof.
  assert (∀ k, ld_promises (resolvePromise k ld) !! j = ld_promises ld !! j
               ∨ (ld_promises ld !! j = Some Pending
                  ∧ ld_promises (resolvePromise k ld) !! j = Some (Fulfilled ())))
    as Hres.
  { intros k. rewrite resolvePromise_lookup. case_decide as Hj; [|by left].
    subst j. destruct (ld_promises ld !! k) as [[| |]|]; auto. }
  unfold deliver, callHandler. destruct ev; repeat case_match; auto.
Qed.

Lemma deliver_target ld ev k im :
  ld_images ld !! event_target ev = Some im →
  onload im = Some (Resolve k) → onerror im = Some (Resolve k) →
  ld_promises ld !! k = Some Pending →
  ld_promises (deliver ld ev) !! k = Some (Fulfilled ()).
Proof.
  intros Him Hl He Hk. unfold deliver, callHandler.
  destruct ev as [i|i]; simpl in Him; rewrite Him; simpl; rewrite ?Hl, ?He;
    rewrite resolvePromise_lookup, decide_True by done; by rewrite Hk.
Qed.

Lemma preloadImages_length images store :
  length (ld_promises (preloadImages images store)) = length images.
Proof.
  induction images as [|x images IH] using rev_ind; [done|].
  rewrite preloadImages_snoc, length_app. simpl.
  unfold newImagePromise. repeat case_match; simpl; rewrite length_app; simpl; lia.
Qed.

Lemma live_created_store images store :
  image_collection store images = true →
  length (ld_images (preloadImages images store)) = length store
  ∧ ∀ i im im0, ld_images (preloadImages images store) !! i = Some im →
      store !! i = Some im0 → complete im = complete im0.
Proof.
  induction images as [|x images IH] using rev_ind; intros Hcoll.
  { split; [done|]. intros i im im0 ??. by simplify_eq/=. }
  unfold image_collection in Hcoll. rewrite forallb_app in Hcoll.
  apply andb_prop in Hcoll as [Hcoll Hx].
  destruct (IH Hcoll) as [Hstore Hcompl].
  rewrite preloadImages_snoc. unfold newImagePromise.
  destruct (ld_images (preloadImages images store) !! x) as [ix|] eqn:Hix;
    [|done].
  destruct (complete ix) eqn:Hc; simpl; [done|]. split.
  - by rewrite length_insert.
  - intros i y y0 Hy Hy0. apply list_lookup_insert_Some in Hy
      as [(-> & <- & _)|[Hne Hy]]; simpl; [|by eapply Hcompl].
    by rewrite <- (Hcompl _ _ _ Hix Hy0).
Qed.

Lemma live_created images store :
  NoDup images → image_collection store images = true →
  live images store [] (preloadImages images store)
  ∧ length (ld_images (preloadImages images store)) = length store
  ∧ ∀ i im im0, ld_images (preloadImages images store) !! i = Some im →
      store !! i = Some im0 → complete im = complete im0.
Proof.
  induction images as [|img images IH] using rev_ind; intros Hnd Hcoll.
  { split_and?; [split; [done|]|done|]; [by intros k img|].
    intros i im im0 ??. by simplify_eq/=. }
  apply NoDup_app in Hnd as (Hnd & Hnot & _).
  unfold image_collection in Hcoll. rewrite forallb_app in Hcoll.
  apply andb_prop in Hcoll as [Hcoll Himg]. simpl in Himg.
  rewrite andb_true_r in Himg. apply bool_decide_eq_true in Himg.
  destruct (IH Hnd Hcoll) as ([Hlen Hlive] & Hstore & Hcompl).
  rewrite preloadImages_snoc. set (ld := preloadImages images store) in *.
  assert (is_Some (ld_images ld !! img)) as [im Him]
    by (apply lookup_lt_is_Some; by rewrite Hstore).
  assert (is_Some (store !! img)) as [im0 Him0] by (by apply lookup_lt_is_Some).
  assert (img ∉ images) as Hfresh.
  { intros Hin. eapply Hnot; [done|]. apply list_elem_of_singleton. done. }
  unfold newImagePromise. rewrite Him. destruct (complete im) eqn:Hc.
  - split_and?; [split|done|done]; simpl.
    { rewrite !length_app. simpl. lia. }
    intros k i Hk. apply lookup_app_Some in Hk as [Hk|[Hge Hk]].
    + destruct (Hlive k i Hk) as [Hf|[(Hp & x & Hx & Hl & He) Hns]].
      * left. by apply lookup_app_l_Some.
      * right. split; [|done]. split; [by apply lookup_app_l_Some|]. eauto.
    + apply list_lookup_singleton_Some in Hk as [Hk <-]. left.
      replace k with (length (ld_promises ld)) by lia.
      by rewrite lookup_app_r, Nat.sub_diag.
  - split_and?; [split| |]; simpl.
    { rewrite !length_app. simpl. lia. }
    + intros k i Hk. apply lookup_app_Some in Hk as [Hk|[Hge Hk]].
      * assert (i ≠ img) as Hne.
        { intros ->. apply Hfresh. by eapply list_elem_of_lookup_2. }
        destruct (Hlive k i Hk) as [Hf|[(Hp & x & Hx & Hl & He) Hns]].
        -- left. by apply lookup_app_l_Some.
        -- right. split; [|done]. split; [by apply lookup_app_l_Some|].
           exists x. simpl. by rewrite list_lookup_insert_ne.
      * apply list_lookup_singleton_Some in Hk as [Hk <-]. right.
        assert (k = length (ld_promises ld)) as -> by lia. split.
        -- split; simpl; [by rewrite lookup_app_r, Nat.sub_diag|].
           eexists. split; [apply list_lookup_insert_eq; by eapply lookup_lt_Some|].
           done.
        -- intros [(x & Hx & Hxc)|(ev & Hev & _)]; [|by apply elem_of_nil in Hev].
           rewrite <- (Hcompl img im x) in Hxc by done. congruence.
    + by rewrite length_insert.
    + intros i x x0 Hi Hx0. apply list_lookup_insert_Some in Hi
        as [(-> & <- & _)|[Hne Hi]]; simpl; [|by eapply Hcompl].
      by rewrite <- (Hcompl _ _ _ Him Hx0).
Qed.

Lemma live_deliver images store evs ev ld :
  live images store evs ld → live images store (evs ++ [ev]) (deliver ld ev).
Proof.
  intros [Hlen Hlive]. split.
  { rewrite <- Hlen. unfold deliver, callHandler.
    destruct ev; repeat case_match; by rewrite ?length_promises_resolvePromise. }
  intros k img Hk.
  destruct (Hlive k img Hk) as [Hf|[(Hp & x & Hx & Hl & He) Hns]].
  - left. by destruct (deliver_promise ld ev k) as [->|[? _]]; [|congruence].
  - destruct (decide (event_target ev = img)) as [Ht|Ht].
    + left. subst img. by eapply deliver_target.
    + destruct (deliver_promise ld ev k) as [Hsame|[_ Hful]]; [|by left].
      right. split.
      * split; [by rewrite Hsame|]. exists x. by rewrite ld_images_deliver.
      * intros [Hc|(ev' & Hev & Ht')]; [apply Hns; by left|].
        apply elem_of_app in Hev as [Hev|Hev].
        -- apply Hns. right. eauto.
        -- apply list_elem_of_singleton in Hev as ->. done.
Qed.

Lemma live_deliverAll images store evs ld :
  live images store [] ld → live images store evs (deliverAll evs ld).
Proof.
  intros Hlive. induction evs as [|ev evs IH] using rev_ind; [done|].
  unfold deliverAll. rewrite foldl_app. simpl. by apply live_deliver.
Qed.

(** X17.  For a collection without repetition, once every image of the
    collection has settled, by being complete at the call or by a [load]
    or an [error] event delivered since, the promise returned by
    [preloadImages] is fulfilled; in particular it is fulfilled at once
    for an empty collection and when all images are complete. *)
Theorem preloadImages_completes images store evs :
  NoDup images → image_collection store images = true →
  (∀ img, img ∈ images → settled store evs img) →
  returnedPromise (deliverAll evs (preloadImages images store)) = Fulfilled ().
Proof.
  intros Hnd Hcoll Hall.
  destruct (live_created images store Hnd Hcoll) as (Hlive & _).
  apply (live_deliverAll _ _ evs) in Hlive as [Hlen Hlive].
  unfold returnedPromise. rewrite promiseAll_all_Fulfilled; [done|].
  apply Forall_lookup. intros k p Hp.
  assert (is_Some (images !! k)) as [img Hk].
  { apply lookup_lt_is_Some. rewrite <- Hlen. by eapply lookup_lt_Some. }
  destruct (Hlive k img Hk) as [Hf|[_ Hns]]; [congruence|].
  destruct Hns. apply Hall. by eapply list_elem_of_lookup_2.
Qed.

Lemma preloadImages_completes_witness :
  returnedPromise
    (deliverAll [ErrorEvent 2; LoadEvent 1] (preloadImages [0; 1; 2] ex_store))
  = Fulfilled ().
Proof.
  apply (preloadImages_completes [0; 1; 2] ex_store [ErrorEvent 2; LoadEvent 1]).
  - apply (bool_decide_unpack (NoDup [0; 1; 2])). reflexivity.
  - reflexivity.
  - intros img Himg. set_unfold in Himg.
    destruct Himg as [->|[->|[->|[]]]].
    + left. exists (mkImage true None None). split; reflexivity.
    + right. exists (LoadEvent 1). split; [|reflexivity].
      right. left.
    + right. exists (ErrorEvent 2). split; [|reflexivity]. left.
Defined.

Lemma stuck_resolvePromise k k' ld :
  k' ≠ k → stuck k ld → stuck k (resolvePromise k' ld).
Proof.
  intros Hne [Hp Hh]. split.
  - rewrite resolvePromise_lookup. by rewrite decide_False.
  - by rewrite ld_images_resolvePromise.
Qed.

Lemma stuck_deliver k ld ev : stuck k ld → stuck k (deliver ld ev).
Proof.
  intros Hs. pose proof Hs as [Hp Hh]. unfold deliver, callHandler.
  destruct ev as [i|i];
    (destruct (ld_images ld !! i) as [im|] eqn:Him; simpl; [|done]).
  - destruct (Hh i im Him) as [Hl _].
    destruct (onload im) as [[|k']|]; try done.
    apply stuck_resolvePromise; [|done]. by intros ->.
  - destruct (Hh i im Him) as [_ He].
    destruct (onerror im) as [[|k']|]; try done.
    apply stuck_resolvePromise; [|done]. by intros ->.
Qed.

Lemma stuck_deliverAll k ld evs : stuck k ld → stuck k (deliverAll evs ld).
Proof.
  revert ld. induction evs as [|ev evs IH]; intros ld Hs; [done|].
  unfold deliverAll in *. simpl. by apply IH, stuck_deliver.
Qed.

Lemma newImagePromise_lookup_old img ld k :
  k < length (ld_promises ld) →
  ld_promises (newImagePromise img ld) !! k = ld_promises ld !! k.
Proof.
  intros Hk. unfold newImagePromise.
  repeat case_match; simpl; by rewrite lookup_app_l.
Qed.

(** After the call on a collection that lists an incomplete image at the
    positions [k1 < k2], nothing resolves the promise made at [k1]. *)
Lemma stuck_created images store k1 k2 img im :
  fresh_store store = true → image_collection store images = true →
  k1 < k2 → images !! k1 = Some img → images !! k2 = Some img →
  store !! img = Some im → complete im = false →
  stuck k1 (preloadImages images store).
Proof.
  intros Hfresh. induction images as [|x images IH] using rev_ind;
    intros Hcoll Hlt Hk1 Hk2 Him Hc; [done|].
  unfold image_collection in Hcoll. rewrite forallb_app in Hcoll.
  apply andb_prop in Hcoll as [Hcoll Hx]. simpl in Hx.
  rewrite andb_true_r in Hx. apply bool_decide_eq_true in Hx.
  pose proof (preloadImages_created images store Hfresh Hcoll)
    as [Hlen Hstore Himgs Hhand Hprom].
  rewrite preloadImages_snoc. set (ld := preloadImages images store) in *.
  assert (k1 < length images) as Hk1lt.
  { apply lookup_lt_Some in Hk2. rewrite length_app in Hk2. simpl in Hk2. lia. }
  rewrite lookup_app_l in Hk1 by done.
  assert (is_Some (ld_images ld !! x)) as [ix Hix]
    by (apply lookup_lt_is_Some; by rewrite Hstore).
  destruct (decide (k2 < length images)) as [Hk2lt|Hk2ge].
  - rewrite lookup_app_l in Hk2 by done.
    destruct (IH Hcoll Hlt Hk1 Hk2 Him Hc) as [Hp Hh]. split.
    + rewrite newImagePromise_lookup_old by (by rewrite Hlen). done.
    + unfold newImagePromise. rewrite Hix.
      destruct (complete ix); simpl; [done|].
      intros i y Hy. apply list_lookup_insert_Some in Hy
        as [(-> & <- & _)|[Hne Hy]]; simpl; [|by eapply Hh].
      split; intros [= Heq]; rewrite Hlen in Heq; lia.
  - assert (k2 = length images) as ->.
    { apply lookup_lt_Some in Hk2. rewrite length_app in Hk2. simpl in Hk2. lia. }
    rewrite lookup_app_r, Nat.sub_diag in Hk2 by done.
    simpl in Hk2. injection Hk2 as ->.
    assert (complete ix = false) as Hcx.
    { by rewrite (Himgs img ix im Hix Him). }
    assert (ld_promises ld !! k1 = Some Pending) as Hp.
    { assert (is_Some (ld_promises ld !! k1)) as [p Hp]
        by (apply lookup_lt_is_Some; by rewrite Hlen).
      destruct (Hprom k1 p Hp) as [->|(_ & j & y & Hj & Hy & Hyc)]; [done|].
      simplify_eq. congruence. }
    split.
    + rewrite newImagePromise_lookup_old by (by rewrite Hlen). done.
    + unfold newImagePromise. rewrite Hix, Hcx. simpl.
      intros i y Hy. apply list_lookup_insert_Some in Hy
        as [(-> & <- & _)|[Hne Hy]]; simpl.
      * split; intros [= Heq]; rewrite Hlen in Heq; lia.
      * split; intros Hr; apply Hne; symmetry.
        -- assert (images !! k1 = Some i) by (eapply Hhand; eauto).
           by simplify_eq.
        -- assert (images !! k1 = Some i) by (eapply Hhand; eauto).
           by simplify_eq.
Qed.

Lemma promiseAll_Pending ps k :
  Forall (λ p, p = Pending ∨ p = Fulfilled ()) ps →
  ps !! k = Some Pending → promiseAll ps = Pending.
Proof.
  revert k. induction ps as [|p ps IH]; intros k Hall Hk; [done|].
  apply Forall_cons in Hall as [Hp Hall].
  pose proof (promiseAll_not_Rejected ps) as Hnr.
  destruct k as [|k]; simpl in Hk.
  - simplify_eq. simpl. destruct (promiseAll ps) eqn:Hps; [done|done|].
    by destruct (Hnr reason Hall).
  - destruct Hp as [-> | ->]; simpl.
    + by rewrite (IH k).
    + by apply (IH k).
Qed.

(** X18.  When an image that is not complete occurs twice in the
    collection, the promise returned by [preloadImages] stays pending
    whatever events are delivered: the handlers installed for the second
    occurrence replace those of the first, whose promise nothing can
    resolve. *)
Theorem preloadImages_duplicate_pending images store evs k1 k2 img im :
  fresh_store store = true → image_collection store images = true →
  k1 < k2 → images !! k1 = Some img → images !! k2 = Some img →
  store !! img = Some im → complete im = false →
  returnedPromise (deliverAll evs (preloadImages images store)) = Pending.
Proof.
  intros Hfresh Hcoll Hlt Hk1 Hk2 Him Hc.
  pose proof (stuck_deliverAll k1 _ evs
                (stuck_created images store k1 k2 img im
                   Hfresh Hcoll Hlt Hk1 Hk2 Him Hc)) as [Hp _].
  pose proof (running_deliverAll images store evs _
                (created_running _ _ _ (preloadImages_created _ _ Hfresh Hcoll)))
    as [_ _ Hprom].
  unfold returnedPromise. rewrite (promiseAll_Pending _ k1); [done| |done].
  apply Forall_lookup. intros k p Hk.
  destruct (Hprom k p Hk) as [->|[-> _]]; auto.
Qed.

Lemma preloadImages_duplicate_pending_witness :
  returnedPromise
    (deliverAll [LoadEvent 2; ErrorEvent 2] (preloadImages [2; 0; 2] ex_store))
  = Pending.
Proof.
  apply (preloadImages_duplicate_pending [2; 0; 2] ex_store
           [LoadEvent 2; ErrorEvent 2] 0 2 2 (mkImage false None None));
    try reflexivity.
  apply (bool_decide_unpack (0 < 2)). reflexivity.
Defined.

(** X19.  [preloadImages] replaces the [onload] and [onerror] handlers of
    every image of the collection that is not complete with handlers that
    resolve a promise of the call, whatever handlers were installed
    before; it leaves alone the images that are complete and those outside
    the collection; and no delivery of events puts a handler back. *)
Theorem preloadImages_handlers images store img im :
  image_collection store images = true → store !! img = Some im →
  let ld := preloadImages images store in
  (img ∈ images → complete im = false →
     ∃ k, images !! k = Some img
          ∧ ld_images ld !! img
            = Some (mkImage false (Some (Resolve k)) (Some (Resolve k))))
  ∧ (img ∉ images ∨ complete im = true → ld_images ld !! img = Some im)
  ∧ (∀ evs, ld_images (deliverAll evs ld) = ld_images ld).
Proof.
  intros Hcoll Him ld. subst ld. split_and?; [| |intros; apply ld_images_deliverAll].
  - revert Hcoll. induction images as [|x images IH] using rev_ind;
      intros Hcoll Hin Hc; [by apply elem_of_nil in Hin|].
    unfold image_collection in Hcoll. rewrite forallb_app in Hcoll.
    apply andb_prop in Hcoll as [Hcoll Hx]. simpl in Hx.
    rewrite andb_true_r in Hx. apply bool_decide_eq_true in Hx.
    rewrite preloadImages_snoc.
    destruct (live_created_store images store Hcoll) as [Hstore Hcompl].
    set (ld := preloadImages images store) in *.
    assert (is_Some (ld_images ld !! x)) as [ix Hix]
      by (apply lookup_lt_is_Some; by rewrite Hstore).
    unfold newImagePromise. rewrite Hix.
    destruct (decide (x = img)) as [->|Hne].
    + rewrite (Hcompl img ix im Hix Him), Hc. simpl.
      exists (length images). split.
      * by rewrite lookup_app_r, Nat.sub_diag.
      * rewrite list_lookup_insert_eq by (by eapply lookup_lt_Some).
        unfold ld. by rewrite (preloadImages_length images store).
    + apply elem_of_app in Hin as [Hin|Hin];
        [|by apply list_elem_of_singleton in Hin].
      destruct (IH Hcoll Hin Hc) as (k & Hk & Hl). exists k. split.
      * by apply lookup_app_l_Some.
      * destruct (complete ix); simpl; [done|].
        by rewrite list_lookup_insert_ne.
  - revert Hcoll. induction images as [|x images IH] using rev_ind;
      intros Hcoll Hout; [done|].
    unfold image_collection in Hcoll. rewrite forallb_app in Hcoll.
    apply andb_prop in Hcoll as [Hcoll Hx]. simpl in Hx.
    rewrite andb_true_r in Hx. apply bool_decide_eq_true in Hx.
    rewrite preloadImages_snoc.
    destruct (live_created_store images store Hcoll) as [Hstore Hcompl].
    set (ld := preloadImages images store) in *.
    assert (is_Some (ld_images ld !! x)) as [ix Hix]
      by (apply lookup_lt_is_Some; by rewrite Hstore).
    assert (ld_images ld !! img = Some im) as Hold.
    { apply IH; [done|]. destruct Hout as [Hout|Hout]; [left|by right].
      intros Hin. apply Hout, elem_of_app. by left. }
    unfold newImagePromise. rewrite Hix.
    destruct (complete ix) eqn:Hcx; simpl; [done|].
    rewrite list_lookup_insert_ne; [done|]. intros ->.
    destruct Hout as [Hout|Hout].
    + apply Hout, elem_of_app. right. by apply list_elem_of_singleton.
    + simplify_eq. congruence.
Qed.

Lemma preloadImages_handlers_witness :
  let ld := preloadImages [0; 1] ex_busy_store in
  (0 ∈ [0; 1] → complete (mkImage false (Some Foreign) (Some Foreign)) = false →
     ∃ k, [0; 1] !! k = Some 0
          ∧ ld_images ld !! 0
            = Some (mkImage false (Some (Resolve k)) (Some (Resolve k))))
  ∧ (0 ∉ [0; 1] ∨ complete (mkImage false (Some Foreign) (Some Foreign)) = true →
     ld_images ld !! 0 = Some (mkImage false (Some Foreign) (Some Foreign)))
  ∧ (∀ evs, ld_images (deliverAll evs ld) = ld_images ld).
Proof.
  apply (preloadImages_handlers [0; 1] ex_busy_store 0
           (mkImage false (Some Foreign) (Some Foreign))); reflexivity.
Defined.

(** ** The grid layout component *)

(** *** [isHtmlContent] *)

Lemma append_empty_l s : "" +:+ s = s.
Proof. reflexivity. Qed.

Lemma append_String c s t : String c s +:+ t = String c (s +:+ t).
Proof. reflexivity. Qed.

Lemma search_spec ic p s :
  GridLayout.search ic p s = true ↔
  ∃ pre rest, s = pre +:+ rest ∧ GridLayout.match_here ic p rest = true.
Proof.
  induction s as [|c s IH]; simpl.
  - rewrite orb_false_r. split.
    + intros H. by exists "", "".
    + intros (pre & rest & Hs & H). by destruct pre, rest.
  - rewrite orb_true_iff, IH. split.
    + intros [H|(pre & rest & -> & H)].
      * by exists "", (String c s).
      * by exists (String c pre), rest.
    + intros (pre & rest & Hs & H). destruct pre as [|c' pre].
      * rewrite append_empty_l in Hs. left. by subst rest.
      * rewrite append_String in Hs. right. injection Hs as -> ->. eauto.
Qed.

Lemma star_any_spec ic cls p s :
  (∀ c, GridLayout.class_matches ic cls c = true) →
  GridLayout.match_here ic (GridLayout.Star cls :: p) s = true ↔
  ∃ mid rest, s = mid +:+ rest ∧ GridLayout.match_here ic p rest = true.
Proof.
  intros Hany. induction s as [|c s IH].
  - simpl. split.
    + intros H. by exists "", "".
    + intros (mid & rest & Hs & H). by destruct mid, rest.
  - change (GridLayout.match_here ic (GridLayout.Star cls :: p) (String c s))
      with ((GridLayout.class_matches ic cls c
             && GridLayout.match_here ic (GridLayout.Star cls :: p) s)
            || GridLayout.match_here ic p (String c s)).
    rewrite Hany. simpl. rewrite orb_true_iff, IH. split.
    + intros [(mid & rest & -> & H)|H].
      * by exists (String c mid), rest.
      * by exists "", (String c s).
    + intros (mid & rest & Hs & H). destruct mid as [|c' mid].
      * rewrite append_empty_l in Hs. right. by subst rest.
      * rewrite append_String in Hs. left. injection Hs as -> ->. eauto.
Qed.

Lemma class_matches_any c :
  GridLayout.class_matches true
    (GridLayout.Union GridLayout.WhiteSpace GridLayout.NonWhiteSpace) c = true.
Proof. simpl. by destruct (GridLayout.white_space c). Qed.

Lemma class_matches_letter c :
  GridLayout.class_matches true (GridLayout.Range "a"%char "z"%char) c
  = GridLayout.ascii_letter c.
Proof. destruct c as [[] [] [] [] [] [] [] []]; vm_compute; reflexivity. Qed.

Lemma class_matches_literal a c :
  a = "<"%char ∨ a = ">"%char →
  GridLayout.class_matches true (GridLayout.Literal a) c = true ↔ c = a.
Proof.
  intros [-> | ->]; (split; [|by intros ->]);
    destruct c as [[] [] [] [] [] [] [] []]; vm_compute; congruence.
Qed.

Lemma match_here_One ic cls p c s :
  GridLayout.match_here ic (GridLayout.One cls :: p) (String c s)
  = GridLayout.class_matches ic cls c && GridLayout.match_here ic p s.
Proof. reflexivity. Qed.

(** X20.  [isHtmlContent] holds of a string exactly when it has a [<]
    followed at once by a letter of ASCII, of either case, and a [>]
    anywhere after that letter. *)
Theorem isHtmlContent_spec content :
  GridLayout.isHtmlContent content = true ↔
  ∃ pre c mid post,
    content = pre +:+ "<" +:+ String c (mid +:+ ">" +:+ post)
    ∧ GridLayout.ascii_letter c = true.
Proof.
  unfold GridLayout.isHtmlContent, GridLayout.test, GridLayout.htmlTag.
  cbn [GridLayout.ignoreCase GridLayout.pattern].
  rewrite search_spec. split.
  - intros (pre & rest & -> & H).
    destruct rest as [|lt rest]; [done|]. rewrite match_here_One in H.
    apply andb_prop in H as [Hlt H].
    apply class_matches_literal in Hlt as ->; [|by left].
    destruct rest as [|c rest]; [done|]. rewrite match_here_One in H.
    apply andb_prop in H as [Hc H]. rewrite class_matches_letter in Hc.
    apply (star_any_spec true _ [GridLayout.One (GridLayout.Literal ">"%char)])
      in H as (mid & rest' & -> & H); [|apply class_matches_any].
    destruct rest' as [|gt post]; [done|]. rewrite match_here_One in H.
    apply andb_prop in H as [Hgt _].
    apply class_matches_literal in Hgt as ->; [|by right].
    by exists pre, c, mid, post.
  - intros (pre & c & mid & post & -> & Hc).
    exists pre, ("<" +:+ String c (mid +:+ ">" +:+ post)). split; [done|].
    change ("<" +:+ String c (mid +:+ ">" +:+ post))
      with (String "<" (String c (mid +:+ ">" +:+ post))).
    rewrite !match_here_One, class_matches_letter, Hc.
    rewrite (proj2 (class_matches_literal "<"%char "<"%char (or_introl eq_refl))
               eq_refl).
    rewrite !andb_true_l.
    apply (star_any_spec true); [apply class_matches_any|].
    exists mid, (">" +:+ post). split; [done|].
    change (">" +:+ post) with (String ">" post).
    rewrite match_here_One.
    rewrite (proj2 (class_matches_literal ">"%char ">"%char (or_intror eq_refl))
               eq_refl).
    reflexivity.
Qed.

(** *** The rendering of the HTML contents *)

Lemma renderHtmlContents_step sanitize items n :
  GridLayout.renderHtmlContents sanitize items (S n) =
  match GridLayout.renderHtmlContents sanitize items n with
  | (writes, Returns) =>
      match GridLayout.item_at items n with
      | Some item =>
          if GridLayout.isHtmlContent (GridLayout.content item)
          then
            let '(written, outcome) :=
              GridLayout.renderSafeHtml sanitize (GridLayout.content item)
                (Some n) in
            ((writes ++ written)%list, outcome)
          else (writes, Returns)
      | None => (writes, Returns)
      end
  | thrown => thrown
  end.
Proof.
  unfold GridLayout.renderHtmlContents.
  rewrite seq_S, foldl_app. simpl.
  by destruct (foldl _ _ _) as [? []].
Qed.

(** With a sanitizer that returns, the loop returns, and it has assigned
    to the container at a position the sanitized content of the item at
    the same position of [items], if that one is HTML. *)
Lemma renderHtmlContents_writes sanitize clean items n :
  (∀ html, sanitize html GridLayout.sanitizeConfig = inl (clean html)) →
  let '(writes, outcome) := GridLayout.renderHtmlContents sanitize items n in
  outcome = Returns ∧
  ∀ k html,
    (k, html) ∈ writes ↔
    k < n ∧ ∃ item, GridLayout.item_at items k = Some item
                    ∧ GridLayout.isHtmlContent (GridLayout.content item) = true
                    ∧ html = clean (GridLayout.content item).
Proof.
  intros Hclean. induction n as [|n IH].
  - split; [done|]. intros k html. split.
    + by intros ?%elem_of_nil.
    + intros [? _]. lia.
  - rewrite renderHtmlContents_step.
    destruct (GridLayout.renderHtmlContents sanitize items n)
      as [writes outcome].
    destruct IH as [-> IH].
    assert (Hold : ∀ k html,
      (k, html) ∈ writes ↔
      k < S n ∧ k ≠ n ∧
      ∃ item, GridLayout.item_at items k = Some item
              ∧ GridLayout.isHtmlContent (GridLayout.content item) = true
              ∧ html = clean (GridLayout.content item)).
    { intros k html. rewrite IH. split.
      - intros [? ?]. split; [lia|]. split; [lia|done].
      - intros (? & ? & ?). split; [lia|done]. }
    destruct (GridLayout.item_at items n) as [item|] eqn:Hitem.
    + destruct (GridLayout.isHtmlContent (GridLayout.content item)) eqn:Hhtml.
      * unfold GridLayout.renderSafeHtml. rewrite Hclean.
        split; [done|]. intros k html.
        rewrite elem_of_app, list_elem_of_singleton, Hold. split.
        -- intros [(? & ? & ?)|[= -> ->]]; [done|].
           split; [lia|]. by exists item.
        -- intros [Hk (item' & Hitem' & Hhtml' & ->)].
           destruct (decide (k = n)) as [->|Hne].
           ++ right. rewrite Hitem in Hitem'. by injection Hitem' as ->.
           ++ left. split; [done|]. split; [done|]. by exists item'.
      * split; [done|]. intros k html. rewrite Hold. split.
        -- intros (? & ? & ?). done.
        -- intros [Hk (item' & Hitem' & Hhtml' & ->)].
           split; [done|]. split; [|by exists item'].
           intros ->. rewrite Hitem in Hitem'. injection Hitem' as ->.
           congruence.
    + split; [done|]. intros k html. rewrite Hold. split.
      * intros (? & ? & ?). done.
      * intros [Hk (item' & Hitem' & Hhtml' & ->)].
        split; [done|]. split; [|by exists item'].
        intros ->. congruence.
Qed.

Lemma item_at_Some (items : list GridLayout.GridItem) k :
  GridLayout.item_at (Some <$> items) k = items !! k.
Proof.
  unfold GridLayout.item_at. rewrite list_lookup_fmap.
  by destruct (items !! k).
Qed.

Lemma htmlItems_all items :
  Forall (λ item, GridLayout.isHtmlContent (GridLayout.content item) = true)
         items →
  GridLayout.htmlItems items = items.
Proof.
  unfold GridLayout.htmlItems. induction 1 as [|item items H _ IH]; [done|].
  rewrite filter_cons_True by done. by rewrite IH.
Qed.



(** X22.  When the first item is plain text and the content of every
    other item is HTML, the rendering loop leaves the first container
    untouched and fills each further one with the content of the item
    before the one the template made it for; the content of the last
    item reaches no container. *)
Theorem renderHtmlContents_shifted sanitize clean plain rest :
  (∀ html, sanitize html GridLayout.sanitizeConfig = inl (clean html)) →
  GridLayout.isHtmlContent (GridLayout.content plain) = false →
  Forall (λ item, GridLayout.isHtmlContent (GridLayout.content item) = true)
         rest →
  let items := plain :: rest in
  let htmlContainers := length (GridLayout.htmlItems items) in
  let result :=
    GridLayout.renderHtmlContents sanitize (Some <$> items) htmlContainers in
  GridLayout.htmlItems items = rest ∧
  result.2 = Returns ∧
  (∀ html, (0, html) ∉ result.1) ∧
  ∀ k html,
    (S k, html) ∈ result.1 ↔
    S k < length rest ∧
    ∃ item, rest !! k = Some item ∧ html = clean (GridLayout.content item).
Proof.
  intros Hclean Hplain Hall items htmlContainers result.
  assert (Hrest : GridLayout.htmlItems items = rest).
  { unfold items, GridLayout.htmlItems.
    rewrite filter_cons_False by congruence. by apply htmlItems_all. }
  split; [done|]. subst htmlContainers result. rewrite Hrest.
  pose proof (renderHtmlContents_writes sanitize clean (Some <$> items)
                (length rest) Hclean) as H.
  destruct (GridLayout.renderHtmlContents _ _ _) as [writes outcome].
  destruct H as [-> H]. split; [done|]. simpl. split.
  - intros html [_ (item & Hitem & Hhtml & _)]%H.
    rewrite item_at_Some in Hitem. injection Hitem as <-. congruence.
  - intros k html. rewrite H. split.
    + intros [Hk (item & Hitem & _ & ->)]. split; [done|].
      rewrite item_at_Some in Hitem. by exists item.
    + intros [Hk (item & Hitem & ->)]. split; [done|]. exists item.
      rewrite item_at_Some. split; [done|]. split; [|done].
      rewrite Forall_forall in Hall. apply Hall.
      by eapply list_elem_of_lookup_2.
Qed.

Lemma renderHtmlContents_shifted_witness :
  (1, "<p>Hello</p>")
  ∈ (GridLayout.renderHtmlContents ex_passing_sanitizer
       (Some <$> ex_items) 2).1.
Proof.
  apply (renderHtmlContents_shifted ex_passing_sanitizer id
           (GridLayout.mkGridItem 0 0 6 4 "Notes" "plain text")
           (tail ex_items)).
  - reflexivity.
  - reflexivity.
  - repeat constructor.
  - split; [simpl; lia|]. eexists. split; reflexivity.
Defined.

(** *** The items and the dialog *)

Lemma array_set_lt {A} index (value : A) l :
  index < length l →
  GridLayout.array_set index value l = <[index := Some value]> l.
Proof. intros Hlt. unfold GridLayout.array_set. by rewrite decide_True. Qed.

Lemma item_at_lt items index item :
  GridLayout.item_at items index = Some item → index < length items.
Proof.
  unfold GridLayout.item_at. intros Hitem.
  destruct (items !! index) eqn:Hi; [|done]. by eapply lookup_lt_Some.
Qed.

(** X23.  With a grid, [addItem], typing a title and a content and
    [saveItem] append one item of position (0, 0) and size 6 by 4 with
    that content and that title, or the title ["Untitled Block"] for an
    empty one; the item goes to the grid, and the dialog is closed. *)
Theorem saveItem_appends `{!GridLayout.GridStack G W}
    (st : GridLayout.State G) g title content :
  GridLayout.grid st = Some g →
  let item :=
    GridLayout.mkGridItem 0 0 6 4
      (if decide (title = "") then "Untitled Block" else title) content in
  let saved :=
    GridLayout.saveItem
      (GridLayout.inputContent content
         (GridLayout.inputTitle title (GridLayout.addItem st))) in
  GridLayout.items saved = (GridLayout.items st ++ [Some item])%list ∧
  GridLayout.grid saved = Some (GridLayout.addWidget item g) ∧
  GridLayout.showAddDialog saved = false ∧
  GridLayout.editingIndex saved = None.
Proof.
  intros Hgrid item saved. subst item saved.
  unfold GridLayout.saveItem. simpl. rewrite Hgrid. simpl.
  unfold GridLayout.newItem. simpl.
  assert (Hc : (if decide (content = "") then "" else content) = content)
    by by destruct (decide (content = "")).
  by rewrite Hc.
Qed.

Lemma saveItem_appends_witness :
  length (GridLayout.items
            (GridLayout.saveItem
               (GridLayout.inputContent "<i>New</i>"
                  (GridLayout.inputTitle "" (GridLayout.addItem ex_state)))))
  = 4.
Proof.
  rewrite (proj1 (saveItem_appends ex_state ex_items "" "<i>New</i>"
                    eq_refl)).
  reflexivity.
Defined.

(** X24.  With a grid, [editItem] on an item followed by [saveItem]
    keeps the content of the item and its title (["Untitled Block"] for
    an empty one) and moves the item back to position (0, 0) and to size
    6 by 4, whatever its position and its size were; the other items are
    as before. *)
Theorem saveItem_resets_geometry `{!GridLayout.GridStack G W}
    (st : GridLayout.State G) g index item :
  GridLayout.grid st = Some g →
  GridLayout.item_at (GridLayout.items st) index = Some item →
  GridLayout.items (GridLayout.saveItem (GridLayout.editItem index st))
  = <[index := Some (GridLayout.mkGridItem 0 0 6 4
                       (if decide (GridLayout.title item = "")
                        then "Untitled Block" else GridLayout.title item)
                       (GridLayout.content item))]> (GridLayout.items st).
Proof.
  intros Hgrid Hitem.
  unfold GridLayout.saveItem. simpl. rewrite Hgrid. simpl.
  rewrite array_set_lt by by eapply item_at_lt.
  unfold GridLayout.newItem. simpl. rewrite Hitem. simpl.
  by destruct (decide (GridLayout.content item = "")) as [->|].
Qed.

Lemma saveItem_resets_geometry_witness :
  GridLayout.item_at
    (GridLayout.items (GridLayout.saveItem (GridLayout.editItem 1 ex_state)))
    1
  = Some (GridLayout.mkGridItem 0 0 6 4 "Intro" "<p>Hello</p>").
Proof.
  rewrite (saveItem_resets_geometry ex_state ex_items 1
             (GridLayout.mkGridItem 6 0 6 4 "Intro" "<p>Hello</p>")
             eq_refl eq_refl).
  reflexivity.
Defined.

(** X25.  The button [Add Block] of the template opens the dialog
    without [addItem].  After [editItem] on an item and [Cancel], the
    button, a title, a content and [saveItem] replace that item and
    append nothing. *)
Theorem cancelled_edit_is_resumed `{!GridLayout.GridStack G W}
    (st : GridLayout.State G) g index title content :
  GridLayout.grid st = Some g →
  index < length (GridLayout.items st) →
  let saved :=
    GridLayout.saveItem
      (GridLayout.inputContent content
         (GridLayout.inputTitle title
            (GridLayout.clickAddBlock
               (GridLayout.clickCancel (GridLayout.editItem index st))))) in
  GridLayout.items saved
  = <[index := Some (GridLayout.mkGridItem 0 0 6 4
                       (if decide (title = "")
                        then "Untitled Block" else title) content)]>
      (GridLayout.items st) ∧
  length (GridLayout.items saved) = length (GridLayout.items st).
Proof.
  intros Hgrid Hindex saved. subst saved.
  unfold GridLayout.saveItem. simpl. rewrite Hgrid. simpl.
  rewrite array_set_lt by done. unfold GridLayout.newItem. simpl.
  rewrite length_insert. split; [|done].
  by destruct (decide (content = "")) as [->|].
Qed.

Lemma cancelled_edit_is_resumed_witness :
  GridLayout.items
    (GridLayout.saveItem
       (GridLayout.inputContent "new"
          (GridLayout.inputTitle "New"
             (GridLayout.clickAddBlock
                (GridLayout.clickCancel (GridLayout.editItem 0 ex_state))))))
  = Some <$> [ GridLayout.mkGridItem 0 0 6 4 "New" "new";
               GridLayout.mkGridItem 6 0 6 4 "Intro" "<p>Hello</p>";
               GridLayout.mkGridItem 0 4 6 4 "Terms" "<b>Terms</b>" ].
Proof.
  rewrite (proj1 (cancelled_edit_is_resumed ex_state ex_items 0 "New" "new"
                    eq_refl ltac:(simpl; lia))).
  reflexivity.
Defined.

Lemma updateItemsPositions_snoc {G} nodes node (st : GridLayout.State G) :
  GridLayout.updateItemsPositions (nodes ++ [node]) st
  = GridLayout.updateItemsPositions [node]
      (GridLayout.updateItemsPositions nodes st).
Proof. unfold GridLayout.updateItemsPositions. by rewrite foldl_app. Qed.

Lemma text_of_insert items index item item' :
  GridLayout.item_at items index = Some item →
  GridLayout.title item' = GridLayout.title item →
  GridLayout.content item' = GridLayout.content item →
  GridLayout.text_of <$> <[index := Some item']> items
  = GridLayout.text_of <$> items.
Proof.
  intros Hitem Ht Hc. rewrite list_fmap_insert.
  apply list_insert_id. rewrite list_lookup_fmap.
  unfold GridLayout.item_at in Hitem.
  destruct (items !! index) as [[i|]|]; simplify_eq/=.
  unfold GridLayout.text_of. simpl. by rewrite Ht, Hc.
Qed.

(** X26.  Whatever the nodes of a [change] event are,
    [updateItemsPositions] keeps the number of the items, the title and
    the content of each of them, the grid and the dialog. *)
Theorem updateItemsPositions_keeps_text {G} nodes (st : GridLayout.State G) :
  let moved := GridLayout.updateItemsPositions nodes st in
  length (GridLayout.items moved) = length (GridLayout.items st) ∧
  GridLayout.text_of <$> GridLayout.items moved
  = GridLayout.text_of <$> GridLayout.items st ∧
  GridLayout.grid moved = GridLayout.grid st ∧
  GridLayout.showAddDialog moved = GridLayout.showAddDialog st ∧
  GridLayout.editingIndex moved = GridLayout.editingIndex st ∧
  GridLayout.editingItem moved = GridLayout.editingItem st.
Proof.
  simpl. induction nodes as [|node nodes IH] using rev_ind; [done|].
  rewrite updateItemsPositions_snoc.
  set (mid := GridLayout.updateItemsPositions nodes st) in *.
  destruct IH as (IH1 & IH2 & IH3 & IH4 & IH5 & IH6).
  rewrite <- IH1, <- IH2, <- IH3, <- IH4, <- IH5, <- IH6.
  unfold GridLayout.updateItemsPositions. simpl.
  destruct (GridLayout.parseInt (GridLayout.gs_id node)) as [index|]; [|done].
  destruct (decide (0 ≤ index)%Z); [|done].
  destruct (GridLayout.item_at (GridLayout.items mid) (Z.to_nat index))
    as [item|] eqn:Hitem; [|done].
  simpl. rewrite array_set_lt by by eapply item_at_lt.
  rewrite length_insert. split; [done|]. split; [|done].
  by eapply text_of_insert.
Qed.

(** X27.  Nodes whose elements have no [gs-id] attribute, as those
    that the template renders, change nothing. *)
Theorem updateItemsPositions_without_id {G} nodes (st : GridLayout.State G) :
  Forall (λ node, GridLayout.gs_id node = None) nodes →
  GridLayout.updateItemsPositions nodes st = st.
Proof.
  induction nodes as [|node nodes IH] using rev_ind; [done|].
  rewrite Forall_app, Forall_singleton. intros [Hnodes Hnode].
  rewrite updateItemsPositions_snoc, IH by done.
  unfold GridLayout.updateItemsPositions. simpl. by rewrite Hnode.
Qed.

Lemma updateItemsPositions_without_id_witness :
  GridLayout.updateItemsPositions [GridLayout.mkNode None 2 3 4 5] ex_state
  = ex_state.
Proof.
  apply (updateItemsPositions_without_id
           [GridLayout.mkNode None 2 3 4 5] ex_state).
  repeat constructor.
Defined.

(** ** The hooks of the safe HTML renderer *)

Lemma shown_snoc sanitize html updates update :
  shown sanitize html (updates ++ [update])
  = html_changed sanitize (shown sanitize html updates) update.
Proof. unfold shown. by rewrite foldl_app. Qed.

Lemma renderSafeHtml_props sanitize c :
  props_html (renderSafeHtml sanitize c).1 = props_html c.
Proof.
  unfold renderSafeHtml. destruct (container_innerHTML c); [|done].
  by destruct (sanitize _ _).
Qed.

(** X28.  A mounted renderer holds the last string it was given.
    Its container is empty or shows what the sanitizer made of one of
    the strings the component was given, whatever the sanitizer does;
    with a sanitizer that returns it shows what the sanitizer makes of
    the last string. *)
Theorem shown_is_sanitized sanitize html updates :
  let c := shown sanitize html updates in
  props_html c = List.last updates html ∧
  (container_innerHTML c = Some "" ∨
   ∃ given, given ∈ html :: updates
            ∧ (inl <$> container_innerHTML c)
              = Some (sanitize given safeHtmlConfig)) ∧
  (∀ clean,
     (∀ given, sanitize given safeHtmlConfig = inl (clean given)) →
     container_innerHTML c = Some (clean (props_html c))).
Proof.
  simpl. induction updates as [|update updates IH] using rev_ind.
  - unfold shown, mounted, renderSafeHtml. simpl.
    destruct (sanitize html safeHtmlConfig) as [sanitizedHtml|error] eqn:Hs;
      simpl.
    + split; [done|]. split.
      * right. exists html. rewrite Hs. split; [apply list_elem_of_here|done].
      * intros clean Hclean. rewrite Hclean in Hs. by injection Hs as <-.
    + split; [done|]. split; [by left|].
      intros clean Hclean. by rewrite Hclean in Hs.
  - rewrite shown_snoc, last_last.
    destruct IH as (IHp & IHc & IHt).
    set (c := shown sanitize html updates) in *.
    unfold html_changed. destruct (decide (update = props_html c)) as [->|Hne].
    + split; [done|]. split; [|done].
      destruct IHc as [IHc|(given & Hin & IHc)]; [by left|].
      right. exists given. split; [|done].
      rewrite app_comm_cons. apply elem_of_app. by left.
    + unfold renderSafeHtml. simpl.
      destruct (container_innerHTML c) as [previous|] eqn:Hprev.
      * destruct (sanitize update safeHtmlConfig) as [sanitizedHtml|error]
          eqn:Hs; simpl.
        -- split; [done|]. split.
           ++ right. exists update. rewrite Hs. split; [|done].
              rewrite app_comm_cons. apply elem_of_app. right.
              apply list_elem_of_here.
           ++ intros clean Hclean. rewrite Hclean in Hs.
              by injection Hs as <-.
        -- split; [done|]. split.
           ++ destruct IHc as [IHc|(given & Hin & IHc)]; [left; congruence|].
              right. exists given. split; [|done].
              rewrite app_comm_cons. apply elem_of_app. by left.
           ++ intros clean Hclean. by rewrite Hclean in Hs.
      * simpl. split; [done|]. split.
        -- destruct IHc as [IHc|(given & Hin & IHc)]; [done|].
           discriminate IHc.
        -- intros clean Hclean. specialize (IHt clean Hclean). done.
Qed.
